(** * QuakeInsight: the seismic catalog analysis engine

    A shallow embedding of the analysis core of
    [src/app/api/analyze/route.ts]: the clustering algorithms of
    [performClustering] (DBSCAN, k-means, "fuzzy" k-means), the four
    declustering strategies of [performDeclustering], the Omori
    estimator [calculateOmoriParameters] with the binning of
    [performEDA], the Gutenberg-Richter table with [calculateBValue],
    the mainshock highlight and the colour scales of [performEDA], and
    [performMagnitudePrediction].

    JavaScript numbers are IEEE 754 binary64 values, modelled by Rocq's
    primitive floats.  Event objects and the arrays that the code copies
    and sorts live in an explicit heap, so that object identity (the
    [Set] of visited events, [Array.prototype.includes], [!==]) and
    aliasing are those of the source.  What the least-squares
    estimators return is bounded on these binary64 numbers, from the
    rounding error of each operation. *)

From Stdlib Require Import List ZArith Lia Bool Floats String Permutation.
From Stdlib Require Import DecimalString Reals Lra.
From stdpp Require Import base list sets.
Import ListNotations.

Set Warnings "-inexact-float,-clear-no-such-hyp,-level-tolerance".
Local Open Scope float_scope.

(** ** JavaScript numbers *)

Module JS.

(** [n] as a JavaScript number (array lengths, indices, counters);
    exact below 2^53. *)
Definition of_nat (n : nat) : float :=
  PrimFloat.of_uint63 (Uint63.of_Z (Z.of_nat n)).

(** [a > b] and [a >= b]; both are false when an operand is NaN. *)
Definition gt (a b : float) : bool := b <? a.
Definition ge (a b : float) : bool := b <=? a.

(** [Number.isFinite]. *)
Definition isFinite (x : float) : bool :=
  negb (is_nan x) && negb (is_infinity x).

(** [Math.floor(x)] for an [x] that is then used as an array index:
    the integer part of a non-negative finite [x]; [None] when
    [Math.floor(x)] is negative, infinite or NaN (indexing an array
    with such a number yields [undefined]). *)
Definition Math_floor (x : float) : option Z :=
  match Prim2SF x with
  | S754_zero _ => Some 0%Z
  | S754_finite false m e => Some (Z.shiftl (Z.pos m) e)
  | _ => None
  end.

(** [l[i]] for an index computed by [Math_floor]. *)
Definition index {A} (l : list A) (i : option Z) : option A :=
  match i with
  | Some z => if (z <? Z.of_nat (length l))%Z then l !! Z.to_nat z else None
  | None => None
  end.

(** Template literal [`${n}`] of a small natural number. *)
Definition show (n : nat) : string := NilEmpty.string_of_uint (Nat.to_uint n).

(** [Math.random()]: the [drawn]-th call returns [draws drawn]. *)
Record Random := mkRandom { draws : nat -> float; drawn : nat }.

Definition Math_random (g : Random) : float * Random :=
  (draws g (drawn g), mkRandom (draws g) (S (drawn g))).

(** What [throw] raises. *)
Inductive Exception :=
| Error (message : string)
| TypeError (message : string).

Definition message_of (e : Exception) : string :=
  match e with Error m | TypeError m => m end.

End JS.

(** ** The heap: event objects and arrays of references *)

Definition loc := nat.

(** The fields of an event object the analysis reads ([formattedTime]
    is carried along by the source but never read by the core). *)
Record Event := mkEvent {
  time : float;
  latitude : float;
  longitude : float;
  depth : float;
  magnitude : float
}.

(** The object [{}]: reading a field gives [undefined], which every
    arithmetic use turns into NaN. *)
Definition absent : Event := mkEvent nan nan nan nan nan.

Record Heap := mkHeap {
  objs : list Event;          (* object [r] is [objs !! r] *)
  arrs : list (list loc)      (* array [a] holds the references [arrs !! a] *)
}.

Definition obj (h : Heap) (r : loc) : Event := default absent (objs h !! r).
Definition arr (h : Heap) (a : loc) : list loc := default [] (arrs h !! a).

Definition alloc_obj (e : Event) (h : Heap) : loc * Heap :=
  (length (objs h), mkHeap (objs h ++ [e]) (arrs h)).
Definition alloc_arr (l : list loc) (h : Heap) : loc * Heap :=
  (length (arrs h), mkHeap (objs h) (arrs h ++ [l])).
Definition store_obj (r : loc) (e : Event) (h : Heap) : Heap :=
  mkHeap (<[r := e]> (objs h)) (arrs h).
Definition store_arr (a : loc) (l : list loc) (h : Heap) : Heap :=
  mkHeap (objs h) (<[a := l]> (arrs h)).

(** Membership by reference: [Set.prototype.has], [Array.prototype.includes]. *)
Definition has (s : list loc) (r : loc) : bool := existsb (Nat.eqb r) s.

(** [Math.sqrt(latDiff * latDiff + lngDiff * lngDiff)], the [distance]
    helper of [dbscan], of [kmeans] and of [decluster]. *)
Definition distance (h : Heap) (p1 p2 : loc) : float :=
  let latDiff := latitude (obj h p1) - latitude (obj h p2) in
  let lngDiff := longitude (obj h p1) - longitude (obj h p2) in
  PrimFloat.sqrt (latDiff * latDiff + lngDiff * lngDiff).

(** [l.reduce((sum, e) => sum + f(e), 0)]. *)
Definition sumOf (h : Heap) (f : Event -> float) (l : list loc) : float :=
  fold_left (fun sum e => sum + f (obj h e)) l 0.

(** [l.reduce((max, e) => e.magnitude > max.magnitude ? e : max, first)]. *)
Definition largestFrom (h : Heap) (first : loc) (l : list loc) : loc :=
  fold_left
    (fun max e => if JS.gt (magnitude (obj h e)) (magnitude (obj h max)) then e else max)
    l first.

(** ** Density-based clustering: [dbscan] (route.ts 716-768) *)

Module DBSCAN.
Section Dbscan.
Variable h : Heap.
Variable points : list loc.
Variable eps : float.
Variable minPts : nat.

Definition getNeighbors (point : loc) : list loc :=
  List.filter (fun p => distance h point p <=? eps) points.

(** The [while (queue.length > 0)] loop; one unit of [fuel] per
    iteration, [None] when the fuel runs out. *)
Fixpoint expand (fuel : nat) (visited cluster queue : list loc)
  : option (list loc * list loc) :=
  match fuel with
  | O => None
  | S fuel' =>
    match queue with
    | [] => Some (visited, cluster)
    | current :: rest =>
      if has visited current then expand fuel' visited cluster rest
      else
        let visited' := visited ++ [current] in
        let currentNeighbors := getNeighbors current in
        let queue' :=
          if (minPts <=? length currentNeighbors)%nat
          then rest ++ List.filter (fun n => negb (has visited' n)) currentNeighbors
          else rest in
        expand fuel' visited' (cluster ++ [current]) queue'
    end
  end.

(** Iterations the loop can take: every iteration either drops a queue
    entry or visits a new point, and a visit adds at most
    [length points] entries. *)
Definition budget : nat := S (length points + length points * length points).

Record State := mkState {
  visited : list loc;
  clusters : list (list loc);
  noise : list loc
}.

(** The body of [points.forEach], over the points still to come. *)
Fixpoint scan (todo : list loc) (st : State) : option State :=
  match todo with
  | [] => Some st
  | point :: todo' =>
    if has (visited st) point then scan todo' st
    else
      let visited1 := visited st ++ [point] in
      let neighbors := getNeighbors point in
      if (length neighbors <? minPts)%nat
      then scan todo' (mkState visited1 (clusters st) (noise st ++ [point]))
      else
        match expand budget visited1 [point] neighbors with
        | None => None
        | Some (visited2, cluster) =>
          scan todo' (mkState visited2 (clusters st ++ [cluster]) (noise st))
        end
  end.

Definition dbscan : option (list (list loc) * list loc) :=
  match scan points (mkState [] [] []) with
  | Some st => Some (clusters st, noise st)
  | None => None
  end.

End Dbscan.
End DBSCAN.

(** ** Running code: heap, random source, exceptions *)

Module Run.

Record World := mkWorld { heap : Heap; rng : JS.Random }.

Inductive Completion (A : Type) :=
| Normal (a : A)
| Throw (e : JS.Exception).
Arguments Normal {A} a.
Arguments Throw {A} e.

(** A computation maps the world before to its completion and the
    world after; [None] only when a loop of the model ran out of fuel. *)
Definition M (A : Type) : Type := World -> option (Completion A * World).

Definition ret {A} (a : A) : M A := fun w => Some (Normal a, w).
Definition throw {A} (e : JS.Exception) : M A := fun w => Some (Throw e, w).
Definition bind {A B} (c : M A) (k : A -> M B) : M B :=
  fun w =>
    match c w with
    | Some (Normal a, w') => k a w'
    | Some (Throw e, w') => Some (Throw e, w')
    | None => None
    end.
Definition tryCatch {A} (c : M A) (handler : JS.Exception -> M A) : M A :=
  fun w =>
    match c w with
    | Some (Throw e, w') => handler e w'
    | r => r
    end.
Definition liftOption {A} (o : option A) : M A :=
  fun w => match o with Some a => Some (Normal a, w) | None => None end.

Definition getHeap : M Heap := fun w => Some (Normal (heap w), w).
Definition random : M float :=
  fun w => let (r, g) := JS.Math_random (rng w) in Some (Normal r, mkWorld (heap w) g).
Definition allocObj (e : Event) : M loc :=
  fun w => let (r, h) := alloc_obj e (heap w) in Some (Normal r, mkWorld h (rng w)).
Definition allocArr (l : list loc) : M loc :=
  fun w => let (a, h) := alloc_arr l (heap w) in Some (Normal a, mkWorld h (rng w)).
Definition storeObj (r : loc) (e : Event) : M unit :=
  fun w => Some (Normal tt, mkWorld (store_obj r e (heap w)) (rng w)).
Definition storeArr (a : loc) (l : list loc) : M unit :=
  fun w => Some (Normal tt, mkWorld (store_arr a l (heap w)) (rng w)).

End Run.

Notation "'let*' x ':=' c 'in' k" := (Run.bind c (fun x => k))
  (at level 10, x name, c at level 100, k at level 200).

(** ** [[...data].sort((a, b) => a.time - b.time)] *)

(** The sort is stable and its comparator asks for [a] after [b] exactly
    when [a.time - b.time > 0]. *)
Fixpoint insertByTime (h : Heap) (a : loc) (l : list loc) : list loc :=
  match l with
  | [] => [a]
  | b :: l' =>
    if JS.gt (time (obj h a) - time (obj h b)) 0
    then b :: insertByTime h a l'
    else a :: l
  end.

Definition sortByTime (h : Heap) (l : list loc) : list loc :=
  fold_right (insertByTime h) [] l.

(** ** Declustering: [performDeclustering] (route.ts 959-1398) *)

Module Declustering.

(** One row of a binned distribution: the range label with its parsed bounds. *)
Definition Range : Type := string * float * float.

Definition inRange (x : float) (r : Range) : bool :=
  let '(_, min, max) := r in
  JS.ge x min && ((max =? infinity) || (x <? max)).

Definition magnitudeRanges : list Range :=
  [ ("2.0-2.9"%string, 2.0, 2.9); ("3.0-3.9"%string, 3.0, 3.9);
    ("4.0-4.9"%string, 4.0, 4.9); ("5.0-5.9"%string, 5.0, 5.9);
    ("6.0+"%string, 6.0, infinity) ].
Definition depthRanges : list Range :=
  [ ("0-5 km"%string, 0, 5); ("5-10 km"%string, 5, 10);
    ("10-20 km"%string, 10, 20); ("20-40 km"%string, 20, 40);
    ("40+ km"%string, 40, infinity) ].
Definition distanceRanges : list Range :=
  [ ("0-5 km"%string, 0, 5); ("5-10 km"%string, 5, 10);
    ("10-20 km"%string, 10, 20); ("20-50 km"%string, 20, 50);
    ("50+ km"%string, 50, infinity) ].

Record Stats := mkStats {
  totalEvents : nat;
  mainshockCount : nat;       (* field [mainshocks] *)
  aftershockCount : nat;      (* field [aftershocks] *)
  avgMagnitude : float;
  avgDepth : float;
  bValue : float;
  meanTimeGap : float
}.

Record Validity := mkValidity {
  goodnessOfFit : float;
  statisticalSignificance : float;
  clusterPurity : float
}.

Record Output := mkOutput {
  message : string;
  algorithm : string;
  beforeDeclustering : Stats;
  afterDeclustering : Stats;
  validityMetrics : Validity;
  magnitudeDistribution : list (string * nat * nat);   (* label, before, after *)
  cumulativeEvents : list (nat * nat * nat);           (* day, before, after *)
  depthDistribution : list (string * nat * nat);
  nndDistribution : list (string * nat);               (* label, count *)
  algorithmSpecific : list (string * float);
  mainshocks : list loc;
  aftershocks : list loc
}.

Section Decluster.
(** [Math.pow], which the primitive floats do not provide. *)
Variable Math_pow : float -> float -> float.
Variable h : Heap.

Definition nndAdmits (event laterEvent : loc) : bool :=
  let timeWindow := Math_pow 10 (magnitude (obj h event) - 5.5) * 24 * 60 * 60 * 1000 in
  let spaceWindow := Math_pow 10 (0.1 * magnitude (obj h event) - 0.5) in
  let timeDiff := time (obj h laterEvent) - time (obj h event) in
  if JS.gt timeDiff timeWindow then false
  else distance h laterEvent event <=? spaceWindow.

Definition gruenthalAdmits (event laterEvent : loc) : bool :=
  let timeWindow := Math_pow 10 (2.8 + 0.024 * magnitude (obj h event)) * 24 * 60 * 60 * 1000 in
  let spaceWindow := Math_pow 10 (-1.77 + 0.38 * magnitude (obj h event)) in
  let timeDiff := time (obj h laterEvent) - time (obj h event) in
  if JS.gt timeDiff timeWindow then false
  else distance h laterEvent event <=? spaceWindow.

Definition reasenbergAdmits (event laterEvent : loc) : bool :=
  let p := 1.0 in
  let c := 0.05 in
  let spaceWindow := Math_pow 10 (-1.85 + 0.4 * magnitude (obj h event)) in
  let timeDiff := (time (obj h laterEvent) - time (obj h event)) / (24 * 60 * 60 * 1000) in
  if distance h laterEvent event <=? spaceWindow
  then JS.gt (1 / Math_pow (timeDiff + c) p) 0.1
  else false.

(** [events.slice(i + 1).forEach(laterEvent => ...)]: the later events
    that are not yet aftershocks and pass the admission test are pushed. *)
Definition sweepLater (admits : loc -> bool) (later aftershocks : list loc) : list loc :=
  fold_left
    (fun acc laterEvent =>
       if has acc laterEvent then acc
       else if admits laterEvent then acc ++ [laterEvent] else acc)
    later aftershocks.

(** [events.forEach((event, i) => ...)] of the nnd, gruenthal and
    reasenberg cases, which differ in the admission test only. *)
Fixpoint windowLoop (admits : loc -> loc -> bool) (events mainshocks aftershocks : list loc)
  : list loc * list loc :=
  match events with
  | [] => (mainshocks, aftershocks)
  | event :: later =>
    if has aftershocks event then windowLoop admits later mainshocks aftershocks
    else windowLoop admits later (mainshocks ++ [event])
           (sweepLater (admits event) later aftershocks)
  end.

(** [clusters.forEach]: the largest event of a cluster is its
    mainshock, the others its aftershocks.  A cluster is created as
    [[event]], so it is never empty. *)
Definition splitCluster (acc : list loc * list loc) (cluster : list loc)
  : list loc * list loc :=
  match cluster with
  | [] => acc
  | first :: _ =>
    let mainshock := largestFrom h first cluster in
    (fst acc ++ [mainshock],
     snd acc ++ List.filter (fun event => negb (Nat.eqb event mainshock)) cluster)
  end.

(** [decluster(events, algorithm)] (route.ts 969-1148).  The dbscan
    case repeats the loop of [dbscan] with [eps = 0.5], [minPts = 3],
    pushing noise events to [mainshocks]. *)
Definition decluster (events : list loc) (algorithm : string)
  : option (JS.Exception + list loc * list loc) :=
  if String.eqb algorithm "dbscan" then
    match DBSCAN.dbscan h events 0.5 3 with
    | Some (clusters, noise) => Some (inr (fold_left splitCluster clusters (noise, [])))
    | None => None
    end
  else if String.eqb algorithm "nnd" then
    Some (inr (windowLoop nndAdmits events [] []))
  else if String.eqb algorithm "gruenthal" then
    Some (inr (windowLoop gruenthalAdmits events [] []))
  else if String.eqb algorithm "reasenberg" then
    Some (inr (windowLoop reasenbergAdmits events [] []))
  else
    Some (inl (JS.Error ("Unsupported declustering algorithm: " ++ algorithm))).

(** The [switch (subType)] that names the algorithm. *)
Definition algorithmOf (subType : string) : option string :=
  if String.eqb subType "DBSCAN" then Some "dbscan"%string
  else if String.eqb subType "NND Algorithm" then Some "nnd"%string
  else if String.eqb subType "Gruenthal Declustering Algorithm" then Some "gruenthal"%string
  else if String.eqb subType "Reasenberg Algorithm" then Some "reasenberg"%string
  else None.

(** "Ensure we have valid results" (route.ts 1176-1187). *)
Definition ensureMainshock (sortedData mainshocks : list loc) : list loc :=
  match mainshocks with
  | [] =>
    match sortedData with
    | [] => mainshocks
    | first :: _ => mainshocks ++ [largestFrom h first sortedData]
    end
  | _ => mainshocks
  end.

Definition firstTime (l : list loc) : float := time (default absent (obj h <$> head l)).
Definition lastTime (l : list loc) : float := time (default absent (obj h <$> last l)).

Definition meanGap (l : list loc) : float :=
  if (1 <? length l)%nat
  then (lastTime l - firstTime l) / (JS.of_nat (length l - 1) * 24 * 60 * 60 * 1000)
  else 0.

Definition countBy (f : Event -> bool) (l : list loc) : nat :=
  length (List.filter (fun e => f (obj h e)) l).

Definition binBy (f : Event -> float) (ranges : list Range) (before after : list loc)
  : list (string * nat * nat) :=
  map (fun r => (fst (fst r),
                 countBy (fun e => inRange (f e) r) before,
                 countBy (fun e => inRange (f e) r) after)) ranges.

Definition cumulative (sortedData mainshocks : list loc) : list (nat * nat * nat) :=
  let days := 7%nat in
  let startTime := firstTime sortedData in
  let endTime := lastTime sortedData in
  let timeRange := endTime - startTime in
  map (fun i =>
         let dayTime := startTime + JS.of_nat (i + 1) * (timeRange / JS.of_nat days) in
         ((i + 1)%nat,
          countBy (fun e => time e <=? dayTime) sortedData,
          countBy (fun e => time e <=? dayTime) mainshocks))
      (seq 0 days).

(** Distance in km from event [i] to its nearest other event. *)
Definition nearestKm (sortedData : list loc) (i : nat) (event : loc) : float :=
  fold_left
    (fun minDistance '(j, other) =>
       if Nat.eqb i j then minDistance
       else
         let distKm := distance h event other * 111 in
         if distKm <? minDistance then distKm else minDistance)
    (combine (seq 0 (length sortedData)) sortedData) infinity.

Definition nnd (sortedData : list loc) : list (string * nat) :=
  map (fun r =>
         (fst (fst r),
          length (List.filter (fun '(i, event) => inRange (nearestKm sortedData i event) r)
                    (combine (seq 0 (length sortedData)) sortedData))))
      distanceRanges.

Definition specifics (algorithmName : string) (mainshocks aftershocks : list loc)
  : list (string * float) :=
  let ms := JS.of_nat (length mainshocks) in
  let afs := JS.of_nat (length aftershocks) in
  if String.eqb algorithmName "dbscan" then
    [ ("noisePoints", ms - afs / 4); ("corePoints", afs / 5);
      ("borderPoints", afs / 10); ("eps", 5.2); ("minPts", 4) ]%string
  else if String.eqb algorithmName "nnd" then
    [ ("thresholdDistance", 10.5); ("thresholdTime", 3.2); ("etaValue", 0.5) ]%string
  else if String.eqb algorithmName "gruenthal" then
    [ ("spaceWindowKm", 30); ("timeWindowDays", 60); ("clusterStability", 0.88) ]%string
  else if String.eqb algorithmName "reasenberg" then
    [ ("foreshocksIdentified", afs / 8); ("aftershocksIdentified", afs * 7 / 8);
      ("pValue", 0.95); ("cValue", 0.05) ]%string
  else [].

End Decluster.

Section Perform.
Variable Math_pow : float -> float -> float.

(** The [try] block of [performDeclustering], from the [switch] to
    the returned record. *)
Definition analyse (subType : string) (sortedData : list loc) : Run.M Output :=
  let* h := Run.getHeap in
  match algorithmOf subType with
  | None => Run.throw (JS.Error ("Unsupported declustering algorithm: " ++ subType))
  | Some algorithmName =>
    let* declusteringResult :=
      Run.liftOption (decluster Math_pow h sortedData algorithmName) in
    match declusteringResult with
    | inl e => Run.throw e
    | inr (found, aftershocks) =>
      let mainshocks := ensureMainshock h sortedData found in
      let* r1 := Run.random in
      let beforeStats :=
        mkStats (length sortedData) (length mainshocks) (length aftershocks)
          (sumOf h magnitude sortedData / JS.of_nat (length sortedData))
          (sumOf h depth sortedData / JS.of_nat (length sortedData))
          (0.9 + r1 * 0.2)
          (meanGap h sortedData) in
      let* r2 := Run.random in
      let afterStats :=
        mkStats (length mainshocks) (length mainshocks) 0
          (sumOf h magnitude mainshocks / JS.of_nat (length mainshocks))
          (sumOf h depth mainshocks / JS.of_nat (length mainshocks))
          (1.0 + r2 * 0.2)
          (meanGap h mainshocks) in
      let* r3 := Run.random in
      let* r4 := Run.random in
      let* r5 := Run.random in
      Run.ret
        (mkOutput (subType ++ " declustering completed") algorithmName
           beforeStats afterStats
           (mkValidity (0.8 + r3 * 0.15) (0.85 + r4 * 0.15) (0.9 + r5 * 0.1))
           (binBy h magnitude magnitudeRanges sortedData mainshocks)
           (cumulative h sortedData mainshocks)
           (binBy h depth depthRanges sortedData mainshocks)
           (nnd h sortedData)
           (specifics algorithmName mainshocks aftershocks)
           mainshocks aftershocks)
    end
  end.

(** [performDeclustering(subType, data)]; [data] is the caller's array. *)
Definition performDeclustering (subType : string) (data : loc) : Run.M Output :=
  let* h0 := Run.getHeap in
  let* sorted := Run.allocArr (arr h0 data) in
  let* h1 := Run.getHeap in
  let* _ := Run.storeArr sorted (sortByTime h1 (arr h1 sorted)) in
  let* h := Run.getHeap in
  let sortedData := arr h sorted in
  if (length sortedData =? 0)%nat
  then Run.throw (JS.Error "No data available for declustering analysis")
  else
    Run.tryCatch (analyse subType sortedData)
      (fun error => Run.throw (JS.Error ("Declustering error: " ++ JS.message_of error))).

End Perform.
End Declustering.

(** ** Clustering: [performClustering] (route.ts 714-957) *)

Module Clustering.

Record Cluster := mkCluster {
  id : nat;
  size : nat;
  avgMagnitude : float;
  avgDepth : float;
  centroidLat : float;
  centroidLng : float;
  events : list loc
}.

Record Validity := mkValidity {
  silhouetteScore : float;
  daviesBouldinIndex : float;
  inertia : float
}.

Record Output := mkOutput {
  message : string;
  algorithm : string;
  clusters : list Cluster;
  validityMetrics : Validity;
  interClusterDistances : list (nat * nat * float);        (* cluster1, cluster2, distance *)
  clusterSizeDistribution : list (string * nat);           (* name, size *)
  magnitudeDistribution : list (string * list (string * nat));
  clusterSpread : list (string * float)                    (* name, spread *)
}.

(** *** [kmeans] (route.ts 771-827) *)

(** One element of [Array.from({ length: k }, ...)]: a fresh copy
    [{ ...points[randomIndex] }] of a randomly chosen point. *)
Definition pickCentroid (points : list loc) : Run.M loc :=
  let* r := Run.random in
  let* h := Run.getHeap in
  let randomIndex := JS.Math_floor (r * JS.of_nat (length points)) in
  Run.allocObj (default absent (obj h <$> JS.index points randomIndex)).

Fixpoint initCentroids (k : nat) (points : list loc) : Run.M (list loc) :=
  match k with
  | O => Run.ret []
  | S k' =>
    let* c := pickCentroid points in
    let* cs := initCentroids k' points in
    Run.ret (c :: cs)
  end.

(** [centroids.forEach((centroid, i) => ...)] inside the assignment:
    the index of the first centroid at the least distance. *)
Definition nearest (h : Heap) (point : loc) (centroids : list loc) : nat :=
  snd (fst
    (fold_left
       (fun '(minDist, clusterIndex, i) centroid =>
          let dist := distance h point centroid in
          if dist <? minDist then (dist, i, S i) else (minDist, clusterIndex, S i))
       centroids (infinity, O, O))).

(** [points.forEach]: [clusters[clusterIndex].push(point)], a
    [TypeError] when [clusters[clusterIndex]] is [undefined]. *)
Definition assign (h : Heap) (centroids points : list loc) (clusters : list (list loc))
  : JS.Exception + list (list loc) :=
  fold_left
    (fun acc point =>
       match acc with
       | inl e => inl e
       | inr clusters =>
         let clusterIndex := nearest h point centroids in
         match clusters !! clusterIndex with
         | Some c => inr (<[clusterIndex := c ++ [point]]> clusters)
         | None =>
           inl (JS.TypeError "Cannot read properties of undefined (reading 'push')")
         end
       end)
    points (inr clusters).

(** One step of "Update centroids": returns whether the centroid moved. *)
Definition updateCentroid (centroid : loc) (cluster : list loc) : Run.M bool :=
  if (length cluster =? 0)%nat then Run.ret false
  else
    let* h := Run.getHeap in
    let newLat := sumOf h latitude cluster / JS.of_nat (length cluster) in
    let newLng := sumOf h longitude cluster / JS.of_nat (length cluster) in
    let c := obj h centroid in
    if JS.gt (abs (latitude c - newLat)) 0.0001 || JS.gt (abs (longitude c - newLng)) 0.0001
    then
      let* _ := Run.storeObj centroid
                  (mkEvent (time c) newLat newLng (depth c) (magnitude c)) in
      Run.ret true
    else Run.ret false.

(** [centroids.forEach((centroid, i) => ...)] over [centroids[i]] and
    [clusters[i]]; both arrays have [k] elements. *)
Fixpoint updateCentroids (centroids : list loc) (clusters : list (list loc)) (changed : bool)
  : Run.M bool :=
  match centroids, clusters with
  | centroid :: centroids', cluster :: clusters' =>
    let* moved := updateCentroid centroid cluster in
    updateCentroids centroids' clusters' (changed || moved)
  | _, _ => Run.ret changed
  end.

(** [for (let iter = 0; iter < maxIterations; iter++)], with its [break]. *)
Fixpoint iterate (remaining k : nat) (points centroids : list loc) (clusters : list (list loc))
  : Run.M (list (list loc)) :=
  match remaining with
  | O => Run.ret clusters
  | S remaining' =>
    let* h := Run.getHeap in
    match assign h centroids points (repeat [] k) with
    | inl e => Run.throw e
    | inr clusters' =>
      let* changed := updateCentroids centroids clusters' false in
      if changed then iterate remaining' k points centroids clusters'
      else Run.ret clusters'
    end
  end.

Definition kmeans (points : list loc) (k maxIterations : nat)
  : Run.M (list (list loc) * list loc) :=
  let* centroids := initCentroids k points in
  let* clusters := iterate maxIterations k points centroids (repeat [] k) in
  Run.ret (clusters, centroids).

(** *** [fuzzyKmeans] (route.ts 830-834); [maxIterations] defaults to 10. *)
Definition fuzzyKmeans (points : list loc) (k : nat) : Run.M (list (list loc) * list loc) :=
  let* result := kmeans points k 10 in
  Run.ret result.

(** *** Processing the clustering result (route.ts 857-952) *)

Definition processCluster (h : Heap) (i : nat) (cluster : list loc) : Cluster :=
  mkCluster (i + 1) (length cluster)
    (sumOf h magnitude cluster / JS.of_nat (length cluster))
    (sumOf h depth cluster / JS.of_nat (length cluster))
    (sumOf h latitude cluster / JS.of_nat (length cluster))
    (sumOf h longitude cluster / JS.of_nat (length cluster))
    cluster.

Definition processClusters (h : Heap) (clusters : list (list loc)) : list Cluster :=
  map (fun '(i, cluster) => processCluster h i cluster)
      (combine (seq 0 (length clusters)) clusters).

Definition centroidDistance (cluster1 cluster2 : Cluster) : float :=
  let latDiff := centroidLat cluster1 - centroidLat cluster2 in
  let lngDiff := centroidLng cluster1 - centroidLng cluster2 in
  PrimFloat.sqrt (latDiff * latDiff + lngDiff * lngDiff) * 111.

(** The double loop [for i ... for j = i + 1 ...]. *)
Fixpoint interCluster (l : list Cluster) : list (nat * nat * float) :=
  match l with
  | [] => []
  | cluster1 :: rest =>
    map (fun cluster2 => (id cluster1, id cluster2, centroidDistance cluster1 cluster2)) rest
    ++ interCluster rest
  end.

Definition clusterName (c : Cluster) : string := ("Cluster " ++ JS.show (id c))%string.

Definition magnitudeRanges : list (string * float * float) :=
  [ ("2.0-2.9"%string, 2.0, 2.9); ("3.0-3.9"%string, 3.0, 3.9);
    ("4.0-4.9"%string, 4.0, 4.9); ("5.0-5.9"%string, 5.0, 5.9) ].

Definition magnitudeRow (h : Heap) (processed : list Cluster) (r : string * float * float)
  : string * list (string * nat) :=
  let '(range, min, max) := r in
  (range,
   map (fun cluster =>
          (("cluster" ++ JS.show (id cluster))%string,
           length (List.filter
                     (fun event => JS.ge (magnitude (obj h event)) min
                                   && (magnitude (obj h event) <? max))
                     (events cluster))))
       processed).

Definition spread (h : Heap) (cluster : Cluster) : float :=
  fold_left
    (fun sum event =>
       let latDiff := latitude (obj h event) - centroidLat cluster in
       let lngDiff := longitude (obj h event) - centroidLng cluster in
       let distance := PrimFloat.sqrt (latDiff * latDiff + lngDiff * lngDiff) * 111 in
       sum + distance)
    (events cluster) 0
  / JS.of_nat (size cluster).

(** The [switch (subType)]: the clusters found and the algorithm's name. *)
Definition runAlgorithm (subType : string) (data : list loc)
  : Run.M (list (list loc) * string) :=
  if String.eqb subType "DBSCAN" then
    let* h := Run.getHeap in
    let* clusteringResult := Run.liftOption (DBSCAN.dbscan h data 0.5 3) in
    Run.ret (fst clusteringResult, "dbscan"%string)
  else if String.eqb subType "K-means" then
    let* clusteringResult := kmeans data 4 10 in
    Run.ret (fst clusteringResult, "kmeans"%string)
  else if String.eqb subType "Fuzzy C-means" then
    let* clusteringResult := fuzzyKmeans data 4 in
    Run.ret (fst clusteringResult, "fuzzy"%string)
  else Run.throw (JS.Error ("Unsupported clustering algorithm: " ++ subType)).

(** [performClustering(subType, data)]; [data] is the caller's array. *)
Definition performClustering (subType : string) (data : loc) : Run.M Output :=
  Run.tryCatch
    (let* h0 := Run.getHeap in
     let* found := runAlgorithm subType (arr h0 data) in
     let* h := Run.getHeap in
     let processedClusters := processClusters h (fst found) in
     let* r1 := Run.random in
     let* r2 := Run.random in
     let* r3 := Run.random in
     Run.ret
       (mkOutput (subType ++ " clustering completed") (snd found)
          processedClusters
          (mkValidity (0.6 + r1 * 0.3) (0.4 + r2 * 0.4) (200 + r3 * 100))
          (interCluster processedClusters)
          (map (fun cluster => (clusterName cluster, size cluster)) processedClusters)
          (map (magnitudeRow h processedClusters) magnitudeRanges)
          (map (fun cluster => (clusterName cluster, spread h cluster)) processedClusters)))
    (fun error => Run.throw (JS.Error ("Clustering error: " ++ JS.message_of error))).

(** [Number.isFinite] on every number of a processed cluster. *)
Definition finiteCluster (c : Cluster) : bool :=
  JS.isFinite (avgMagnitude c) && JS.isFinite (avgDepth c)
  && JS.isFinite (centroidLat c) && JS.isFinite (centroidLng c).

End Clustering.

(** ** The Omori estimator: [calculateOmoriParameters] (route.ts 488-519) *)

Module Omori.

(** The arithmetic the estimator uses: the operations of JavaScript
    numbers, which are binary64 ([floatArith]). *)
Record Arith (N : Type) := mkArith {
  zero : N;
  add : N -> N -> N;
  sub : N -> N -> N;
  mul : N -> N -> N;
  div : N -> N -> N;
  opp : N -> N;
  ofNat : nat -> N;
  half : N                      (* the literal [0.5] *)
}.
Arguments zero {N}. Arguments add {N}. Arguments sub {N}. Arguments mul {N}.
Arguments div {N}. Arguments opp {N}. Arguments ofNat {N}. Arguments half {N}.

Definition floatArith : Arith float :=
  mkArith float 0 PrimFloat.add PrimFloat.sub PrimFloat.mul PrimFloat.div
    PrimFloat.opp JS.of_nat 0.5.

(** An element of [omoriData]. *)
Record Point (N : Type) := mkPoint {
  day : nat;
  count : nat;
  logDay : N;
  logCount : N
}.
Arguments mkPoint {N}. Arguments day {N}. Arguments count {N}.
Arguments logDay {N}. Arguments logCount {N}.

Record Params (N : Type) := mkParams { p : N; c : N; K : N }.
Arguments mkParams {N}. Arguments p {N}. Arguments c {N}. Arguments K {N}.

Section Estimator.
Context {N : Type} (A : Arith N).

(** [omoriData[0]?.count || 10]. *)
Definition firstCount (omoriData : list (Point N)) : N :=
  match omoriData with
  | first :: _ => if (count first =? 0)%nat then ofNat A 10 else ofNat A (count first)
  | [] => ofNat A 10
  end.

Definition sumX (xValues : list N) : N := fold_left (add A) xValues (zero A).
Definition sumXY (xValues yValues : list N) : N :=
  fold_left (fun sum xy => add A sum (mul A (fst xy) (snd xy)))
    (combine xValues yValues) (zero A).
Definition sumX2 (xValues : list N) : N :=
  fold_left (fun sum x => add A sum (mul A x x)) xValues (zero A).

Definition calculateOmoriParameters (omoriData : list (Point N)) : Params N :=
  let K := firstCount omoriData in
  if (3 <=? length omoriData)%nat then
    let xValues := map logDay omoriData in
    let yValues := map logCount omoriData in
    let n := ofNat A (length xValues) in
    let sx := sumX xValues in
    let sy := sumX yValues in
    let sxy := sumXY xValues yValues in
    let sx2 := sumX2 xValues in
    mkParams
      (div A (opp A (sub A (mul A n sxy) (mul A sx sy)))
             (sub A (mul A n sx2) (mul A sx sx)))
      (half A)
      (firstCount omoriData)
  else mkParams (ofNat A 1) (half A) K.

(** "Create Omori law data points" of [performEDA] (route.ts 378-385).
    [dayBins] lists the entries of the [dayBins] object, which
    [Object.entries] yields in ascending order of the day. *)
Variable Math_log10 : N -> N.

Definition omoriDataOf (dayBins : list (nat * nat)) : list (Point N) :=
  map (fun '(day, count) =>
         mkPoint day count
           (Math_log10 (add A (ofNat A day) (ofNat A 1)))
           (Math_log10 (ofNat A count)))
      dayBins.

End Estimator.

(** Day bins following [n(t) = K / (t + offset)^p] exactly. *)
Definition follows (law_K law_p offset : R) (dayBins : list (nat * nat)) : Prop :=
  Forall (fun '(day, count) =>
            (0 < count)%nat /\ INR count = (law_K / Rpower (INR day + offset) law_p)%R)
         dayBins.

End Omori.

(** ** Example catalogs *)

Module Examples.

(** Three events on a meridian, 0.4 degrees apart, in the caller's array 0. *)
Definition line : Heap :=
  mkHeap [ mkEvent 0 0 0 10 3; mkEvent 60000 0.4 0 10 4; mkEvent 120000 0.8 0 10 5 ]
         [ [0; 1; 2]%nat ].

(** A catalog of one event. *)
Definition single : Heap := mkHeap [ mkEvent 0 10 20 5 4.5 ] [ [0%nat] ].

(** The empty catalog. *)
Definition empty : Heap := mkHeap [] [ [] ].

(** Five events at one place within ten minutes, of magnitudes 6, 3, 3,
    2 and 2. *)
Definition swarm : Heap :=
  mkHeap [ mkEvent 0 10 20 5 6; mkEvent 120000 10 20 5 3; mkEvent 240000 10 20 5 3;
           mkEvent 360000 10 20 5 2; mkEvent 480000 10 20 5 2 ]
         [ [0; 1; 2; 3; 4]%nat ].

(** A random source whose every draw is [x]. *)
Definition always (x : float) : JS.Random := JS.mkRandom (fun _ => x) 0.

(** A stand-in for [Math.pow] where an example needs a closed function:
    exact for the exponent 1, and 1 elsewhere. *)
Definition pow (b e : float) : float := if e =? 1 then b else 1.

(** Day bins with counts [15 / (t + 0.5)] for t = 0, 1, 2: the law
    [K / (t + 0.5)^p] with [K = 15], [p = 1].  [logDay] and [logCount]
    are the binary64 values of [Math.log10] at 1, 2, 3 and at 30, 10, 6. *)
Definition omoriData : list (Omori.Point float) :=
  [ Omori.mkPoint 0 30 0 1.4771212547196624;
    Omori.mkPoint 1 10 0.3010299956639812 1;
    Omori.mkPoint 2 6 0.47712125471966244 0.7781512503836436 ].

(** A [Math.log10] that is known at 1, 10 and 100 only. *)
Definition log10Table (x : float) : float :=
  if x =? 1 then 0
  else if x =? 10 then 1
  else if x =? 100 then 2
  else nan.

End Examples.

(** ** Exploratory analysis: helpers of [performEDA] (route.ts 224-485) *)

Module EDA.

(** [getMagnitudeColor] (route.ts 451-458). *)
Definition getMagnitudeColor (magnitude : float) : string :=
  if magnitude <? 2 then "#1a9850"
  else if magnitude <? 3 then "#91cf60"
  else if magnitude <? 4 then "#d9ef8b"
  else if magnitude <? 5 then "#fee08b"
  else if magnitude <? 6 then "#fc8d59"
  else "#d73027".

(** [getDepthColor] (route.ts 461-467). *)
Definition getDepthColor (depth : float) : string :=
  if depth <? 10 then "#ffffcc"
  else if depth <? 30 then "#a1dab4"
  else if depth <? 70 then "#41b6c4"
  else if depth <? 150 then "#2c7fb8"
  else "#253494".

(** [Math.floor(x)] as a number: [x] itself when it is an integer, a
    zero, infinite or NaN; below 2^53 the largest integer not above [x]. *)
Definition Math_floor (x : float) : float :=
  match Prim2SF x with
  | S754_finite s m e =>
    if (0 <=? e)%Z then x
    else
      let z := Z.shiftl (if s then Z.neg m else Z.pos m) e in
      if (z =? 0)%Z then 0
      else if s then - PrimFloat.of_uint63 (Uint63.of_Z (- z))
      else PrimFloat.of_uint63 (Uint63.of_Z z)
  | _ => x
  end.

(** *** The "Gutenberg Richter Law" case (route.ts 323-355) *)

(** [Math.floor(event.magnitude * 10) / 10]. *)
Definition roundedMag (event : Event) : float := Math_floor (magnitude event * 10) / 10.

(** The object [magnitudeCounts].  A number used as a property key is
    turned into its string, which tells numbers apart except [-0] from
    [0] ("0") and identifies every NaN ("NaN"): [sameKey]. *)
Definition sameKey (a b : float) : bool := (a =? b) || (is_nan a && is_nan b).

(** [acc[roundedMag] = (acc[roundedMag] || 0) + 1]: the properties of
    [acc] with their values, a new one at the end. *)
Fixpoint increment (roundedMag : float) (acc : list (float * nat)) : list (float * nat) :=
  match acc with
  | [] => [(roundedMag, 1%nat)]
  | (key, count) :: rest =>
    if sameKey key roundedMag then (key, S count) :: rest
    else (key, count) :: increment roundedMag rest
  end.

Definition magnitudeCounts (h : Heap) (data : list loc) : list (float * nat) :=
  fold_left (fun acc event => increment (roundedMag (obj h event)) acc) data [].

(** [Number(key)] of the string of [key]: the number itself, [0] for [-0]. *)
Definition keyNumber (key : float) : float := if key =? 0 then 0 else key.

(** [.sort((a, b) => a - b)], as [sortByTime].  (With a NaN among the
    numbers the comparator is not consistent and the order that an
    engine gives is its own choice; the keys other than NaN are
    different numbers.) *)
Fixpoint insertNumber (a : float) (l : list float) : list float :=
  match l with
  | [] => [a]
  | b :: l' => if JS.gt (a - b) 0 then b :: insertNumber a l' else a :: l
  end.

Definition sortNumbers (l : list float) : list float := fold_right insertNumber [] l.

(** [Object.keys(magnitudeCounts).map(Number).sort((a, b) => a - b)]. *)
Definition magnitudesOf (counts : list (float * nat)) : list float :=
  sortNumbers (map (fun property => keyNumber (fst property)) counts).

(** [magnitudeCounts[mag]]; [undefined] for a key that is not there. *)
Definition countOf (counts : list (float * nat)) (mag : float) : option nat :=
  snd <$> find (fun property => sameKey (fst property) mag) counts.

(** [cumulativeCount] as a number. *)
Definition number (z : Z) : float :=
  if (z <? 0)%Z then - PrimFloat.of_uint63 (Uint63.of_Z (- z))
  else PrimFloat.of_uint63 (Uint63.of_Z z).

(** An element of [grData]. *)
Record Row (N : Type) := mkRow {
  magnitude : N;
  count : option nat;
  logN : N
}.
Arguments mkRow {N}. Arguments magnitude {N}. Arguments count {N}. Arguments logN {N}.

Section Table.
Variable Math_log10 : float -> float.

(** [magnitudes.map((mag) => ...)] with the running [cumulativeCount];
    subtracting an [undefined] count would leave NaN ([None]). *)
Fixpoint rowsFrom (counts : list (float * nat)) (magnitudes : list float)
         (cumulativeCount : option Z) : list (Row float) :=
  match magnitudes with
  | [] => []
  | mag :: rest =>
    let count := countOf counts mag in
    let logN := Math_log10 (from_option number nan cumulativeCount) in
    mkRow mag count logN
    :: rowsFrom counts rest
         (c ← cumulativeCount; n ← count; Some (c - Z.of_nat n)%Z)
  end.

Definition grData (h : Heap) (data : list loc) : list (Row float) :=
  let counts := magnitudeCounts h data in
  rowsFrom counts (magnitudesOf counts) (Some (Z.of_nat (length data))).

End Table.

(** [calculateBValue] (route.ts 470-485), on the arithmetic [A]. *)
Section BValue.
Context {N : Type} (A : Omori.Arith N).

Definition calculateBValue (grData : list (Row N)) : N :=
  if (length grData <? 2)%nat then Omori.ofNat A 1
  else
    let xValues := map magnitude grData in
    let yValues := map logN grData in
    let n := Omori.ofNat A (length xValues) in
    let sumX := Omori.sumX A xValues in
    let sumY := Omori.sumX A yValues in
    let sumXY := Omori.sumXY A xValues yValues in
    let sumX2 := Omori.sumX2 A xValues in
    let slope :=
      Omori.div A (Omori.sub A (Omori.mul A n sumXY) (Omori.mul A sumX sumY))
                  (Omori.sub A (Omori.mul A n sumX2) (Omori.mul A sumX sumX)) in
    Omori.opp A slope.

End BValue.

(** What the case returns: [data] and [bValue]. *)
Definition gutenbergRichter (Math_log10 : float -> float) (h : Heap) (data : list loc)
  : list (Row float) * float :=
  let grData := grData Math_log10 h data in
  (grData, calculateBValue Omori.floatArith grData).

End EDA.

(** ** The "Mainshock Highlight" case of [performEDA] (route.ts 242-283) *)

Module Highlight.

(** An element of [highlightedData]: the fields of the event and what
    the case adds. *)
Record Row := mkRow {
  fields : Event;
  isMainshock : bool;
  distanceFromMainshock : float;
  isAftershock : bool;
  isForeshock : bool;
  timeSinceMainshock : float
}.

(** An element of [magnitudeTimeData]: [time], [magnitude],
    [timeSinceMainshock] and [isMainshock]. *)
Definition Point : Type := float * float * float * bool.

(** [.sort((a, b) => a.time - b.time)] on the points. *)
Fixpoint insertPoint (a : Point) (l : list Point) : list Point :=
  match l with
  | [] => [a]
  | b :: l' =>
    if JS.gt (fst (fst (fst a)) - fst (fst (fst b))) 0
    then b :: insertPoint a l'
    else a :: l
  end.

Definition sortPoints (l : list Point) : list Point := fold_right insertPoint [] l.

Section Highlight.
(** [calculateDistance(lat1, lon1, lat2, lon2)] (route.ts 439-448), in km. *)
Variable calculateDistance : float -> float -> float -> float -> float.
Variable h : Heap.

(** [data.reduce((max, event) => ..., data[0])]; [undefined] on the
    empty catalog. *)
Definition mainshockOf (data : list loc) : option loc :=
  match data with
  | [] => None
  | first :: _ => Some (largestFrom h first data)
  end.

Definition highlight (mainshock event : loc) : Row :=
  let distanceFromMainshock :=
    calculateDistance (latitude (obj h event)) (longitude (obj h event))
                      (latitude (obj h mainshock)) (longitude (obj h mainshock)) in
  mkRow (obj h event)
        (Nat.eqb event mainshock)
        distanceFromMainshock
        (JS.gt (time (obj h event)) (time (obj h mainshock)) && (distanceFromMainshock <? 100))
        ((time (obj h event) <? time (obj h mainshock)) && (distanceFromMainshock <? 100))
        ((time (obj h event) - time (obj h mainshock)) / (1000 * 60 * 60 * 24)).

Definition magnitudeTimeData (mainshock : loc) (highlightedData : list Row) : list Point :=
  sortPoints
    (map (fun event => (time (fields event), magnitude (fields event),
                        timeSinceMainshock event, isMainshock event))
         (List.filter (fun event => JS.ge (time (fields event)) (time (obj h mainshock)))
                      highlightedData)).

(** What the case returns: [data], [mainshock] and [magnitudeTimeData].
    On the empty catalog no callback runs. *)
Definition mainshockHighlight (data : list loc) : list Row * option loc * list Point :=
  match mainshockOf data with
  | None => ([], None, [])
  | Some mainshock =>
    let highlightedData := map (highlight mainshock) data in
    (highlightedData, Some mainshock, magnitudeTimeData mainshock highlightedData)
  end.

End Highlight.

End Highlight.

(** ** Magnitude prediction: [performMagnitudePrediction] (route.ts 521-712) *)

Module PredictionResult.

Record Metrics := mkMetrics { mae : float; rmse : float; r2 : float; mape : float }.

(** An element of [predictions]. *)
Record Prediction := mkPrediction {
  id : nat;
  time : float;
  actual : float;
  predicted : float;
  error : float;
  lowerBound : float;
  upperBound : float;
  depth : float;
  latitude : float;
  longitude : float
}.

Record ResidualStats := mkResidualStats {
  mean : float;
  std : float;
  min : float;
  max : float
}.

Record Output := mkOutput {
  message : string;
  algorithm : string;
  metrics : Metrics;
  featureImportance : list (string * float);
  residualStats : ResidualStats;
  hyperparameters : list (string * string);
  predictions : list Prediction
}.

End PredictionResult.

Module Prediction.

(** [Math.min(a, b)] and [Math.max(a, b)]: NaN when an operand is NaN,
    and [-0] is below [+0]. *)
Definition isNegativeZero (x : float) : bool :=
  match Prim2SF x with S754_zero true => true | _ => false end.

Definition min2 (a b : float) : float :=
  if is_nan a || is_nan b then nan
  else if a <? b then a
  else if b <? a then b
  else if isNegativeZero a then a else b.

Definition max2 (a b : float) : float :=
  if is_nan a || is_nan b then nan
  else if a <? b then b
  else if b <? a then a
  else if isNegativeZero a then b else a.

(** [Math.min(...l)] and [Math.max(...l)]. *)
Definition Math_min (l : list float) : float := fold_left min2 l infinity.
Definition Math_max (l : list float) : float := fold_left max2 l neg_infinity.

(** [l.reduce((sum, x) => sum + x, 0)]. *)
Definition total (l : list float) : float := fold_left PrimFloat.add l 0.

(** [x[j]]; [undefined], NaN in arithmetic, out of range. *)
Definition at_ (x : list float) (j : nat) : float := nth j x nan.

(** [l.reduce((sum, coef, j) => sum + coef * x[j], 0)]. *)
Definition dot (l x : list float) : float :=
  fold_left (fun sum cj => sum + fst cj * at_ x (snd cj)) (combine l (seq 0 (length l))) 0.

Section Predict.
(** [new Date(time).getHours()], in the time zone of the server. *)
Variable getHours : float -> float.
Variable Math_pow : float -> float -> float.

Definition extractFeatures (event : Event) : list float :=
  [depth event; latitude event; longitude event; getHours (time event)].

(** [linearRegression(xTrain, yTrain, xTest)]; [xTrain[0].map] is a
    [TypeError] when [xTrain] is empty. *)
Definition linearRegression (xTrain : list (list float)) (yTrain : list float)
           (xTest : list (list float)) : JS.Exception + list float :=
  match xTrain with
  | [] => inl (JS.TypeError "Cannot read properties of undefined (reading 'map')")
  | first :: _ =>
    let xMeans :=
      map (fun j => fold_left (fun sum x => sum + at_ x j) xTrain 0
                    / JS.of_nat (length xTrain))
          (seq 0 (length first)) in
    let yMean := total yTrain / JS.of_nat (length yTrain) in
    let coefficients :=
      map (fun j =>
             let numerator :=
               fold_left (fun sum xy => sum + (at_ (fst xy) j - at_ xMeans j) * (snd xy - yMean))
                         (combine xTrain yTrain) 0 in
             let denominator :=
               fold_left (fun sum x => sum + Math_pow (at_ x j - at_ xMeans j) 2) xTrain 0 in
             numerator / denominator)
          (seq 0 (length xMeans)) in
    let intercept := yMean - dot coefficients xMeans in
    inr (map (fun x => intercept + dot coefficients x) xTest)
  end.

(** The first [switch]: the predictions and [algorithmName]. *)
Definition predict (subType : string) (xTrain : list (list float)) (yTrain : list float)
           (xTest : list (list float)) : JS.Exception + (list float * string) :=
  let simulated (f : float -> float) (name : string) :=
    match linearRegression xTrain yTrain xTest with
    | inl e => inl e
    | inr l => inr (map f l, name)
    end in
  if String.eqb subType "Linear Regression Prediction" then
    match linearRegression xTrain yTrain xTest with
    | inl e => inl e
    | inr l => inr (l, "linear"%string)
    end
  else if String.eqb subType "SVM Prediction" then
    simulated (fun p => p * 0.95 + 0.2) "svm"%string
  else if String.eqb subType "Naive Bayes Prediction" then
    simulated (fun p => p * 0.9 + 0.3) "naive"%string
  else if String.eqb subType "Random Forest Prediction" then
    simulated (fun p => p * 1.05 - 0.1) "random"%string
  else if String.eqb subType "LSTM" then
    simulated (fun p => p * 1.02 - 0.05) "lstm"%string
  else inl (JS.Error ("Unsupported prediction algorithm: " ++ subType)).

(** The second [switch], on [algorithmName]. *)
Definition hyperparametersOf (algorithmName : string) : list (string * string) :=
  (if String.eqb algorithmName "linear" then
     [("Fit Intercept", "True"); ("Normalize", "False"); ("Copy X", "True");
      ("N Jobs", "None"); ("Positive", "False")]
   else if String.eqb algorithmName "svm" then
     [("Kernel", "RBF"); ("C", "1.0"); ("Epsilon", "0.1"); ("Gamma", "Scale");
      ("Shrinking", "True")]
   else if String.eqb algorithmName "naive" then
     [("Var Smoothing", "1e-9"); ("Priors", "None")]
   else if String.eqb algorithmName "random" then
     [("N Estimators", "100"); ("Max Depth", "None"); ("Min Samples Split", "2");
      ("Min Samples Leaf", "1"); ("Bootstrap", "True")]
   else if String.eqb algorithmName "lstm" then
     [("Units", "64"); ("Activation", "ReLU"); ("Recurrent Activation", "Sigmoid");
      ("Dropout", "0.2"); ("Recurrent Dropout", "0.2"); ("Batch Size", "32");
      ("Epochs", "100")]
   else [])%string.

Definition featureImportance : list (string * float) :=
  [("Depth", 0.35); ("Past Magnitudes", 0.25); ("Latitude", 0.2); ("Longitude", 0.15);
   ("Time", 0.05)]%string.

(** [Math.floor(sortedData.length * 0.7)]; the product is a finite
    number that is not negative. *)
Definition splitIndex (length : nat) : nat :=
  match JS.Math_floor (JS.of_nat length * 0.7) with
  | Some z => Z.to_nat z
  | None => 0%nat
  end.

(** [testingData.map((event, i) => ...)], [predictions[i]] and
    [errors[i]] being [undefined] past the end. *)
Fixpoint predictionResults (h : Heap) (testingData : list loc) (i : nat)
         (predictions errors : list float) (rmse : float)
  : list PredictionResult.Prediction :=
  match testingData with
  | [] => []
  | event :: rest =>
    PredictionResult.mkPrediction (i + 1)
      (time (obj h event)) (magnitude (obj h event)) (at_ predictions i) (at_ errors i)
      (at_ predictions i - 1.96 * (rmse / 2))
      (at_ predictions i + 1.96 * (rmse / 2))
      (depth (obj h event)) (latitude (obj h event)) (longitude (obj h event))
    :: predictionResults h rest (S i) predictions errors rmse
  end.

(** [performMagnitudePrediction(subType, data)]; [data] is the caller's
    array. *)
Definition performMagnitudePrediction (subType : string) (data : loc)
  : Run.M PredictionResult.Output :=
  let* h0 := Run.getHeap in
  let* sorted := Run.allocArr (arr h0 data) in
  let* h1 := Run.getHeap in
  let* _ := Run.storeArr sorted (sortByTime h1 (arr h1 sorted)) in
  let* h := Run.getHeap in
  let sortedData := arr h sorted in
  let splitIndex := splitIndex (length sortedData) in
  let trainingData := take splitIndex sortedData in
  let testingData := drop splitIndex sortedData in
  let xTrain := map (fun event => extractFeatures (obj h event)) trainingData in
  let yTrain := map (fun event => magnitude (obj h event)) trainingData in
  let xTest := map (fun event => extractFeatures (obj h event)) testingData in
  let yTest := map (fun event => magnitude (obj h event)) testingData in
  match predict subType xTrain yTrain xTest with
  | inl e => Run.throw e
  | inr (predictions, algorithmName) =>
    let errors :=
      map (fun pi => fst pi - at_ yTest (snd pi))
          (combine predictions (seq 0 (length predictions))) in
    let absErrors := map PrimFloat.abs errors in
    let squaredErrors := map (fun e => e * e) errors in
    let mae := total absErrors / JS.of_nat (length absErrors) in
    let rmse := PrimFloat.sqrt (total squaredErrors / JS.of_nat (length squaredErrors)) in
    let yMean := total yTest / JS.of_nat (length yTest) in
    let totalSumSquares := fold_left (fun sum y => sum + Math_pow (y - yMean) 2) yTest 0 in
    let residualSumSquares := total squaredErrors in
    let r2 := 1 - residualSumSquares / totalSumSquares in
    let mape :=
      fold_left (fun sum ei => sum + fst ei / PrimFloat.abs (at_ yTest (snd ei)))
                (combine absErrors (seq 0 (length absErrors))) 0
      / JS.of_nat (length absErrors) * 100 in
    let residualStats :=
      PredictionResult.mkResidualStats
        (total errors / JS.of_nat (length errors))
        (PrimFloat.sqrt
           (fold_left
              (fun sum e => sum + Math_pow (e - total errors / JS.of_nat (length errors)) 2) errors 0
            / JS.of_nat (length errors)))
        (Math_min errors)
        (Math_max errors) in
    Run.ret
      (PredictionResult.mkOutput (subType ++ " completed") algorithmName
         (PredictionResult.mkMetrics mae rmse r2 mape)
         featureImportance residualStats (hyperparametersOf algorithmName)
         (predictionResults h testingData 0 predictions errors rmse))
  end.

End Predict.

End Prediction.

(** * Properties *)

(** ** References and lists *)

Lemma has_spec (s : list loc) (r : loc) : has s r = true <-> r ∈ s.
Proof.
  unfold has. rewrite existsb_exists. split.
  - intros (x & Hin & Heq). apply Nat.eqb_eq in Heq. subst x.
    now apply list_elem_of_In.
  - intros Hin. exists r. split; [now apply list_elem_of_In | apply Nat.eqb_refl].
Qed.

Lemma has_false (s : list loc) (r : loc) : has s r = false <-> r ∉ s.
Proof.
  rewrite <- has_spec. destruct (has s r); split; congruence.
Qed.

Lemma elem_of_filter_bool {A} (f : A -> bool) (l : list A) (x : A) :
  x ∈ List.filter f l <-> x ∈ l /\ f x = true.
Proof. rewrite !list_elem_of_In. apply filter_In. Qed.

Lemma NoDup_filter_bool {A} (f : A -> bool) (l : list A) :
  NoDup l -> NoDup (List.filter f l).
Proof.
  induction 1 as [|x l Hx Hl IH]; simpl; [constructor|].
  destruct (f x); [|assumption].
  constructor; [|assumption]. rewrite elem_of_filter_bool. tauto.
Qed.

Lemma NoDup_snoc (l : list loc) (x : loc) : NoDup l -> x ∉ l -> NoDup (l ++ [x]).
Proof.
  intros Hl Hx. apply NoDup_app. split; [assumption|]. split; [|apply NoDup_singleton].
  intros y Hy Hy'. apply list_elem_of_singleton in Hy'. now subst y.
Qed.

(** Two duplicate-free lists with no common element that together hold
    exactly the elements of a third are a partition of it. *)
Lemma partition_Permutation (ms afs events : list loc) :
  NoDup ms -> NoDup afs -> NoDup events ->
  (forall x, x ∈ ms -> x ∉ afs) ->
  (forall x, x ∈ ms \/ x ∈ afs <-> x ∈ events) ->
  Permutation (ms ++ afs) events.
Proof.
  intros Hms Hafs Hev Hdisj Hcover.
  apply NoDup_Permutation; [|assumption|].
  - apply NoDup_app. auto.
  - intros x. rewrite elem_of_app. apply Hcover.
Qed.

(** ** The window strategies: nnd, gruenthal, reasenberg *)

Module WindowFacts.
Section Window.
Variable admits : loc -> loc -> bool.

Lemma sweepLater_spec (test : loc -> bool) (later afs : list loc) :
  exists added,
    Declustering.sweepLater test later afs = afs ++ added
    /\ NoDup added
    /\ forall x, x ∈ added -> x ∈ later /\ x ∉ afs.
Proof.
  unfold Declustering.sweepLater. revert afs.
  induction later as [|a later IH]; intros afs; simpl.
  - exists []. rewrite app_nil_r. split; [reflexivity|]. split; [constructor|].
    intros x Hx. inversion Hx.
  - destruct (has afs a) eqn:Hhas.
    + destruct (IH afs) as (added & -> & Hnd & Hin).
      exists added. split; [reflexivity|]. split; [assumption|].
      intros x Hx. destruct (Hin x Hx). split; [now right | assumption].
    + apply has_false in Hhas. destruct (test a).
      * destruct (IH (afs ++ [a])) as (added & -> & Hnd & Hin).
        exists (a :: added). rewrite <- app_assoc. split; [reflexivity|].
        split.
        { constructor; [|assumption]. intros Ha. destruct (Hin a Ha) as [_ Hn].
          apply Hn. set_solver. }
        { intros x Hx. apply elem_of_cons in Hx as [->|Hx].
          - split; [now left | assumption].
          - destruct (Hin x Hx) as [Hl Hn]. split; [now right | set_solver]. }
      * destruct (IH afs) as (added & -> & Hnd & Hin).
        exists added. split; [reflexivity|]. split; [assumption|].
        intros x Hx. destruct (Hin x Hx). split; [now right | assumption].
Qed.

(** The loop keeps [mainshocks] and [aftershocks] duplicate-free and
    disjoint, and ends with every event in one of them. *)
Lemma windowLoop_spec (events ms afs : list loc) :
  NoDup events -> NoDup ms -> NoDup afs ->
  (forall x, x ∈ ms -> x ∉ events /\ x ∉ afs) ->
  let r := Declustering.windowLoop admits events ms afs in
  NoDup (fst r) /\ NoDup (snd r)
  /\ (forall x, x ∈ fst r -> x ∉ snd r)
  /\ (forall x, x ∈ fst r \/ x ∈ snd r <-> x ∈ ms \/ x ∈ afs \/ x ∈ events).
Proof.
  revert ms afs.
  induction events as [|event later IH]; intros ms afs Hev Hms Hafs Hsep; simpl.
  - repeat split; try assumption.
    + intros x Hx. now destruct (Hsep x Hx).
    + set_solver.
    + set_solver.
  - apply NoDup_cons in Hev as [Hnew Hlater].
    destruct (has afs event) eqn:Hhas.
    + apply has_spec in Hhas.
      destruct (IH ms afs) as (H1 & H2 & H3 & H4); try assumption.
      { intros x Hx. destruct (Hsep x Hx). set_solver. }
      repeat split; try assumption; intros Hx.
      * apply H4 in Hx. set_solver.
      * apply H4. set_solver.
    + apply has_false in Hhas.
      destruct (sweepLater_spec (admits event) later afs) as (added & Heq & Hnd & Hadd).
      rewrite Heq.
      destruct (IH (ms ++ [event]) (afs ++ added)) as (H1 & H2 & H3 & H4);
        try assumption.
      { apply NoDup_snoc; [assumption|]. intros Hx.
        destruct (Hsep event Hx). set_solver. }
      { apply NoDup_app. split; [assumption|]. split; [|assumption].
        intros x Hx Hx'. destruct (Hadd x Hx'). contradiction. }
      { intros x Hx. apply elem_of_app in Hx as [Hx|Hx].
        - destruct (Hsep x Hx) as [Ha Hb]. split; [set_solver|].
          intros Hc. apply elem_of_app in Hc as [Hc|Hc]; [contradiction|].
          destruct (Hadd x Hc). set_solver.
        - apply list_elem_of_singleton in Hx. subst x. split; [assumption|].
          intros Hc. apply elem_of_app in Hc as [Hc|Hc]; [contradiction|].
          destruct (Hadd event Hc). contradiction. }
      repeat split; try assumption; intros Hx.
      * apply H4 in Hx. rewrite !elem_of_app in Hx.
        destruct Hx as [[Hx|Hx]|[[Hx|Hx]|Hx]]; [set_solver..| |set_solver].
        destruct (Hadd x Hx). set_solver.
      * apply H4. set_solver.
Qed.

Lemma windowLoop_partition (events : list loc) :
  NoDup events ->
  let r := Declustering.windowLoop admits events [] [] in
  Permutation (fst r ++ snd r) events /\ (forall x, x ∈ fst r -> x ∉ snd r).
Proof.
  intros Hev r.
  destruct (windowLoop_spec events [] []) as (H1 & H2 & H3 & H4);
    [assumption | constructor | constructor | intros x Hx; inversion Hx |].
  fold r in H1, H2, H3, H4. split; [|assumption].
  apply partition_Permutation; try assumption.
  intros x. rewrite H4. set_solver.
Qed.

(** The first event of the catalog is always a mainshock. *)
Lemma windowLoop_mainshocks_grow (events ms afs : list loc) :
  exists more, fst (Declustering.windowLoop admits events ms afs) = ms ++ more.
Proof.
  revert ms afs. induction events as [|event later IH]; intros ms afs; simpl.
  - exists []. now rewrite app_nil_r.
  - destruct (has afs event).
    + apply IH.
    + destruct (IH (ms ++ [event]) (Declustering.sweepLater (admits event) later afs))
        as (more & ->).
      exists (event :: more). now rewrite <- app_assoc.
Qed.

Lemma windowLoop_nonempty (event : loc) (later : list loc) :
  fst (Declustering.windowLoop admits (event :: later) [] []) <> [].
Proof.
  simpl.
  destruct (windowLoop_mainshocks_grow later [event]
              (Declustering.sweepLater (admits event) later [])) as (more & ->).
  discriminate.
Qed.

End Window.
End WindowFacts.

(** ** DBSCAN *)

Module DbscanFacts.
Section Dbscan.
Variable h : Heap.
Variable points : list loc.
Variable eps : float.
Variable minPts : nat.

Abbreviation getNeighbors := (DBSCAN.getNeighbors h points eps).
Abbreviation expand := (DBSCAN.expand h points eps minPts).
Abbreviation scan := (DBSCAN.scan h points eps minPts).

Lemma getNeighbors_points (p x : loc) : x ∈ getNeighbors p -> x ∈ points.
Proof. unfold DBSCAN.getNeighbors. rewrite elem_of_filter_bool. tauto. Qed.

Lemma getNeighbors_length (p : loc) : length (getNeighbors p) <= length points.
Proof. apply filter_length_le. Qed.

(** The points not yet visited, counted with repetitions. *)
Definition unvisited (visited : list loc) : nat :=
  length (List.filter (fun p => negb (has visited p)) points).

Lemma unvisited_le (visited : list loc) : unvisited visited <= length points.
Proof. apply filter_length_le. Qed.

Lemma filter_length_lt {A} (f g : A -> bool) (l : list A) (a : A) :
  (forall x, g x = true -> f x = true) ->
  a ∈ l -> f a = true -> g a = false ->
  length (List.filter g l) < length (List.filter f l).
Proof.
  intros Hgf. induction l as [|x l IH]; intros Ha Hfa Hga.
  - inversion Ha.
  - assert (Hle : length (List.filter g l) <= length (List.filter f l)).
    { clear IH Ha. induction l as [|y l IHl]; simpl; [lia|].
      destruct (g y) eqn:Hg.
      - rewrite (Hgf y Hg). simpl. lia.
      - destruct (f y); simpl; lia. }
    apply elem_of_cons in Ha as [<-|Ha]; simpl.
    + rewrite Hfa, Hga. simpl. lia.
    + specialize (IH Ha Hfa Hga).
      destruct (g x) eqn:Hg.
      * rewrite (Hgf x Hg). simpl. lia.
      * destruct (f x); simpl; lia.
Qed.

Lemma unvisited_visit (visited : list loc) (current : loc) :
  current ∈ points -> current ∉ visited ->
  unvisited (visited ++ [current]) < unvisited visited.
Proof.
  intros Hin Hnew. unfold unvisited.
  apply filter_length_lt with (a := current); try assumption.
  - intros x Hx. apply negb_true_iff in Hx. apply negb_true_iff.
    apply has_false in Hx. apply has_false. set_solver.
  - apply negb_true_iff. now apply has_false.
  - apply negb_false_iff. apply has_spec. set_solver.
Qed.

(** The [while] loop ends within its budget. *)
Lemma expand_total (fuel : nat) (visited cluster queue : list loc) :
  (forall x, x ∈ queue -> x ∈ points) ->
  length queue + unvisited visited * length points < fuel ->
  exists r, expand fuel visited cluster queue = Some r.
Proof.
  revert visited cluster queue.
  induction fuel as [|fuel IH]; intros visited cluster queue Hq Hfuel; [lia|].
  simpl. destruct queue as [|current rest]; [eauto|].
  simpl in Hfuel.
  destruct (has visited current) eqn:Hhas.
  - apply IH; [set_solver | lia].
  - apply has_false in Hhas.
    assert (Hcur : current ∈ points) by (apply Hq; now left).
    pose proof (unvisited_visit visited current Hcur Hhas) as Hlt.
    apply IH.
    + destruct (minPts <=? length (getNeighbors current))%nat; [|set_solver].
      intros x Hx. apply elem_of_app in Hx as [Hx|Hx]; [set_solver|].
      apply elem_of_filter_bool in Hx as [Hx _].
      now apply getNeighbors_points in Hx.
    + assert (Hlen : length
                (if (minPts <=? length (getNeighbors current))%nat
                 then rest ++ List.filter
                                (fun n => negb (has (visited ++ [current]) n))
                                (getNeighbors current)
                 else rest) <= length rest + length points).
      { destruct (minPts <=? length (getNeighbors current))%nat; [|lia].
        rewrite length_app.
        pose proof (filter_length_le
                      (fun n => negb (has (visited ++ [current]) n))
                      (getNeighbors current)).
        pose proof (getNeighbors_length current). lia. }
      nia.
Qed.

(** What the loop adds to [visited] it adds to the cluster, and it
    visits no event twice. *)
Lemma expand_spec (fuel : nat) (visited cluster queue v c : list loc) :
  expand fuel visited cluster queue = Some (v, c) ->
  NoDup visited ->
  (forall x, x ∈ queue -> x ∈ points) ->
  exists added,
    v = visited ++ added /\ c = cluster ++ added
    /\ NoDup (visited ++ added) /\ (forall x, x ∈ added -> x ∈ points).
Proof.
  revert visited cluster queue.
  induction fuel as [|fuel IH]; intros visited cluster queue Hrun Hnd Hq;
    [discriminate|].
  simpl in Hrun. destruct queue as [|current rest].
  - inversion Hrun; subst. exists []. rewrite !app_nil_r.
    repeat split; assumption.
  - destruct (has visited current) eqn:Hhas.
    + apply (IH _ _ _ Hrun Hnd). set_solver.
    + apply has_false in Hhas.
      apply IH in Hrun as (added & -> & -> & Hnd' & Hin).
      * exists (current :: added). rewrite <- !app_assoc in *. simpl in *.
        repeat split; try assumption.
        intros x Hx. apply elem_of_cons in Hx as [->|Hx]; [|now apply Hin].
        apply Hq. now left.
      * now apply NoDup_snoc.
      * destruct (minPts <=? length (getNeighbors current))%nat; [|set_solver].
        intros x Hx. apply elem_of_app in Hx as [Hx|Hx]; [set_solver|].
        apply elem_of_filter_bool in Hx as [Hx _].
        now apply getNeighbors_points in Hx.
Qed.

(** A cluster starts from an event with at least [minPts] neighbours. *)
Definition seeded (cluster : list loc) : Prop :=
  exists seed rest,
    cluster = seed :: rest /\ minPts <= length (getNeighbors seed).

Record Inv (st : DBSCAN.State) : Prop := mkInv {
  inv_nodup : NoDup (DBSCAN.visited st);
  inv_perm : Permutation (DBSCAN.visited st)
               (DBSCAN.noise st ++ concat (DBSCAN.clusters st));
  inv_points : forall x, x ∈ DBSCAN.visited st -> x ∈ points;
  inv_seeded : Forall seeded (DBSCAN.clusters st)
}.

Lemma scan_spec (todo : list loc) (st : DBSCAN.State) :
  Inv st -> (forall x, x ∈ todo -> x ∈ points) ->
  exists st',
    scan todo st = Some st' /\ Inv st'
    /\ (forall x, x ∈ todo \/ x ∈ DBSCAN.visited st -> x ∈ DBSCAN.visited st').
Proof.
  revert st. induction todo as [|point todo IH]; intros st HI Htodo;
    cbn [DBSCAN.scan].
  - exists st. split; [reflexivity|]. split; [assumption|].
    intros x [Hx|Hx]; [inversion Hx | assumption].
  - assert (Htodo' : forall x, x ∈ todo -> x ∈ points) by set_solver.
    assert (Hpoint : point ∈ points) by set_solver.
    destruct (has (DBSCAN.visited st) point) eqn:Hhas.
    + apply has_spec in Hhas.
      destruct (IH st HI Htodo') as (st' & Hrun & HI' & Hcov).
      exists st'. split; [assumption|]. split; [assumption|]. set_solver.
    + apply has_false in Hhas. destruct HI as [Hnd Hperm Hin Hseed].
      assert (Hnd1 : NoDup (DBSCAN.visited st ++ [point])).
      { now apply NoDup_snoc. }
      destruct (length (getNeighbors point) <? minPts)%nat eqn:Hfew.
      * destruct (IH (DBSCAN.mkState (DBSCAN.visited st ++ [point])
                        (DBSCAN.clusters st) (DBSCAN.noise st ++ [point])))
          as (st' & Hrun & HI' & Hcov); [|assumption|].
        { constructor; simpl; try assumption.
          - rewrite Hperm. rewrite <- !app_assoc.
            apply Permutation_app_head. apply Permutation_app_comm.
          - set_solver. }
        exists st'. split; [assumption|]. split; [assumption|].
        simpl in Hcov. set_solver.
      * apply Nat.ltb_ge in Hfew.
        destruct (expand_total (DBSCAN.budget points)
                    (DBSCAN.visited st ++ [point]) [point] (getNeighbors point))
          as ([v c] & Hexp).
        { intros x. apply getNeighbors_points. }
        { unfold DBSCAN.budget.
          pose proof (getNeighbors_length point).
          pose proof (unvisited_le (DBSCAN.visited st ++ [point])). nia. }
        rewrite Hexp.
        apply expand_spec in Hexp as (added & -> & -> & Hnd2 & Hadd);
          [|assumption|intros x; apply getNeighbors_points].
        destruct (IH (DBSCAN.mkState ((DBSCAN.visited st ++ [point]) ++ added)
                        (DBSCAN.clusters st ++ [[point] ++ added]) (DBSCAN.noise st)))
          as (st' & Hrun & HI' & Hcov); [|assumption|].
        { constructor; simpl; try assumption.
          - rewrite concat_app. simpl. rewrite app_nil_r.
            rewrite Hperm. rewrite <- !app_assoc. reflexivity.
          - intros x Hx. rewrite !elem_of_app in Hx.
            destruct Hx as [[Hx|Hx]|Hx]; [now apply Hin | set_solver | now apply Hadd].
          - apply Forall_app. split; [assumption|]. constructor; [|constructor].
            exists point, added. split; [reflexivity | assumption]. }
        exists st'. split; [assumption|]. split; [assumption|].
        simpl in Hcov. set_solver.
Qed.

(** [dbscan] returns: every event lands in the noise or in exactly one
    cluster, and every cluster is seeded. *)
Lemma dbscan_spec :
  exists clusters noise,
    DBSCAN.dbscan h points eps minPts = Some (clusters, noise)
    /\ NoDup (noise ++ concat clusters)
    /\ (forall x, x ∈ noise ++ concat clusters <-> x ∈ points)
    /\ Forall seeded clusters.
Proof.
  unfold DBSCAN.dbscan.
  destruct (scan_spec points (DBSCAN.mkState [] [] []))
    as (st & -> & [Hnd Hperm Hin Hseed] & Hcov).
  { constructor; simpl; [constructor | reflexivity | | constructor].
    intros x Hx. inversion Hx. }
  { auto. }
  exists (DBSCAN.clusters st), (DBSCAN.noise st).
  split; [reflexivity|]. split; [now rewrite <- Hperm|]. split; [|assumption].
  intros x. rewrite <- Hperm. split; [apply Hin | intros Hx; apply Hcov; now left].
Qed.

End Dbscan.
End DbscanFacts.

(** ** The ordering of binary64 numbers *)

Lemma SFltb_chain (a b c : spec_float) :
  SFltb a b = true -> SFltb a c = false -> SFltb b c = false.
Proof.
  unfold SFltb.
  destruct a as [sa|sa| |sa ma ea], b as [sb|sb| |sb mb eb], c as [sc|sc| |sc mc ec];
    simpl; try discriminate; try reflexivity;
    repeat match goal with s : bool |- _ => destruct s end;
    simpl; try discriminate; try reflexivity;
    repeat match goal with
      | |- context [Z.compare ?x ?y] => destruct (Z.compare_spec x y); subst
      | |- context [Pos.compare_cont Eq ?x ?y] =>
          change (Pos.compare_cont Eq x y) with (Pos.compare x y);
          destruct (Pos.compare_spec x y); subst
      | |- context [Pos.compare ?x ?y] => destruct (Pos.compare_spec x y); subst
      end; simpl; try discriminate; try reflexivity; try lia.
Qed.

(** If [a < b] and [a] is not below [c], then [b] is not below [c]. *)
Lemma ltb_chain (a b c : float) :
  (a <? b) = true -> (a <? c) = false -> (b <? c) = false.
Proof. rewrite !ltb_spec. apply SFltb_chain. Qed.

Lemma ltb_irrefl (a : float) : (a <? a) = false.
Proof.
  rewrite ltb_spec. unfold SFltb.
  destruct (Prim2SF a) as [s|s| |s m e]; simpl; try reflexivity;
    destruct s; simpl; try reflexivity;
    rewrite Z.compare_refl;
    change (Pos.compare_cont Eq m m) with (Pos.compare m m);
    now rewrite Pos.compare_refl.
Qed.

(** ** The largest event of a list *)

Section Largest.
Variable h : Heap.

Lemma largestFrom_elem (first : loc) (l : list loc) :
  largestFrom h first l = first \/ largestFrom h first l ∈ l.
Proof.
  unfold largestFrom. revert first.
  induction l as [|e l IH]; intros first; simpl; [now left|].
  destruct (JS.gt (magnitude (obj h e)) (magnitude (obj h first))).
  - destruct (IH e) as [->|Hin]; right; [now left | now right].
  - destruct (IH first) as [->|Hin]; [now left | right; now right].
Qed.

(** No event of the list, nor the initial one, has a magnitude above
    the result's. *)
Lemma largestFrom_max (first : loc) (l : list loc) :
  JS.gt (magnitude (obj h first)) (magnitude (obj h (largestFrom h first l))) = false
  /\ forall e, e ∈ l ->
       JS.gt (magnitude (obj h e)) (magnitude (obj h (largestFrom h first l))) = false.
Proof.
  unfold largestFrom, JS.gt.
  assert (Hgen : forall l first seen,
    (forall e, e ∈ seen -> (magnitude (obj h first) <? magnitude (obj h e)) = false) ->
    forall e, e ∈ seen ++ l ->
      let m := fold_left
        (fun max e => if magnitude (obj h max) <? magnitude (obj h e) then e else max)
        l first in
      (magnitude (obj h m) <? magnitude (obj h e)) = false).
  { clear first l. induction l as [|x l IH]; intros first seen Hseen e He; simpl.
    - rewrite app_nil_r in He. now apply Hseen.
    - destruct (magnitude (obj h first) <? magnitude (obj h x)) eqn:Hlt.
      + apply (IH x (seen ++ [x])); [|rewrite <- app_assoc; exact He].
        intros y Hy. apply elem_of_app in Hy as [Hy|Hy].
        * eapply ltb_chain; [exact Hlt | now apply Hseen].
        * apply list_elem_of_singleton in Hy. subst y. apply ltb_irrefl.
      + apply (IH first (seen ++ [x])); [|rewrite <- app_assoc; exact He].
        intros y Hy. apply elem_of_app in Hy as [Hy|Hy]; [now apply Hseen|].
        apply list_elem_of_singleton in Hy. now subst y. }
  split.
  - apply (Hgen l first [first]); [|now left].
    intros e He. apply list_elem_of_singleton in He. subst e. apply ltb_irrefl.
  - intros e He. apply (Hgen l first []); [intros y Hy; inversion Hy | exact He].
Qed.

End Largest.

(** ** Sorting by time *)

Lemma insertByTime_Permutation (h : Heap) (a : loc) (l : list loc) :
  Permutation (insertByTime h a l) (a :: l).
Proof.
  induction l as [|b l IH]; simpl; [reflexivity|].
  destruct (JS.gt (time (obj h a) - time (obj h b)) 0); [|reflexivity].
  rewrite IH. apply perm_swap.
Qed.

Lemma sortByTime_Permutation (h : Heap) (l : list loc) :
  Permutation (sortByTime h l) l.
Proof.
  induction l as [|a l IH]; simpl; [reflexivity|].
  rewrite insertByTime_Permutation. now constructor.
Qed.

(** ** [decluster] *)

Module DeclusterFacts.
Section Decluster.
Variable Math_pow : float -> float -> float.
Variable h : Heap.

Lemma pick_Permutation (m : loc) (cluster : list loc) :
  NoDup cluster -> m ∈ cluster ->
  Permutation (m :: List.filter (fun event => negb (Nat.eqb event m)) cluster) cluster.
Proof.
  induction 1 as [|x l Hx Hl IH]; intros Hm; [inversion Hm|].
  simpl. destruct (Nat.eqb x m) eqn:Heq; simpl.
  - apply Nat.eqb_eq in Heq. subst x. constructor.
    assert (Hall : List.filter (fun event => negb (Nat.eqb event m)) l = l).
    { clear IH Hl Hm. induction l as [|y l IHl]; simpl; [reflexivity|].
      destruct (Nat.eqb y m) eqn:Hy; simpl.
      - apply Nat.eqb_eq in Hy. subst y. exfalso. apply Hx. now left.
      - f_equal. apply IHl. intros Hin. apply Hx. now right. }
    now rewrite Hall.
  - apply Nat.eqb_neq in Heq. apply elem_of_cons in Hm as [->|Hm]; [congruence|].
    rewrite perm_swap. constructor. now apply IH.
Qed.

(** [clusters.forEach]: one mainshock for each cluster, the rest of
    the cluster as aftershocks. *)
Lemma splitClusters_spec (clusters : list (list loc)) (ms afs : list loc) :
  Forall (fun cluster => cluster <> []) clusters ->
  exists picks rests,
    fold_left (Declustering.splitCluster h) clusters (ms, afs) = (ms ++ picks, afs ++ rests)
    /\ length picks = length clusters
    /\ (NoDup (concat clusters) -> Permutation (picks ++ rests) (concat clusters)).
Proof.
  revert ms afs. induction clusters as [|cluster clusters IH]; intros ms afs Hne; simpl.
  - exists [], []. rewrite !app_nil_r. repeat split; reflexivity.
  - apply Forall_cons in Hne as [Hc Hne].
    destruct cluster as [|first rest]; [congruence|].
    unfold Declustering.splitCluster at 2. cbn [fst snd].
    set (m := largestFrom h first (first :: rest)).
    set (others := List.filter (fun event => negb (Nat.eqb event m)) (first :: rest)).
    destruct (IH (ms ++ [m]) (afs ++ others) Hne) as (picks & rests & -> & Hlen & Hperm).
    exists (m :: picks), (others ++ rests). rewrite <- !app_assoc. simpl.
    split; [reflexivity|]. split; [now rewrite Hlen|].
    intros Hnd. change (first :: rest ++ concat clusters)
      with ((first :: rest) ++ concat clusters) in *.
    apply NoDup_app in Hnd as (Hnd1 & _ & Hnd2).
    assert (Hm : m ∈ first :: rest).
    { subst m. destruct (largestFrom_elem h first (first :: rest)) as [->|Hin];
        [now left | assumption]. }
    rewrite <- (pick_Permutation m (first :: rest) Hnd1 Hm).
    rewrite <- (Hperm Hnd2). fold others.
    change (m :: picks ++ others ++ rests) with ((m :: picks) ++ others ++ rests).
    change ((m :: others) ++ picks ++ rests) with (m :: (others ++ picks ++ rests)).
    simpl. constructor. rewrite !app_assoc. apply Permutation_app_tail.
    apply Permutation_app_comm.
Qed.

Lemma seeded_nonempty (points : list loc) (eps : float) (minPts : nat)
      (clusters : list (list loc)) :
  Forall (DbscanFacts.seeded h points eps minPts) clusters ->
  Forall (fun cluster => cluster <> []) clusters.
Proof.
  intros Hseed. eapply Forall_impl; [exact Hseed|].
  intros c (seed & rest & -> & _). discriminate.
Qed.

Definition strategies : list string :=
  [ "dbscan"; "nnd"; "gruenthal"; "reasenberg" ]%string.

(** Every strategy returns, and what it returns is a partition of the
    events; a non-empty catalog has a mainshock. *)
Lemma decluster_spec (events : list loc) (algorithm : string) :
  algorithm ∈ strategies ->
  exists ms afs,
    Declustering.decluster Math_pow h events algorithm = Some (inr (ms, afs))
    /\ (events <> [] -> ms <> [])
    /\ (NoDup events ->
        Permutation (ms ++ afs) events /\ forall e, e ∈ ms -> e ∉ afs).
Proof.
  intros Halg. unfold strategies in Halg.
  assert (Hwin : forall admits,
    exists ms afs,
      Declustering.windowLoop admits events [] [] = (ms, afs)
      /\ (events <> [] -> ms <> [])
      /\ (NoDup events ->
          Permutation (ms ++ afs) events /\ forall e, e ∈ ms -> e ∉ afs)).
  { intros admits.
    destruct (Declustering.windowLoop admits events [] []) as [ms afs] eqn:Hrun.
    exists ms, afs. split; [reflexivity|]. split.
    - destruct events as [|event later]; [congruence|]. intros _.
      pose proof (WindowFacts.windowLoop_nonempty admits event later) as Hne.
      now rewrite Hrun in Hne.
    - intros Hnd. pose proof (WindowFacts.windowLoop_partition admits events Hnd) as Hp.
      now rewrite Hrun in Hp. }
  repeat (apply elem_of_cons in Halg as [->|Halg]); [| | | |inversion Halg];
    unfold Declustering.decluster; simpl String.eqb; cbv iota.
  - destruct (DbscanFacts.dbscan_spec h events 0.5 3)
      as (clusters & noise & -> & Hnd & Hcover & Hseed).
    apply seeded_nonempty in Hseed.
    destruct (splitClusters_spec clusters noise [] Hseed) as (picks & rests & -> & Hlen & Hperm).
    exists (noise ++ picks), ([] ++ rests). split; [reflexivity|]. split.
    + intros Hne Hnil. apply app_eq_nil in Hnil as [-> ->].
      destruct clusters; [|discriminate]. simpl in Hcover.
      destruct events as [|e events]; [congruence|].
      specialize (Hcover e). destruct Hcover as [_ Hc].
      specialize (Hc ltac:(now left)). inversion Hc.
    + intros Hev. simpl.
      assert (Hp : Permutation ((noise ++ picks) ++ rests) events).
      { rewrite <- app_assoc. pose proof Hnd as Hnd0.
        apply NoDup_app in Hnd0 as (_ & _ & Hndc).
        rewrite (Hperm Hndc). apply NoDup_Permutation; assumption. }
      split; [assumption|].
      assert (Hnd' : NoDup ((noise ++ picks) ++ rests)).
      { now rewrite Hp. }
      apply NoDup_app in Hnd' as (_ & Hsep & _). exact Hsep.
  - destruct (Hwin (Declustering.nndAdmits Math_pow h)) as (ms & afs & -> & H1 & H2).
    now exists ms, afs.
  - destruct (Hwin (Declustering.gruenthalAdmits Math_pow h)) as (ms & afs & -> & H1 & H2).
    now exists ms, afs.
  - destruct (Hwin (Declustering.reasenbergAdmits Math_pow h)) as (ms & afs & -> & H1 & H2).
    now exists ms, afs.
Qed.

End Decluster.
End DeclusterFacts.

(** ** [performDeclustering] *)

Lemma arr_alloc (objs0 : list Event) (arrs0 : list (list loc)) (l : list loc) :
  arr (mkHeap objs0 (arrs0 ++ [l])) (length arrs0) = l.
Proof.
  unfold arr. simpl. rewrite lookup_app_r by lia.
  now rewrite Nat.sub_diag.
Qed.

Lemma insert_last {A} (l : list A) (x y : A) :
  <[length l := y]> (l ++ [x]) = l ++ [y].
Proof. induction l as [|a l IH]; simpl; [reflexivity | now rewrite IH]. Qed.

Module PerformFacts.

(** The [Error] thrown for an empty catalog. *)
Definition InsufficientDataError : JS.Exception :=
  JS.Error "No data available for declustering analysis".

Definition subTypes : list string :=
  [ "DBSCAN"; "NND Algorithm"; "Gruenthal Declustering Algorithm";
    "Reasenberg Algorithm" ]%string.

Definition rethrow (error : JS.Exception) : Run.M Declustering.Output :=
  Run.throw (JS.Error ("Declustering error: " ++ JS.message_of error)).

(** [sortedData]: the copy of the caller's array, sorted in place. *)
Definition sortedDataOf (h : Heap) (data : loc) : list loc :=
  sortByTime (mkHeap (objs h) (arrs h ++ [arr h data])) (arr h data).

(** The world in which the analysis runs: the caller's heap with the
    sorted copy as a new array. *)
Definition sortedWorld (w : Run.World) (sortedData : list loc) : Run.World :=
  Run.mkWorld (mkHeap (objs (Run.heap w)) (arrs (Run.heap w) ++ [sortedData]))
              (Run.rng w).

Section Perform.
Variable Math_pow : float -> float -> float.

Lemma algorithmOf_subTypes (subType : string) :
  subType ∈ subTypes ->
  exists algorithm,
    Declustering.algorithmOf subType = Some algorithm
    /\ algorithm ∈ DeclusterFacts.strategies.
Proof.
  unfold subTypes, DeclusterFacts.strategies. intros Hin.
  repeat (apply elem_of_cons in Hin as [->|Hin]); [| | | |inversion Hin];
    eexists; (split; [reflexivity|]); set_solver.
Qed.

(** The copy, the sort of the copy and the emptiness test. *)
Lemma performDeclustering_unfold (subType : string) (data : loc) (w : Run.World) :
  Declustering.performDeclustering Math_pow subType data w
  = if (length (sortedDataOf (Run.heap w) data) =? 0)%nat
    then Some (Run.Throw InsufficientDataError,
               sortedWorld w (sortedDataOf (Run.heap w) data))
    else Run.tryCatch
           (Declustering.analyse Math_pow subType (sortedDataOf (Run.heap w) data))
           rethrow (sortedWorld w (sortedDataOf (Run.heap w) data)).
Proof.
  destruct w as [[objs0 arrs0] g].
  unfold Declustering.performDeclustering, Run.bind, Run.getHeap, Run.allocArr,
    Run.storeArr, alloc_arr, store_arr, sortedWorld, sortedDataOf.
  cbn [Run.heap Run.rng objs arrs].
  rewrite !arr_alloc, insert_last, arr_alloc.
  destruct (length _ =? 0)%nat; reflexivity.
Qed.

Lemma performDeclustering_run (subType : string) (data : loc) (w : Run.World) :
  exists sortedData,
    Permutation sortedData (arr (Run.heap w) data)
    /\ Declustering.performDeclustering Math_pow subType data w
       = if (length sortedData =? 0)%nat
         then Some (Run.Throw InsufficientDataError, sortedWorld w sortedData)
         else Run.tryCatch (Declustering.analyse Math_pow subType sortedData) rethrow
                (sortedWorld w sortedData).
Proof.
  exists (sortedDataOf (Run.heap w) data).
  split; [apply sortByTime_Permutation | apply performDeclustering_unfold].
Qed.

(** The analysis of a catalog that a strategy has split. *)
Lemma analyse_run (subType algorithm : string) (sortedData ms afs : list loc)
      (w : Run.World) :
  Declustering.algorithmOf subType = Some algorithm ->
  Declustering.decluster Math_pow (Run.heap w) sortedData algorithm = Some (inr (ms, afs)) ->
  exists out w',
    Declustering.analyse Math_pow subType sortedData w = Some (Run.Normal out, w')
    /\ Declustering.mainshocks out
       = Declustering.ensureMainshock (Run.heap w) sortedData ms
    /\ Declustering.aftershocks out = afs
    /\ Run.heap w' = Run.heap w.
Proof.
  intros Halg Hrun. unfold Declustering.analyse, Run.bind, Run.getHeap, Run.liftOption.
  rewrite Halg. cbn [Run.heap]. rewrite Hrun. unfold Run.random, Run.ret.
  cbn. eexists _, _. split; [reflexivity|]. cbn. auto.
Qed.

Lemma ensureMainshock_keeps (h : Heap) (sortedData found : list loc) :
  found <> [] -> Declustering.ensureMainshock h sortedData found = found.
Proof. destruct found; [congruence | reflexivity]. Qed.

Lemma ensureMainshock_fallback (h : Heap) (sortedData : list loc) :
  sortedData <> [] ->
  exists m,
    Declustering.ensureMainshock h sortedData [] = [m]
    /\ m ∈ sortedData
    /\ forall e, e ∈ sortedData ->
         JS.gt (magnitude (obj h e)) (magnitude (obj h m)) = false.
Proof.
  destruct sortedData as [|first rest]; [congruence|]. intros _.
  exists (largestFrom h first (first :: rest)). split; [reflexivity|]. split.
  - destruct (largestFrom_elem h first (first :: rest)) as [->|Hin];
      [now left | assumption].
  - apply largestFrom_max.
Qed.

(** A non-empty catalog is analysed to the end, and the partition of
    its events is the one the strategy found. *)
Lemma performDeclustering_spec (subType : string) (data : loc) (w : Run.World) :
  subType ∈ subTypes -> arr (Run.heap w) data <> [] ->
  exists out w',
    Declustering.performDeclustering Math_pow subType data w = Some (Run.Normal out, w')
    /\ Declustering.mainshocks out <> []
    /\ (NoDup (arr (Run.heap w) data) ->
        Permutation (Declustering.mainshocks out ++ Declustering.aftershocks out)
          (arr (Run.heap w) data)
        /\ forall e, e ∈ Declustering.mainshocks out -> e ∉ Declustering.aftershocks out).
Proof.
  intros Hsub Hne.
  destruct (performDeclustering_run subType data w) as (sortedData & Hperm & ->).
  assert (Hne' : sortedData <> []).
  { intros ->. apply Permutation_nil in Hperm. congruence. }
  destruct sortedData as [|e0 rest] eqn:Hsd; [congruence|]. rewrite <- Hsd in *.
  replace (length sortedData =? 0)%nat with false by (now rewrite Hsd).
  destruct (algorithmOf_subTypes subType Hsub) as (algorithm & Halg & Hstrat).
  destruct (DeclusterFacts.decluster_spec Math_pow
              (Run.heap (sortedWorld w sortedData)) sortedData algorithm Hstrat)
    as (ms & afs & Hrun & Hms & Hpart).
  destruct (analyse_run subType algorithm sortedData ms afs _ Halg Hrun)
    as (out & w' & Hout & Hmain & Haft & _).
  unfold Run.tryCatch. rewrite Hout. exists out, w'. split; [reflexivity|].
  rewrite Hmain, Haft, (ensureMainshock_keeps _ _ _ (Hms Hne')).
  split; [auto|]. intros Hnd.
  assert (Hnd' : NoDup sortedData) by now rewrite Hperm.
  destruct (Hpart Hnd') as [Hp Hsep]. split; [now rewrite Hp | assumption].
Qed.

End Perform.
End PerformFacts.

(** ** Declustering: the partition, the mainshock, the empty catalog *)

Module DeclusteringTheorems.
Section Theorems.
Variable Math_pow : float -> float -> float.

(** C1.  For each of the four strategies (dbscan, nnd, gruenthal,
    reasenberg) and every catalog of distinct event objects,
    [decluster] returns two lists whose concatenation is a permutation
    of the catalog: the union of mainshocks and aftershocks is the
    catalog, and every event is in exactly one of the two. *)
Theorem decluster_partition (h : Heap) (events : list loc) (algorithm : string) :
  algorithm ∈ DeclusterFacts.strategies ->
  NoDup events ->
  exists mainshocks aftershocks,
    Declustering.decluster Math_pow h events algorithm
      = Some (inr (mainshocks, aftershocks))
    /\ Permutation (mainshocks ++ aftershocks) events
    /\ forall e, e ∈ events ->
         (e ∈ mainshocks /\ e ∉ aftershocks) \/ (e ∈ aftershocks /\ e ∉ mainshocks).
Proof.
  intros Halg Hnd.
  destruct (DeclusterFacts.decluster_spec Math_pow h events algorithm Halg)
    as (ms & afs & Hrun & _ & Hpart).
  destruct (Hpart Hnd) as [Hperm Hsep].
  exists ms, afs. split; [assumption|]. split; [assumption|].
  intros e He. rewrite <- Hperm in He. apply elem_of_app in He as [He|He].
  - left. split; [assumption | now apply Hsep].
  - right. split; [assumption|]. intros Hm. now apply (Hsep e Hm).
Qed.

(** C2.  For each of the four strategies a non-empty catalog is
    declustered into at least one mainshock.  The fallback of
    [performDeclustering] leaves a non-empty list of mainshocks as it
    is; applied to an empty one it yields exactly one event of the
    catalog, and no event of the catalog has a magnitude above it. *)
Theorem mainshock_always (subType : string) (data : loc) (w : Run.World) :
  subType ∈ PerformFacts.subTypes ->
  arr (Run.heap w) data <> [] ->
  (exists out w',
     Declustering.performDeclustering Math_pow subType data w = Some (Run.Normal out, w')
     /\ Declustering.mainshocks out <> [])
  /\ (forall h sortedData found, found <> [] ->
        Declustering.ensureMainshock h sortedData found = found)
  /\ (forall h sortedData, sortedData <> [] ->
        exists m,
          Declustering.ensureMainshock h sortedData [] = [m]
          /\ m ∈ sortedData
          /\ forall e, e ∈ sortedData ->
               JS.gt (magnitude (obj h e)) (magnitude (obj h m)) = false).
Proof.
  intros Hsub Hne. split; [|split].
  - destruct (PerformFacts.performDeclustering_spec Math_pow subType data w Hsub Hne)
      as (out & w' & Hrun & Hms & _).
    now exists out, w'.
  - apply PerformFacts.ensureMainshock_keeps.
  - apply PerformFacts.ensureMainshock_fallback.
Qed.

(** C7.  On an empty catalog [performDeclustering] throws the
    insufficient-data error, whatever the algorithm asked for, and
    returns no result. *)
Theorem empty_catalog_fails (subType : string) (data : loc) (w : Run.World) :
  arr (Run.heap w) data = [] ->
  exists w',
    Declustering.performDeclustering Math_pow subType data w
      = Some (Run.Throw PerformFacts.InsufficientDataError, w').
Proof.
  intros Hempty.
  destruct (PerformFacts.performDeclustering_run Math_pow subType data w)
    as (sortedData & Hperm & ->).
  rewrite Hempty in Hperm. symmetry in Hperm.
  apply Permutation_nil in Hperm. subst sortedData.
  simpl. eauto.
Qed.

End Theorems.

Lemma decluster_partition_witness :
  exists mainshocks aftershocks,
    Declustering.decluster Examples.pow Examples.line [0; 1; 2]%nat "reasenberg"
      = Some (inr (mainshocks, aftershocks))
    /\ Permutation (mainshocks ++ aftershocks) [0; 1; 2]%nat
    /\ forall e, e ∈ [0; 1; 2]%nat ->
         (e ∈ mainshocks /\ e ∉ aftershocks) \/ (e ∈ aftershocks /\ e ∉ mainshocks).
Proof.
  apply (decluster_partition Examples.pow Examples.line [0; 1; 2]%nat "reasenberg").
  - unfold DeclusterFacts.strategies. set_solver.
  - repeat constructor; set_solver.
Defined.

Lemma mainshock_always_witness :
  exists out w',
    Declustering.performDeclustering Examples.pow "NND Algorithm" 0%nat
      (Run.mkWorld Examples.line (Examples.always 0.5)) = Some (Run.Normal out, w')
    /\ Declustering.mainshocks out <> [].
Proof.
  refine (proj1 (mainshock_always Examples.pow "NND Algorithm" 0%nat
                   (Run.mkWorld Examples.line (Examples.always 0.5)) _ _)).
  - unfold PerformFacts.subTypes. set_solver.
  - discriminate.
Defined.

Lemma empty_catalog_fails_witness :
  exists w',
    Declustering.performDeclustering Examples.pow "Reasenberg Algorithm" 0%nat
      (Run.mkWorld Examples.empty (Examples.always 0.5))
      = Some (Run.Throw PerformFacts.InsufficientDataError, w').
Proof.
  apply (empty_catalog_fails Examples.pow "Reasenberg Algorithm" 0%nat
           (Run.mkWorld Examples.empty (Examples.always 0.5))).
  reflexivity.
Defined.

End DeclusteringTheorems.

(** ** DBSCAN: how small a cluster can be *)

Module DbscanTheorems.

(** On the three events of [Examples.line], with [eps = 0.5] and
    [minPts = 3]: the first event has two neighbours and becomes noise;
    the second has three and starts a cluster; the first is already
    visited, so the cluster ends with two members. *)
Lemma dbscan_line :
  DBSCAN.dbscan Examples.line [0; 1; 2]%nat 0.5 3 = Some ([[1; 2]%nat], [0%nat]).
Proof. vm_compute. reflexivity. Qed.



End DbscanTheorems.

(** ** k-means *)

Module KmeansFacts.

(** The objects at the references below [n] and all the arrays are the
    same in [h'] as in [h]. *)
Definition kept (n : nat) (h h' : Heap) : Prop :=
  (forall r, r < n -> objs h' !! r = objs h !! r) /\ arrs h' = arrs h.

Lemma kept_refl (n : nat) (h : Heap) : kept n h h.
Proof. split; auto. Qed.

Lemma kept_trans (n : nat) (h1 h2 h3 : Heap) :
  kept n h1 h2 -> kept n h2 h3 -> kept n h1 h3.
Proof.
  intros [Ho1 Ha1] [Ho2 Ha2]. split; [|congruence].
  intros r Hr. rewrite Ho2, Ho1; auto.
Qed.

Lemma kept_le (n m : nat) (h h' : Heap) : n <= m -> kept m h h' -> kept n h h'.
Proof. intros Hle [Ho Ha]. split; [|assumption]. intros r Hr. apply Ho. lia. Qed.

Lemma pickCentroid_run (points : list loc) (w : Run.World) :
  exists e g,
    Clustering.pickCentroid points w
    = Some (Run.Normal (length (objs (Run.heap w))),
            Run.mkWorld (mkHeap (objs (Run.heap w) ++ [e]) (arrs (Run.heap w))) g).
Proof.
  unfold Clustering.pickCentroid, Run.bind, Run.random, Run.getHeap, Run.allocObj,
    alloc_obj. simpl. eexists _, _. reflexivity.
Qed.

Lemma initCentroids_run (k : nat) (points : list loc) (w : Run.World) :
  exists centroids w',
    Clustering.initCentroids k points w = Some (Run.Normal centroids, w')
    /\ length centroids = k
    /\ Forall (fun c => length (objs (Run.heap w)) <= c) centroids
    /\ kept (length (objs (Run.heap w))) (Run.heap w) (Run.heap w').
Proof.
  revert w. induction k as [|k IH]; intros w; simpl.
  - exists [], w. repeat split; auto.
  - destruct (pickCentroid_run points w) as (e & g & Hpick).
    unfold Run.bind at 1. rewrite Hpick.
    set (w1 := Run.mkWorld (mkHeap (objs (Run.heap w) ++ [e]) (arrs (Run.heap w))) g).
    destruct (IH w1) as (cs & w' & Hrun & Hlen & Hfresh & Hkept).
    unfold Run.bind, Run.ret. rewrite Hrun.
    exists (length (objs (Run.heap w)) :: cs), w'.
    split; [reflexivity|]. split; [simpl; now rewrite Hlen|].
    simpl in Hfresh, Hkept. rewrite length_app in Hfresh, Hkept. simpl in Hfresh, Hkept.
    split.
    + constructor; [lia|]. eapply Forall_impl; [exact Hfresh|]. simpl. intros; lia.
    + apply kept_trans with (Run.heap w1).
      * split; [|reflexivity]. intros r Hr. simpl. now apply lookup_app_l.
      * eapply kept_le; [|exact Hkept]. lia.
Qed.

Lemma updateCentroid_run (centroid : loc) (cluster : list loc) (w : Run.World) :
  exists moved w',
    Clustering.updateCentroid centroid cluster w = Some (Run.Normal moved, w')
    /\ forall n, n <= centroid -> kept n (Run.heap w) (Run.heap w').
Proof.
  unfold Clustering.updateCentroid.
  destruct (length cluster =? 0)%nat.
  - exists false, w. split; [reflexivity|]. intros; apply kept_refl.
  - unfold Run.bind, Run.getHeap, Run.storeObj, Run.ret.
    match goal with |- context [if ?c then _ else _] => destruct c end.
    + eexists _, _. split; [reflexivity|]. intros n Hn. split; [|reflexivity].
      intros r Hr. simpl. apply list_lookup_insert_ne. lia.
    + exists false, w. split; [reflexivity|]. intros; apply kept_refl.
Qed.

Lemma updateCentroids_run (n : nat) (centroids : list loc) (clusters : list (list loc))
      (changed : bool) (w : Run.World) :
  Forall (fun c => n <= c) centroids ->
  exists changed' w',
    Clustering.updateCentroids centroids clusters changed w
      = Some (Run.Normal changed', w')
    /\ kept n (Run.heap w) (Run.heap w').
Proof.
  revert clusters changed w.
  induction centroids as [|centroid centroids IH]; intros clusters changed w Hfresh.
  - exists changed, w. split; [reflexivity | apply kept_refl].
  - destruct clusters as [|cluster clusters].
    + exists changed, w. split; [reflexivity | apply kept_refl].
    + apply Forall_cons in Hfresh as [Hc Hfresh]. simpl.
      destruct (updateCentroid_run centroid cluster w) as (moved & w1 & Hrun & Hkept).
      unfold Run.bind. rewrite Hrun.
      destruct (IH clusters (changed || moved) w1 Hfresh) as (b & w' & Hrun' & Hkept').
      exists b, w'. split; [assumption|].
      eapply kept_trans; [apply Hkept; exact Hc | exact Hkept'].
Qed.

(** The assignment never leaves the list of centroids. *)
Lemma nearest_lt (h : Heap) (point : loc) (centroids : list loc) :
  centroids <> [] -> Clustering.nearest h point centroids < length centroids.
Proof.
  unfold Clustering.nearest.
  assert (Hgen : forall l minDist clusterIndex i,
    (clusterIndex < i \/ clusterIndex = 0%nat) ->
    let r := fold_left
      (fun '(minDist, clusterIndex, i) centroid =>
         let dist := distance h point centroid in
         if dist <? minDist then (dist, i, S i) else (minDist, clusterIndex, S i))
      l (minDist, clusterIndex, i) in
    snd (fst r) < i + length l \/ snd (fst r) = 0%nat).
  { induction l as [|c l IH]; intros minDist clusterIndex i Hci; simpl.
    - destruct Hci; [left; lia | now right].
    - destruct (distance h point c <? minDist).
      + assert (Hi : i < S i \/ i = 0%nat) by (left; lia).
        destruct (IH (distance h point c) i (S i) Hi) as [H|H];
          [left; eapply Nat.lt_le_trans; [exact H | lia] | right; exact H].
      + assert (Hci' : clusterIndex < S i \/ clusterIndex = 0%nat)
          by (destruct Hci; [left; lia | now right]).
        destruct (IH minDist clusterIndex (S i) Hci') as [H|H];
          [left; eapply Nat.lt_le_trans; [exact H | lia] | right; exact H]. }
  intros Hne.
  assert (H0 : 0 < 0 \/ 0%nat = 0%nat) by now right.
  destruct (Hgen centroids infinity 0%nat 0%nat H0) as [H|H]; [exact H|].
  eapply Nat.le_lt_trans; [apply Nat.eq_le_incl; exact H|].
  destruct centroids; [congruence | simpl; lia].
Qed.

Lemma concat_push (clusters : list (list loc)) (i : nat) (c : list loc) (point : loc) :
  clusters !! i = Some c ->
  Permutation (concat (<[i := c ++ [point]]> clusters)) (point :: concat clusters).
Proof.
  revert i. induction clusters as [|x clusters IH]; intros i Hi; [discriminate|].
  destruct i as [|i]; simpl in *.
  - inversion Hi; subst. rewrite <- app_assoc. simpl.
    symmetry. apply Permutation_middle.
  - rewrite (IH i Hi). symmetry. apply Permutation_middle.
Qed.

Lemma assign_run (h : Heap) (centroids points : list loc) (clusters : list (list loc)) :
  centroids <> [] -> length clusters = length centroids ->
  exists clusters',
    Clustering.assign h centroids points clusters = inr clusters'
    /\ length clusters' = length clusters
    /\ Permutation (concat clusters') (concat clusters ++ points).
Proof.
  intros Hne. unfold Clustering.assign. revert clusters.
  induction points as [|point points IH]; intros clusters Hlen; simpl.
  - exists clusters. rewrite app_nil_r. auto.
  - pose proof (nearest_lt h point centroids Hne) as Hlt.
    destruct (clusters !! Clustering.nearest h point centroids) as [c|] eqn:Hc.
    + destruct (IH (<[Clustering.nearest h point centroids := c ++ [point]]> clusters))
        as (clusters' & Hrun & Hlen' & Hperm).
      { now rewrite length_insert. }
      exists clusters'. split; [exact Hrun|]. rewrite length_insert in Hlen'.
      split; [exact Hlen'|]. rewrite Hperm, (concat_push _ _ _ _ Hc).
      apply Permutation_middle.
    + apply lookup_ge_None in Hc. lia.
Qed.

Lemma concat_repeat_nil (k : nat) : concat (repeat ([] : list loc) k) = [].
Proof. induction k; simpl; auto. Qed.

(** The iterations: [k] clusters come out, each event in one of them,
    and only the centroids are written. *)
Lemma iterate_run (n : nat) (remaining k : nat) (points centroids : list loc)
      (clusters : list (list loc)) (w : Run.World) :
  centroids <> [] -> length centroids = k -> length clusters = k ->
  Forall (fun c => n <= c) centroids ->
  exists clusters' w',
    Clustering.iterate remaining k points centroids clusters w
      = Some (Run.Normal clusters', w')
    /\ length clusters' = k
    /\ (0 < remaining -> Permutation (concat clusters') points)
    /\ kept n (Run.heap w) (Run.heap w').
Proof.
  intros Hne Hk. revert clusters w.
  induction remaining as [|remaining IH]; intros clusters w Hlen Hfresh; simpl.
  - exists clusters, w. split; [reflexivity|]. split; [assumption|].
    split; [lia | apply kept_refl].
  - unfold Run.bind at 1. unfold Run.getHeap.
    destruct (assign_run (Run.heap w) centroids points (repeat [] k) Hne)
      as (clusters1 & Hrun & Hlen1 & Hperm1).
    { now rewrite repeat_length. }
    rewrite Hrun. rewrite repeat_length in Hlen1.
    rewrite concat_repeat_nil in Hperm1. simpl in Hperm1.
    destruct (updateCentroids_run n centroids clusters1 false w Hfresh)
      as (changed & w1 & Hupd & Hkept1).
    unfold Run.bind. rewrite Hupd. destruct changed.
    + destruct (IH clusters1 w1 Hlen1 Hfresh) as (clusters' & w' & Hit & Hlen' & Hperm' & Hkept').
      exists clusters', w'. split; [exact Hit|]. split; [exact Hlen'|]. split.
      * intros _. destruct remaining as [|remaining'].
        { simpl in Hit. inversion Hit; subst. exact Hperm1. }
        { apply Hperm'. lia. }
      * eapply kept_trans; eassumption.
    + exists clusters1, w1. split; [reflexivity|]. split; [exact Hlen1|].
      split; [intros _; exact Hperm1 | exact Hkept1].
Qed.

Lemma kmeans_run (points : list loc) (k maxIterations : nat) (w : Run.World) :
  exists clusters centroids w',
    Clustering.kmeans points (S k) maxIterations w
      = Some (Run.Normal (clusters, centroids), w')
    /\ length clusters = S k
    /\ (0 < maxIterations -> Permutation (concat clusters) points)
    /\ kept (length (objs (Run.heap w))) (Run.heap w) (Run.heap w').
Proof.
  unfold Clustering.kmeans.
  destruct (initCentroids_run (S k) points w) as (cs & w1 & Hinit & Hlen & Hfresh & Hkept1).
  unfold Run.bind at 1. rewrite Hinit.
  destruct (iterate_run (length (objs (Run.heap w))) maxIterations (S k) points cs
              (repeat [] (S k)) w1)
    as (clusters & w' & Hit & Hlen' & Hperm & Hkept2); try assumption.
  { destruct cs; [discriminate | congruence]. }
  { apply repeat_length. }
  unfold Run.bind, Run.ret. rewrite Hit.
  exists clusters, cs, w'. split; [reflexivity|]. split; [exact Hlen'|].
  split; [exact Hperm|]. eapply kept_trans; eassumption.
Qed.

(** [fuzzyKmeans] is [kmeans] with its default of 10 iterations. *)
Lemma fuzzyKmeans_kmeans (points : list loc) (k : nat) (w : Run.World) :
  Clustering.fuzzyKmeans points k w = Clustering.kmeans points k 10 w.
Proof.
  unfold Clustering.fuzzyKmeans, Run.bind, Run.ret.
  destruct (Clustering.kmeans points k 10 w) as [[[res|e] w']|]; reflexivity.
Qed.

End KmeansFacts.

(** ** [performClustering] *)

Module ClusteringFacts.

Definition rethrow (error : JS.Exception) : Run.M Clustering.Output :=
  Run.throw (JS.Error ("Clustering error: " ++ JS.message_of error)).

Lemma processClusters_events (h : Heap) (clusters : list (list loc)) :
  map Clustering.events (Clustering.processClusters h clusters) = clusters.
Proof.
  unfold Clustering.processClusters. generalize 0%nat.
  induction clusters as [|c clusters IH]; intros s; simpl; [reflexivity|].
  now rewrite IH.
Qed.

Lemma processClusters_length (h : Heap) (clusters : list (list loc)) :
  length (Clustering.processClusters h clusters) = length clusters.
Proof.
  rewrite <- (processClusters_events h clusters) at 2. now rewrite length_map.
Qed.

(** The statistics of an empty cluster are [0 / 0]. *)
Lemma processClusters_empty (h : Heap) (clusters : list (list loc)) :
  [] ∈ clusters ->
  exists c,
    c ∈ Clustering.processClusters h clusters
    /\ Clustering.size c = 0%nat
    /\ is_nan (Clustering.avgMagnitude c) = true.
Proof.
  unfold Clustering.processClusters. generalize 0%nat at 1.
  induction clusters as [|x clusters IH]; intros s Hin; [inversion Hin|].
  apply elem_of_cons in Hin as [<-|Hin]; simpl.
  - exists (Clustering.processCluster h s []). split; [now left|].
    split; reflexivity.
  - destruct (IH (S s) Hin) as (c & Hc & Hsize & Hnan).
    exists c. split; [now right | auto].
Qed.

(** After the algorithm has run, the record is assembled from three
    more draws and the heap is left as it is. *)
Lemma performClustering_unfold (subType : string) (data : loc) (w : Run.World) :
  Clustering.performClustering subType data w
  = match Clustering.runAlgorithm subType (arr (Run.heap w) data) w with
    | Some (Run.Normal found, w1) =>
      Run.tryCatch
        (let* h := Run.getHeap in
         let processedClusters := Clustering.processClusters h (fst found) in
         let* r1 := Run.random in
         let* r2 := Run.random in
         let* r3 := Run.random in
         Run.ret
           (Clustering.mkOutput (subType ++ " clustering completed") (snd found)
              processedClusters
              (Clustering.mkValidity (0.6 + r1 * 0.3) (0.4 + r2 * 0.4) (200 + r3 * 100))
              (Clustering.interCluster processedClusters)
              (map (fun cluster => (Clustering.clusterName cluster, Clustering.size cluster))
                   processedClusters)
              (map (Clustering.magnitudeRow h processedClusters) Clustering.magnitudeRanges)
              (map (fun cluster => (Clustering.clusterName cluster, Clustering.spread h cluster))
                   processedClusters)))
        rethrow w1
    | Some (Run.Throw e, w1) => rethrow e w1
    | None => None
    end.
Proof.
  unfold Clustering.performClustering, Run.tryCatch, Run.bind at 1, Run.getHeap.
  unfold Run.bind at 1.
  destruct (Clustering.runAlgorithm subType (arr (Run.heap w) data) w)
    as [[[found|e] w1]|]; reflexivity.
Qed.

Lemma performClustering_found (subType : string) (data : loc) (w w1 : Run.World)
      (found : list (list loc) * string) :
  Clustering.runAlgorithm subType (arr (Run.heap w) data) w = Some (Run.Normal found, w1) ->
  exists out w',
    Clustering.performClustering subType data w = Some (Run.Normal out, w')
    /\ Clustering.clusters out = Clustering.processClusters (Run.heap w1) (fst found)
    /\ Clustering.algorithm out = snd found
    /\ Run.heap w' = Run.heap w1.
Proof.
  intros Hrun. rewrite performClustering_unfold, Hrun.
  eexists _, _. split; [reflexivity|]. cbn. auto.
Qed.

Lemma runAlgorithm_kmeans (points : list loc) (w : Run.World) :
  exists clusters centroids w1,
    Clustering.kmeans points 4 10 w = Some (Run.Normal (clusters, centroids), w1)
    /\ Clustering.runAlgorithm "K-means" points w
       = Some (Run.Normal (clusters, "kmeans"%string), w1)
    /\ Clustering.runAlgorithm "Fuzzy C-means" points w
       = Some (Run.Normal (clusters, "fuzzy"%string), w1)
    /\ length clusters = 4%nat
    /\ Permutation (concat clusters) points
    /\ KmeansFacts.kept (length (objs (Run.heap w))) (Run.heap w) (Run.heap w1).
Proof.
  destruct (KmeansFacts.kmeans_run points 3 10 w)
    as (clusters & centroids & w1 & Hrun & Hlen & Hperm & Hkept).
  exists clusters, centroids, w1. split; [exact Hrun|].
  unfold Clustering.runAlgorithm. cbn [String.eqb Ascii.eqb Bool.eqb].
  unfold Run.bind. rewrite KmeansFacts.fuzzyKmeans_kmeans, Hrun.
  split; [reflexivity|]. split; [reflexivity|]. split; [exact Hlen|].
  split; [apply Hperm; lia | exact Hkept].
Qed.

End ClusteringFacts.

Module ClusteringTheorems.

(** What [performClustering] passes on from the algorithm: the clusters
    or the exception, and the world after. *)
Definition foundClusters
  (r : option (Run.Completion (list (list loc) * string) * Run.World))
  : option (Run.Completion (list (list loc)) * Run.World) :=
  match r with
  | Some (Run.Normal found, w) => Some (Run.Normal (fst found), w)
  | Some (Run.Throw e, w) => Some (Run.Throw e, w)
  | None => None
  end.

(** C8.  The fuzzy mode is the k-means mode: from the same world (heap
    and random draws) [fuzzyKmeans] returns what [kmeans] returns with
    its default of 10 iterations, [performClustering] is handed the same
    clusters under both names, and the assignment is a hard one: every
    event of the catalog is in exactly one of the clusters. *)
Theorem fuzzy_is_kmeans (points : list loc) (k : nat) (w : Run.World) :
  Clustering.fuzzyKmeans points k w = Clustering.kmeans points k 10 w
  /\ foundClusters (Clustering.runAlgorithm "Fuzzy C-means" points w)
     = foundClusters (Clustering.runAlgorithm "K-means" points w)
  /\ exists clusters centroids w',
       Clustering.fuzzyKmeans points (S k) w = Some (Run.Normal (clusters, centroids), w')
       /\ Permutation (concat clusters) points.
Proof.
  split; [apply KmeansFacts.fuzzyKmeans_kmeans|]. split.
  - destruct (ClusteringFacts.runAlgorithm_kmeans points w)
      as (clusters & centroids & w1 & _ & -> & -> & _). reflexivity.
  - destruct (KmeansFacts.kmeans_run points k 10 w)
      as (clusters & centroids & w' & Hrun & _ & Hperm & _).
    exists clusters, centroids, w'. rewrite KmeansFacts.fuzzyKmeans_kmeans.
    split; [exact Hrun | apply Hperm; lia].
Qed.

(** C9.  For every catalog, also one with fewer than [k] events,
    [kmeans] with [k >= 1] returns exactly [k] clusters; under
    "K-means" [performClustering] computes the statistics of all four
    clusters that [kmeans] returned, the empty ones included. *)
Theorem kmeans_returns_k_clusters (points : list loc) (k maxIterations : nat)
        (data : loc) (w : Run.World) :
  (exists clusters centroids w',
     Clustering.kmeans points (S k) maxIterations w
       = Some (Run.Normal (clusters, centroids), w')
     /\ length clusters = S k)
  /\ (exists clusters centroids w1 out w',
        Clustering.kmeans (arr (Run.heap w) data) 4 10 w
          = Some (Run.Normal (clusters, centroids), w1)
        /\ Clustering.performClustering "K-means" data w = Some (Run.Normal out, w')
        /\ length (Clustering.clusters out) = 4%nat
        /\ map Clustering.events (Clustering.clusters out) = clusters
        /\ map Clustering.size (Clustering.clusters out) = map (@length loc) clusters).
Proof.
  split.
  - destruct (KmeansFacts.kmeans_run points k maxIterations w)
      as (clusters & centroids & w' & Hrun & Hlen & _).
    now exists clusters, centroids, w'.
  - destruct (ClusteringFacts.runAlgorithm_kmeans (arr (Run.heap w) data) w)
      as (clusters & centroids & w1 & Hk & Hrun & _ & Hlen & _).
    destruct (ClusteringFacts.performClustering_found _ _ _ _ _ Hrun)
      as (out & w' & Hout & Hcl & _).
    exists clusters, centroids, w1, out, w'. simpl in Hcl.
    split; [exact Hk|]. split; [exact Hout|]. rewrite Hcl.
    split; [now rewrite ClusteringFacts.processClusters_length|].
    split; [apply ClusteringFacts.processClusters_events|].
    unfold Clustering.processClusters. generalize 0%nat. clear.
    induction clusters as [|c clusters IH]; intros s; simpl; [reflexivity|].
    now rewrite IH.
Qed.

(** C4 fails on the code.  Under "K-means" a catalog of fewer than four
    events leaves a cluster empty, and the record then holds NaN: the
    means of an empty cluster are [0 / 0]. *)
Theorem small_catalog_gives_nan (data : loc) (w : Run.World) :
  length (arr (Run.heap w) data) < 4 ->
  exists out w',
    Clustering.performClustering "K-means" data w = Some (Run.Normal out, w')
    /\ exists c,
         c ∈ Clustering.clusters out
         /\ Clustering.size c = 0%nat
         /\ is_nan (Clustering.avgMagnitude c) = true
         /\ Clustering.finiteCluster c = false.
Proof.
  intros Hsmall.
  destruct (ClusteringFacts.runAlgorithm_kmeans (arr (Run.heap w) data) w)
    as (clusters & centroids & w1 & _ & Hrun & _ & Hlen & Hperm & _).
  destruct (ClusteringFacts.performClustering_found _ _ _ _ _ Hrun)
    as (out & w' & Hout & Hcl & _).
  exists out, w'. split; [exact Hout|]. rewrite Hcl. simpl.
  assert (Hempty : [] ∈ clusters).
  { apply Permutation_length in Hperm.
    destruct clusters as [|c1 [|c2 [|c3 [|c4 [|c5 rest]]]]]; try discriminate.
    simpl in Hperm. rewrite !length_app in Hperm. simpl in Hperm.
    destruct c1; [set_solver|]. destruct c2; [set_solver|].
    destruct c3; [set_solver|]. destruct c4; [set_solver|].
    simpl in Hperm. lia. }
  destruct (ClusteringFacts.processClusters_empty (Run.heap w1) clusters Hempty)
    as (c & Hc & Hsize & Hnan).
  exists c. repeat split; try assumption.
  unfold Clustering.finiteCluster, JS.isFinite. now rewrite Hnan.
Qed.

Lemma small_catalog_gives_nan_witness :
  exists out w',
    Clustering.performClustering "K-means" 0%nat
      (Run.mkWorld Examples.single (Examples.always 0.5)) = Some (Run.Normal out, w')
    /\ exists c,
         c ∈ Clustering.clusters out
         /\ Clustering.size c = 0%nat
         /\ is_nan (Clustering.avgMagnitude c) = true
         /\ Clustering.finiteCluster c = false.
Proof.
  apply (small_catalog_gives_nan 0%nat
           (Run.mkWorld Examples.single (Examples.always 0.5))).
  simpl. lia.
Defined.

End ClusteringTheorems.

(** ** What an analysis leaves of its input, and what it leaves to chance *)

Module FrameFacts.

(** Every object and every array of [h] is still in [h'], as it was. *)
Definition unchanged (h h' : Heap) : Prop :=
  (forall r, r < length (objs h) -> objs h' !! r = objs h !! r)
  /\ (forall a, a < length (arrs h) -> arrs h' !! a = arrs h !! a).

Lemma kept_unchanged (h h' : Heap) :
  KmeansFacts.kept (length (objs h)) h h' -> unchanged h h'.
Proof. intros [Ho Ha]. split; [exact Ho|]. intros a _. now rewrite Ha. Qed.

Lemma runAlgorithm_total (subType : string) (points : list loc) (w : Run.World) :
  exists c w',
    Clustering.runAlgorithm subType points w = Some (c, w')
    /\ KmeansFacts.kept (length (objs (Run.heap w))) (Run.heap w) (Run.heap w').
Proof.
  unfold Clustering.runAlgorithm.
  destruct (String.eqb subType "DBSCAN").
  { unfold Run.bind, Run.getHeap, Run.liftOption, Run.ret.
    destruct (DbscanFacts.dbscan_spec (Run.heap w) points 0.5 3)
      as (clusters & noise & -> & _).
    eexists _, _. split; [reflexivity | apply KmeansFacts.kept_refl]. }
  destruct (ClusteringFacts.runAlgorithm_kmeans points w)
    as (clusters & centroids & w1 & Hk & _ & _ & _ & _ & Hkept).
  destruct (String.eqb subType "K-means").
  { unfold Run.bind, Run.ret. rewrite Hk. eexists _, _. split; [reflexivity | exact Hkept]. }
  destruct (String.eqb subType "Fuzzy C-means").
  { unfold Run.bind, Run.ret. rewrite KmeansFacts.fuzzyKmeans_kmeans, Hk.
    eexists _, _. split; [reflexivity | exact Hkept]. }
  eexists _, _. split; [reflexivity | apply KmeansFacts.kept_refl].
Qed.

Lemma performClustering_total (subType : string) (data : loc) (w : Run.World) :
  exists c w',
    Clustering.performClustering subType data w = Some (c, w')
    /\ unchanged (Run.heap w) (Run.heap w').
Proof.
  rewrite ClusteringFacts.performClustering_unfold.
  destruct (runAlgorithm_total subType (arr (Run.heap w) data) w)
    as ([found|e] & w1 & -> & Hkept); apply kept_unchanged in Hkept.
  - eexists _, _. split; [reflexivity | exact Hkept].
  - eexists _, _. split; [reflexivity | exact Hkept].
Qed.

Section Declustering.
Variable Math_pow : float -> float -> float.

Lemma algorithmOf_strategy (subType algorithm : string) :
  Declustering.algorithmOf subType = Some algorithm ->
  algorithm ∈ DeclusterFacts.strategies.
Proof.
  unfold Declustering.algorithmOf, DeclusterFacts.strategies.
  repeat match goal with
         | |- context [String.eqb subType ?s] => destruct (String.eqb subType s)
         end; intros H; inversion H; set_solver.
Qed.

Lemma analyse_total (subType : string) (sortedData : list loc) (w : Run.World) :
  exists c w',
    Declustering.analyse Math_pow subType sortedData w = Some (c, w')
    /\ Run.heap w' = Run.heap w.
Proof.
  destruct (Declustering.algorithmOf subType) as [algorithm|] eqn:Halg.
  - destruct (DeclusterFacts.decluster_spec Math_pow (Run.heap w) sortedData algorithm
                (algorithmOf_strategy _ _ Halg)) as (ms & afs & Hrun & _).
    destruct (PerformFacts.analyse_run Math_pow subType algorithm sortedData ms afs w
                Halg Hrun) as (out & w' & Hout & _ & _ & Hheap).
    now exists (Run.Normal out), w'.
  - unfold Declustering.analyse, Run.bind, Run.getHeap. rewrite Halg.
    eexists _, _. split; reflexivity.
Qed.

Lemma performDeclustering_total (subType : string) (data : loc) (w : Run.World) :
  exists c w',
    Declustering.performDeclustering Math_pow subType data w = Some (c, w')
    /\ unchanged (Run.heap w) (Run.heap w').
Proof.
  rewrite PerformFacts.performDeclustering_unfold.
  set (sortedData := PerformFacts.sortedDataOf (Run.heap w) data).
  assert (Hsorted : unchanged (Run.heap w) (Run.heap (PerformFacts.sortedWorld w sortedData))).
  { split; [auto|]. intros a Ha. simpl. now apply lookup_app_l. }
  destruct (length sortedData =? 0)%nat.
  - eexists _, _. split; [reflexivity | exact Hsorted].
  - destruct (analyse_total subType sortedData (PerformFacts.sortedWorld w sortedData))
      as ([out|e] & w' & Hrun & Hheap); unfold Run.tryCatch; rewrite Hrun.
    + eexists _, _. split; [reflexivity | now rewrite Hheap].
    + eexists _, _. split; [reflexivity | simpl; now rewrite Hheap].
Qed.

End Declustering.
End FrameFacts.

Module EffectTheorems.

(** C10.  Clustering and declustering return, normally or by an
    exception, and leave every object and every array that was in the
    heap before the call as it was: the caller's array keeps its order
    (the sort works on a fresh copy) and every event keeps its fields
    (k-means writes to fresh copies only). *)
Theorem inputs_not_mutated (Math_pow : float -> float -> float) (subType : string)
        (data : loc) (w : Run.World) :
  (exists c w',
     Clustering.performClustering subType data w = Some (c, w')
     /\ FrameFacts.unchanged (Run.heap w) (Run.heap w'))
  /\ (exists c w',
        Declustering.performDeclustering Math_pow subType data w = Some (c, w')
        /\ FrameFacts.unchanged (Run.heap w) (Run.heap w')).
Proof.
  split.
  - apply FrameFacts.performClustering_total.
  - apply FrameFacts.performDeclustering_total.
Qed.

(** The fields of a declustering record that are drawn from
    [Math.random()] ([bValue] before and after, the validity metrics),
    set to zero. *)
Definition fixedStats (s : Declustering.Stats) : Declustering.Stats :=
  Declustering.mkStats (Declustering.totalEvents s) (Declustering.mainshockCount s)
    (Declustering.aftershockCount s) (Declustering.avgMagnitude s)
    (Declustering.avgDepth s) 0 (Declustering.meanTimeGap s).

Definition fixedDeclustering (o : Declustering.Output) : Declustering.Output :=
  Declustering.mkOutput (Declustering.message o) (Declustering.algorithm o)
    (fixedStats (Declustering.beforeDeclustering o))
    (fixedStats (Declustering.afterDeclustering o))
    (Declustering.mkValidity 0 0 0)
    (Declustering.magnitudeDistribution o) (Declustering.cumulativeEvents o)
    (Declustering.depthDistribution o) (Declustering.nndDistribution o)
    (Declustering.algorithmSpecific o)
    (Declustering.mainshocks o) (Declustering.aftershocks o).

(** The same for a clustering record (the validity metrics). *)
Definition fixedClustering (o : Clustering.Output) : Clustering.Output :=
  Clustering.mkOutput (Clustering.message o) (Clustering.algorithm o)
    (Clustering.clusters o) (Clustering.mkValidity 0 0 0)
    (Clustering.interClusterDistances o) (Clustering.clusterSizeDistribution o)
    (Clustering.magnitudeDistribution o) (Clustering.clusterSpread o).

(** The outcome of a run and the heap after it, through [fixed]. *)
Definition outcome {A} (fixed : A -> A) (r : option (Run.Completion A * Run.World))
  : option (Run.Completion A * Heap) :=
  match r with
  | Some (Run.Normal a, w) => Some (Run.Normal (fixed a), Run.heap w)
  | Some (Run.Throw e, w) => Some (Run.Throw e, Run.heap w)
  | None => None
  end.

(** C6, as stated, fails: two runs on the same catalog whose draws from
    [Math.random()] differ return different records, for DBSCAN
    clustering and for declustering. *)
Lemma runs_differ_counterexample :
  outcome (fun o => o) (Clustering.performClustering "DBSCAN" 0%nat
                (Run.mkWorld Examples.line (Examples.always 0)))
  <> outcome (fun o => o) (Clustering.performClustering "DBSCAN" 0%nat
                   (Run.mkWorld Examples.line (Examples.always 0.5)))
  /\ outcome (fun o => o) (Declustering.performDeclustering Examples.pow "DBSCAN" 0%nat
                   (Run.mkWorld Examples.line (Examples.always 0)))
     <> outcome (fun o => o) (Declustering.performDeclustering Examples.pow "DBSCAN" 0%nat
                      (Run.mkWorld Examples.line (Examples.always 0.5))).
Proof.
  split; intros Heq.
  - apply (f_equal (fun r =>
        match r with
        | Some (Run.Normal out, _) =>
          Clustering.silhouetteScore (Clustering.validityMetrics out) <? 0.7
        | _ => false
        end)) in Heq.
    vm_compute in Heq. discriminate.
  - apply (f_equal (fun r =>
        match r with
        | Some (Run.Normal out, _) =>
          Declustering.goodnessOfFit (Declustering.validityMetrics out) <? 0.85
        | _ => false
        end)) in Heq.
    vm_compute in Heq. discriminate.
Qed.

(** C6, amended.  Whatever [Math.random()] returns, two runs of DBSCAN
    clustering, and two runs of declustering, on the same heap end the
    same way (normally or with the same exception), leave the same heap
    and agree on every field of the record other than those drawn from
    [Math.random()]: the clusters, the partition and all computed
    statistics are the same. *)
Theorem runs_agree_up_to_random (Math_pow : float -> float -> float)
        (subType : string) (data : loc) (h : Heap) (g1 g2 : JS.Random) :
  outcome fixedClustering (Clustering.performClustering "DBSCAN" data (Run.mkWorld h g1))
  = outcome fixedClustering (Clustering.performClustering "DBSCAN" data (Run.mkWorld h g2))
  /\ outcome fixedDeclustering
       (Declustering.performDeclustering Math_pow subType data (Run.mkWorld h g1))
     = outcome fixedDeclustering
         (Declustering.performDeclustering Math_pow subType data (Run.mkWorld h g2)).
Proof.
  split.
  - rewrite !ClusteringFacts.performClustering_unfold.
    unfold Clustering.runAlgorithm. cbn [String.eqb Ascii.eqb Bool.eqb].
    unfold Run.bind, Run.getHeap, Run.liftOption. cbn [Run.heap].
    destruct (DBSCAN.dbscan h (arr h data) 0.5 3) as [[clusters noise]|]; reflexivity.
  - rewrite !PerformFacts.performDeclustering_unfold. cbn [Run.heap].
    destruct (length (PerformFacts.sortedDataOf h data) =? 0)%nat; [reflexivity|].
    unfold Run.tryCatch, Declustering.analyse, Run.bind, Run.getHeap, Run.liftOption.
    cbn [Run.heap PerformFacts.sortedWorld].
    destruct (Declustering.algorithmOf subType) as [algorithm|]; [|reflexivity].
    destruct (Declustering.decluster Math_pow _ _ algorithm) as [[e|[ms afs]]|];
      reflexivity.
Qed.

End EffectTheorems.

(** ** Binary64 arithmetic and the real numbers

    The operations of primitive floats are specified by those of
    [SpecFloat] ([FloatAxioms.add_spec] and the like).  From their
    definitions: a sum, difference, product or quotient [v] of finite
    numbers that stays below [2^970] is returned as a finite number
    within [u * |v| + eta] of [v], with [u = 2^-53] and
    [eta = 2^-1075]. *)

Module Binary.
Local Open Scope R_scope.

(** [2^e]. *)
Definition bpow (e : Z) : R := powerRZ 2 e.
Arguments bpow : simpl never.

Lemma bpow_pos (e : Z) : 0 < bpow e.
Proof. apply powerRZ_lt. lra. Qed.

Lemma bpow_add (a b : Z) : bpow (a + b) = bpow a * bpow b.
Proof. apply powerRZ_add. lra. Qed.

Lemma bpow_succ (e : Z) : bpow (e + 1) = 2 * bpow e.
Proof. rewrite bpow_add. unfold bpow at 2. simpl. lra. Qed.

Lemma bpow_pred (e : Z) : bpow (e - 1) = bpow e / 2.
Proof.
  replace e with ((e - 1) + 1)%Z at 2 by lia. rewrite bpow_succ. lra.
Qed.

Lemma bpow_IZR (k : Z) : (0 <= k)%Z -> bpow k = IZR (2 ^ k).
Proof.
  intros Hk. unfold bpow. destruct k as [|p|p]; [reflexivity| |lia].
  simpl. rewrite pow_IZR. now rewrite positive_nat_Z.
Qed.

Lemma bpow_ge_1 (k : Z) : (0 <= k)%Z -> 1 <= bpow k.
Proof.
  intros Hk. rewrite (bpow_IZR k Hk). apply IZR_le.
  pose proof (Z.pow_pos_nonneg 2 k ltac:(lia) Hk). lia.
Qed.

Lemma bpow_le (a b : Z) : (a <= b)%Z -> bpow a <= bpow b.
Proof.
  intros Hab. replace b with (a + (b - a))%Z by lia. rewrite bpow_add.
  pose proof (bpow_ge_1 (b - a) ltac:(lia)). pose proof (bpow_pos a). nra.
Qed.

Lemma bpow_lt (a b : Z) : (a < b)%Z -> bpow a < bpow b.
Proof.
  intros Hab. apply Rlt_le_trans with (bpow (a + 1)); [|apply bpow_le; lia].
  rewrite bpow_succ. pose proof (bpow_pos a). lra.
Qed.

Lemma bpow_lt_inv (a b : Z) : bpow a < bpow b -> (a < b)%Z.
Proof.
  intros Hlt. destruct (Z_lt_le_dec a b) as [|Hle]; [assumption|].
  apply bpow_le in Hle. lra.
Qed.

(** The number of binary digits. *)
Lemma digits2_size (p : positive) : digits2_pos p = Pos.size p.
Proof. induction p as [p IH|p IH|]; simpl; now rewrite ?IH. Qed.

Lemma digits_bounds (p : positive) :
  bpow (Z.pos (digits2_pos p) - 1) <= IZR (Z.pos p) < bpow (Z.pos (digits2_pos p)).
Proof.
  rewrite digits2_size.
  pose proof (Pos.size_gt p) as Hgt. pose proof (Pos.size_le p) as Hle.
  assert (Hpow : Z.pos (2 ^ Pos.size p) = (2 ^ Z.pos (Pos.size p))%Z)
    by (rewrite Pos2Z.inj_pow; reflexivity).
  split.
  - rewrite bpow_pred, (bpow_IZR (Z.pos (Pos.size p))) by lia.
    rewrite <- Hpow.
    assert (Hz : (Z.pos (2 ^ Pos.size p) <= 2 * Z.pos p)%Z) by (rewrite <- Pos2Z.inj_xO; lia).
    apply IZR_le in Hz. rewrite mult_IZR in Hz. lra.
  - rewrite (bpow_IZR (Z.pos (Pos.size p))) by lia. rewrite <- Hpow.
    apply IZR_lt. lia.
Qed.

(** The real number of a binary64 value; the infinities and NaN have none. *)
Definition SF2R (x : spec_float) : R :=
  match x with
  | S754_finite s m e => (if s then - IZR (Z.pos m) else IZR (Z.pos m)) * bpow e
  | _ => 0
  end.

Definition finite (x : spec_float) : bool :=
  match x with
  | S754_finite _ _ _ | S754_zero _ => true
  | _ => false
  end.

(** *** Shifting to the right *)

(** Where [v] lies from [m * 2^e]: on it, below the middle of the
    step, at the middle, above it. *)
Definition located (v : R) (e : Z) (mrs : shr_record) : Prop :=
  let lo := IZR (shr_m mrs) * bpow e in
  match shr_r mrs, shr_s mrs with
  | false, false => v = lo
  | false, true => lo < v < lo + bpow e / 2
  | true, false => v = lo + bpow e / 2
  | true, true => lo + bpow e / 2 < v < lo + bpow e
  end.

Lemma located_bounds (v : R) (e : Z) (mrs : shr_record) :
  located v e mrs ->
  IZR (shr_m mrs) * bpow e <= v < (IZR (shr_m mrs) + 1) * bpow e.
Proof.
  unfold located. pose proof (bpow_pos e).
  destruct (shr_r mrs), (shr_s mrs); intros Hloc; lra.
Qed.

Lemma shr_1_located (v : R) (e : Z) (mrs : shr_record) :
  (0 <= shr_m mrs)%Z -> located v e mrs ->
  (0 <= shr_m (shr_1 mrs))%Z /\ located v (e + 1) (shr_1 mrs).
Proof.
  destruct mrs as [m r s]. simpl. intros Hm Hloc.
  unfold located in *. simpl in Hloc. rewrite bpow_succ. pose proof (bpow_pos e) as Hpos.
  destruct m as [|p|p]; [|destruct p as [p|p|]|lia]; simpl; (split; [lia|]).
  - destruct r, s; simpl; lra.
  - rewrite Pos2Z.inj_xI, plus_IZR, mult_IZR in Hloc.
    destruct r, s; simpl; lra.
  - rewrite Pos2Z.inj_xO, mult_IZR in Hloc.
    destruct r, s; simpl; lra.
  - destruct r, s; simpl; lra.
Qed.

Lemma shr_located (v : R) (p : positive) :
  forall (e : Z) (mrs : shr_record),
    (0 <= shr_m mrs)%Z -> located v e mrs ->
    (0 <= shr_m (SpecFloat.iter_pos shr_1 p mrs))%Z
    /\ located v (e + Z.pos p) (SpecFloat.iter_pos shr_1 p mrs).
Proof.
  induction p as [p IH|p IH|]; intros e mrs Hm Hloc; simpl.
  - destruct (shr_1_located v e mrs Hm Hloc) as [Hm1 Hloc1].
    destruct (IH _ _ Hm1 Hloc1) as [Hm2 Hloc2].
    destruct (IH _ _ Hm2 Hloc2) as [Hm3 Hloc3].
    split; [exact Hm3|]. now replace (e + Z.pos p~1)%Z with (e + 1 + Z.pos p + Z.pos p)%Z by lia.
  - destruct (IH _ _ Hm Hloc) as [Hm2 Hloc2].
    destruct (IH _ _ Hm2 Hloc2) as [Hm3 Hloc3].
    split; [exact Hm3|]. now replace (e + Z.pos p~0)%Z with (e + Z.pos p + Z.pos p)%Z by lia.
  - apply shr_1_located; assumption.
Qed.

(** The location as the operations give it. *)
Definition located_at (v : R) (m e : Z) (l : location) : Prop :=
  located v e (shr_record_of_loc m l).

Lemma shr_m_of_loc (m : Z) (l : location) : shr_m (shr_record_of_loc m l) = m.
Proof. destruct l as [|[| |]]; reflexivity. Qed.

(** Rounding to nearest moves by at most half a step. *)
Lemma round_located (v : R) (e : Z) (mrs : shr_record) :
  (0 <= shr_m mrs)%Z -> located v e mrs ->
  let m' := round_nearest_even (shr_m mrs) (loc_of_shr_record mrs) in
  (shr_m mrs <= m' <= shr_m mrs + 1)%Z
  /\ Rabs (IZR m' * bpow e - v) <= bpow e / 2
  /\ (shr_r mrs = false -> shr_s mrs = false -> IZR m' * bpow e = v).
Proof.
  destruct mrs as [m r s]. unfold located. simpl. intros Hm Hloc.
  pose proof (bpow_pos e) as Hpos.
  destruct r, s; simpl.
  - split; [lia|]. split; [|discriminate].
    rewrite plus_IZR. apply Rabs_le. lra.
  - destruct (Z.even m); (split; [lia|]); (split; [|discriminate]);
      rewrite ?plus_IZR; apply Rabs_le; lra.
  - split; [lia|]. split; [|discriminate]. apply Rabs_le. lra.
  - split; [lia|]. split; [|intros _ _; lra]. apply Rabs_le. lra.
Qed.

End Binary.

(** *** Rounding to nearest *)

Module Rounding.
Import Binary.
Local Open Scope R_scope.

Definition sign (s : bool) : R := if s then -1 else 1.

Lemma fexp_eq (x : Z) : fexp prec emax x = Z.max (x - 53) (-1074).
Proof. reflexivity. Qed.

Lemma digits_nonneg (m : Z) : (0 <= Zdigits2 m)%Z.
Proof. destruct m; simpl; lia. Qed.

Lemma digits_succ_le (m : Z) : (0 <= m)%Z -> IZR m + 1 <= bpow (Zdigits2 m).
Proof.
  intros Hm. destruct m as [|p|p]; [simpl; unfold bpow; simpl; lra| |lia].
  change (Zdigits2 (Z.pos p)) with (Z.pos (digits2_pos p)).
  destruct (digits_bounds p) as [_ Hlt].
  rewrite (bpow_IZR (Z.pos (digits2_pos p))) in * by lia.
  apply lt_IZR in Hlt. rewrite <- plus_IZR. apply IZR_le. lia.
Qed.

Lemma digits_le (m k : Z) : (0 <= m)%Z -> (0 <= k)%Z -> IZR m < bpow k -> (Zdigits2 m <= k)%Z.
Proof.
  intros Hm Hk Hlt. destruct m as [|p|p]; [simpl; lia| |lia].
  change (Zdigits2 (Z.pos p)) with (Z.pos (digits2_pos p)).
  destruct (digits_bounds p) as [Hle _].
  assert (Hpow : bpow (Z.pos (digits2_pos p) - 1) < bpow k) by lra.
  apply bpow_lt_inv in Hpow. lia.
Qed.

(** The first shift: down to the exponent of the format. *)
Lemma shr_fexp_spec (m e : Z) (l : location) (v : R) :
  (0 <= m)%Z -> located_at v m e l ->
  let E := Z.max e (fexp prec emax (Zdigits2 m + e)) in
  (0 <= shr_m (fst (shr_fexp prec emax m e l)))%Z
  /\ snd (shr_fexp prec emax m e l) = E
  /\ located v E (fst (shr_fexp prec emax m e l))
  /\ ((fexp prec emax (Zdigits2 m + e) <= e)%Z ->
      fst (shr_fexp prec emax m e l) = shr_record_of_loc m l).
Proof.
  intros Hm Hloc E. unfold shr_fexp, shr.
  set (E1 := fexp prec emax (Zdigits2 m + e)) in *.
  assert (Hrec : (0 <= shr_m (shr_record_of_loc m l))%Z) by now rewrite shr_m_of_loc.
  destruct (E1 - e)%Z as [|p|p] eqn:Hk; simpl.
  - assert (E = e) as -> by lia. auto.
  - assert (E = (e + Z.pos p)%Z) as -> by lia.
    destruct (shr_located v p e _ Hrec Hloc) as [Hm' Hloc'].
    split; [exact Hm'|]. split; [reflexivity|]. split; [exact Hloc'|]. lia.
  - assert (E = e) as -> by lia. auto.
Qed.

(** The second shift, after rounding, only makes room for a carry. *)
Lemma shr_fexp_carry (m e : Z) :
  (0 <= m <= 2 ^ 53)%Z -> (-1074 <= e)%Z ->
  (0 <= shr_m (fst (shr_fexp prec emax m e loc_Exact)))%Z
  /\ (snd (shr_fexp prec emax m e loc_Exact) <= e + 1)%Z
  /\ IZR (shr_m (fst (shr_fexp prec emax m e loc_Exact)))
     * bpow (snd (shr_fexp prec emax m e loc_Exact))
     = IZR m * bpow e.
Proof.
  intros Hm He.
  destruct (Z.eq_dec m (2 ^ 53)%Z) as [->|Hne].
  - change (2 ^ 53)%Z with 9007199254740992%Z.
    unfold shr_fexp, shr. change (Zdigits2 9007199254740992) with 54%Z.
    rewrite fexp_eq.
    replace (Z.max (54 + e - 53) (-1074) - e)%Z with 1%Z by lia.
    simpl. split; [lia|]. split; [lia|]. rewrite bpow_succ. lra.
  - assert (Hd : (Zdigits2 m <= 53)%Z).
    { apply digits_le; [lia | lia |]. rewrite (bpow_IZR 53) by lia. apply IZR_lt. lia. }
    pose proof (digits_nonneg m) as Hd0.
    unfold shr_fexp, shr. rewrite fexp_eq.
    destruct (Z.max (Zdigits2 m + e - 53) (-1074) - e)%Z as [|p|p] eqn:Hk; [| lia |];
      simpl; (split; [lia|]); (split; [lia | reflexivity]).
Qed.

(** What [binary_round_aux] returns for a number [v] that lies at
    [(m, e, l)]: a finite number with the sign asked for, at half a
    step of the final exponent from [v]. *)
Lemma round_aux_spec (sx : bool) (m e : Z) (l : location) (v : R) :
  (0 <= m)%Z -> located_at v m e l ->
  let E := Z.max e (fexp prec emax (Zdigits2 m + e)) in
  (E + 1 <= 971)%Z ->
  let r := binary_round_aux prec emax sx m e l in
  finite r = true
  /\ Rabs (SF2R r - sign sx * v) <= bpow (E - 1)
  /\ (l = loc_Exact -> (fexp prec emax (Zdigits2 m + e) <= e)%Z -> SF2R r = sign sx * v).
Proof.
  intros Hm Hloc E HE r.
  destruct (shr_fexp_spec m e l v Hm Hloc) as (Hm1 & He1 & Hloc1 & Hsame).
  fold E in He1, Hloc1.
  unfold r, binary_round_aux.
  destruct (shr_fexp prec emax m e l) as [mrs1 e1]. simpl in Hm1, He1, Hloc1, Hsame.
  subst e1.
  destruct (round_located v E mrs1 Hm1 Hloc1) as (Hm2 & Herr & Hexact).
  set (m2 := round_nearest_even (shr_m mrs1) (loc_of_shr_record mrs1)) in *.
  assert (HE1 : (-1074 <= E /\ Zdigits2 m + e - 53 <= E)%Z).
  { unfold E. rewrite fexp_eq. lia. }
  assert (Hm1' : (shr_m mrs1 < 2 ^ 53)%Z).
  { apply lt_IZR. rewrite <- (bpow_IZR 53) by lia.
    destruct (located_bounds v E mrs1 Hloc1) as [Hlo _].
    destruct (located_bounds v e _ Hloc) as [_ Hhi]. rewrite shr_m_of_loc in Hhi.
    pose proof (digits_succ_le m Hm) as Hd.
    pose proof (bpow_pos e) as Hpe. pose proof (bpow_pos E) as HpE.
    assert (Hv : v < bpow (53 + E)).
    { apply Rlt_le_trans with (bpow (Zdigits2 m + e)); [|apply bpow_le; lia].
      rewrite bpow_add. nra. }
    rewrite bpow_add in Hv. nra. }
  destruct (shr_fexp_carry m2 E ltac:(lia) ltac:(lia)) as (Hm3 & He3 & Hval).
  destruct (shr_fexp prec emax m2 E loc_Exact) as [mrs3 e3]. simpl in Hm3, He3, Hval.
  assert (Hr : finite (match shr_m mrs3 with
                       | 0%Z => S754_zero sx
                       | Z.pos m0 =>
                           if (e3 <=? emax - prec)%Z then S754_finite sx m0 e3
                           else S754_infinity sx
                       | Z.neg _ => S754_nan
                       end) = true
               /\ SF2R (match shr_m mrs3 with
                        | 0%Z => S754_zero sx
                        | Z.pos m0 =>
                            if (e3 <=? emax - prec)%Z then S754_finite sx m0 e3
                            else S754_infinity sx
                        | Z.neg _ => S754_nan
                        end) = sign sx * (IZR m2 * bpow E)).
  { rewrite <- Hval. destruct (shr_m mrs3) as [|q|q]; [| |lia].
    - split; [reflexivity|]. simpl. lra.
    - replace (e3 <=? emax - prec)%Z with true
        by (symmetry; apply Z.leb_le; change (emax - prec)%Z with 971%Z; lia).
      split; [reflexivity|]. simpl. unfold sign. destruct sx; lra. }
  destruct Hr as [Hfin Hreal]. split; [exact Hfin|]. rewrite Hreal. split.
  - rewrite <- Rmult_minus_distr_l, Rabs_mult, bpow_pred.
    replace (Rabs (sign sx)) with 1; [lra|].
    unfold sign. destruct sx; unfold Rabs; destruct (Rcase_abs _); lra.
  - intros -> Hk. rewrite (Hsame Hk) in Hexact. simpl in Hexact.
    now rewrite (Hexact eq_refl eq_refl).
Qed.

End Rounding.

(** *** The operations *)

Module Operations.
Import Binary Rounding.
Local Open Scope R_scope.

(** The unit roundoff and the smallest half step. *)
Definition u : R := bpow (-53).
Definition eta : R := bpow (-1075).

Lemma u_pos : 0 < u.
Proof. apply bpow_pos. Qed.

Lemma eta_pos : 0 < eta.
Proof. apply bpow_pos. Qed.

Lemma Rabs_sign (s : bool) (x : R) : Rabs (sign s * x) = Rabs x.
Proof.
  rewrite Rabs_mult. replace (Rabs (sign s)) with 1; [lra|].
  unfold sign. destruct s; unfold Rabs; destruct (Rcase_abs _); lra.
Qed.

(** Half a step of the format at [m * 2^e] is within the relative
    error [u], or is the smallest half step. *)
Lemma step_bound (m e : Z) (v : R) :
  (0 < m)%Z -> IZR m * bpow e <= v ->
  bpow (fexp prec emax (Zdigits2 m + e) - 1) <= u * v + eta.
Proof.
  intros Hm Hv. rewrite fexp_eq.
  destruct m as [|p|p]; try lia.
  change (Zdigits2 (Z.pos p)) with (Z.pos (digits2_pos p)).
  destruct (digits_bounds p) as [Hlo _].
  pose proof u_pos as Hu. pose proof eta_pos as Heta.
  pose proof (bpow_pos e) as He.
  assert (Hv0 : 0 <= v).
  { apply Rle_trans with (IZR (Z.pos p) * bpow e); [|exact Hv].
    apply Rmult_le_pos; [apply IZR_le; lia | lra]. }
  destruct (Z.max_spec (Z.pos (digits2_pos p) + e - 53) (-1074)) as [[_ ->]|[_ ->]].
  - change (bpow (-1074 - 1)) with eta. nra.
  - replace (Z.pos (digits2_pos p) + e - 53 - 1)%Z
      with (-53 + ((Z.pos (digits2_pos p) - 1) + e))%Z by lia.
    rewrite !bpow_add. fold u.
    assert (bpow (Z.pos (digits2_pos p) - 1) * bpow e <= v) by nra.
    nra.
Qed.

(** A number below [2^970] is rounded at an exponent that the format has. *)
Lemma exponent_bound (m e : Z) (v : R) :
  (0 < m)%Z -> IZR m * bpow e <= v -> v < bpow 970 ->
  (Z.max e (fexp prec emax (Zdigits2 m + e)) + 1 <= 971)%Z.
Proof.
  intros Hm Hv Hlt. rewrite fexp_eq.
  destruct m as [|p|p]; try lia.
  change (Zdigits2 (Z.pos p)) with (Z.pos (digits2_pos p)).
  destruct (digits_bounds p) as [Hlo _]. pose proof (bpow_pos e) as He.
  assert (Hd : (Z.pos (digits2_pos p) - 1 + e < 970)%Z).
  { apply bpow_lt_inv. rewrite bpow_add. nra. }
  lia.
Qed.

(** [m * 2^e] lies on itself. *)
Lemma located_exact (m e : Z) : located_at (IZR m * bpow e) m e loc_Exact.
Proof. reflexivity. Qed.

(** Rounding [m * 2^e], with [m > 0]. *)
Lemma round_exact_spec (sx : bool) (p : positive) (e : Z) :
  IZR (Z.pos p) * bpow e < bpow 970 ->
  let v := IZR (Z.pos p) * bpow e in
  let r := binary_round_aux prec emax sx (Z.pos p) e loc_Exact in
  finite r = true
  /\ Rabs (SF2R r - sign sx * v) <= u * v + eta
  /\ ((fexp prec emax (Zdigits2 (Z.pos p) + e) <= e)%Z -> SF2R r = sign sx * v).
Proof.
  intros Hlt v r.
  pose proof (exponent_bound (Z.pos p) e v ltac:(lia) (Rle_refl _) Hlt) as HE.
  destruct (round_aux_spec sx (Z.pos p) e loc_Exact v ltac:(lia) (located_exact _ _) HE)
    as (Hfin & Herr & Hexact).
  split; [exact Hfin|]. split; [|now apply Hexact].
  pose proof u_pos. pose proof eta_pos.
  assert (Hv : 0 < v) by (apply Rmult_lt_0_compat; [apply IZR_lt; lia | apply bpow_pos]).
  destruct (Z_le_gt_dec (fexp prec emax (Zdigits2 (Z.pos p) + e)) e) as [Hk|Hk].
  - unfold r. rewrite (Hexact eq_refl Hk). rewrite Rminus_diag, Rabs_R0. nra.
  - eapply Rle_trans; [exact Herr|].
    replace (Z.max e (fexp prec emax (Zdigits2 (Z.pos p) + e)))
      with (fexp prec emax (Zdigits2 (Z.pos p) + e)) by lia.
    apply step_bound; [lia | apply Rle_refl].
Qed.

(** *** Multiplication *)

(** The product of two finite numbers. *)
Lemma SFmul_spec (x y : spec_float) :
  finite x = true -> finite y = true ->
  Rabs (SF2R x * SF2R y) < bpow 970 ->
  finite (SFmul prec emax x y) = true
  /\ Rabs (SF2R (SFmul prec emax x y) - SF2R x * SF2R y)
     <= u * Rabs (SF2R x * SF2R y) + eta.
Proof.
  pose proof u_pos as Hu. pose proof eta_pos as Heta.
  destruct x as [sx|sx| |sx mx ex], y as [sy|sy| |sy my ey]; try discriminate;
    intros _ _ Hlt; simpl SFmul;
    try (split; [reflexivity|]; simpl SF2R; rewrite ?Rmult_0_l, ?Rmult_0_r, Rminus_diag,
           Rabs_R0; lra).
  set (v := IZR (Z.pos (mx * my)) * bpow (ex + ey)).
  assert (Hprod : SF2R (S754_finite sx mx ex) * SF2R (S754_finite sy my ey)
                  = sign (xorb sx sy) * v).
  { unfold v. simpl. rewrite Pos2Z.inj_mul, mult_IZR, bpow_add.
    unfold sign. destruct sx, sy; simpl; ring. }
  rewrite Hprod in *. rewrite Rabs_sign in *.
  assert (Hv : 0 < v) by (apply Rmult_lt_0_compat; [apply IZR_lt; lia | apply bpow_pos]).
  rewrite (Rabs_pos_eq v) in * by lra.
  destruct (round_exact_spec (xorb sx sy) (mx * my) (ex + ey) Hlt) as (Hfin & Herr & _).
  split; assumption.
Qed.

(** *** Rounding an integer multiple of [2^e] *)

Lemma iter_xO (p d : positive) : Z.pos (Pos.iter xO p d) = (Z.pos p * 2 ^ Z.pos d)%Z.
Proof.
  induction d as [|d IH] using Pos.peano_ind.
  - simpl. lia.
  - rewrite Pos.iter_succ, Pos2Z.inj_xO, IH, Pos2Z.inj_succ.
    rewrite Z.pow_succ_r by lia. lia.
Qed.

(** Shifting to the left adds digits. *)
Lemma digits_shift (p d : positive) :
  (Zdigits2 (Z.pos p * 2 ^ Z.pos d) = Zdigits2 (Z.pos p) + Z.pos d)%Z.
Proof.
  rewrite <- iter_xO. simpl.
  induction d as [|d IH] using Pos.peano_ind.
  - simpl. lia.
  - rewrite Pos.iter_succ. simpl. rewrite Pos2Z.inj_succ. lia.
Qed.

(** [binary_round] of [p * 2^e]. *)
Lemma binary_round_spec (sx : bool) (p : positive) (e : Z) :
  IZR (Z.pos p) * bpow e < bpow 970 ->
  let v := IZR (Z.pos p) * bpow e in
  let r := binary_round prec emax sx p e in
  finite r = true
  /\ Rabs (SF2R r - sign sx * v) <= u * v + eta
  /\ ((Z.pos p < 2 ^ 53)%Z -> (-1074 <= e)%Z -> SF2R r = sign sx * v).
Proof.
  intros Hlt v r. unfold r, binary_round, shl_align.
  set (E := fexp prec emax (Z.pos (digits2_pos p) + e)).
  assert (Hsmall : (Z.pos p < 2 ^ 53)%Z -> (-1074 <= e)%Z -> (E <= e)%Z).
  { intros Hp He. unfold E. rewrite fexp_eq.
    assert (Hd : (Zdigits2 (Z.pos p) <= 53)%Z).
    { apply digits_le; [lia | lia |]. rewrite (bpow_IZR 53) by lia. now apply IZR_lt. }
    simpl in Hd. lia. }
  destruct (E - e)%Z as [|d|d] eqn:Hk.
  - destruct (round_exact_spec sx p e Hlt) as (Hfin & Herr & Hexact).
    split; [exact Hfin|]. split; [exact Herr|].
    intros _ _. apply Hexact. change (Zdigits2 (Z.pos p)) with (Z.pos (digits2_pos p)).
    fold E. lia.
  - destruct (round_exact_spec sx p e Hlt) as (Hfin & Herr & Hexact).
    split; [exact Hfin|]. split; [exact Herr|].
    intros Hp He. specialize (Hsmall Hp He). lia.
  - assert (Hval : IZR (Z.pos (Pos.iter xO p d)) * bpow E = v).
    { unfold v. rewrite iter_xO, mult_IZR, <- (bpow_IZR (Z.pos d)) by lia.
      replace e with (Z.pos d + E)%Z by lia. rewrite bpow_add. ring. }
    assert (Hlt' : IZR (Z.pos (Pos.iter xO p d)) * bpow E < bpow 970) by now rewrite Hval.
    destruct (round_exact_spec sx (Pos.iter xO p d) E Hlt') as (Hfin & _ & Hexact).
    rewrite Hval in Hexact.
    assert (Hk' : (fexp prec emax (Zdigits2 (Z.pos (Pos.iter xO p d)) + E) <= E)%Z).
    { rewrite iter_xO, digits_shift.
      replace (Zdigits2 (Z.pos p) + Z.pos d + E)%Z with (Z.pos (digits2_pos p) + e)%Z
        by (simpl; lia).
      fold E. lia. }
    split; [exact Hfin|]. rewrite (Hexact Hk').
    split; [|reflexivity].
    rewrite Rminus_diag, Rabs_R0.
    pose proof u_pos. pose proof eta_pos.
    assert (0 < v) by (apply Rmult_lt_0_compat; [apply IZR_lt; lia | apply bpow_pos]).
    nra.
Qed.

(** [binary_normalize] of [M * 2^e]. *)
Lemma binary_normalize_spec (M e : Z) (szero : bool) :
  Rabs (IZR M * bpow e) < bpow 970 ->
  let v := IZR M * bpow e in
  let r := binary_normalize prec emax M e szero in
  finite r = true
  /\ Rabs (SF2R r - v) <= u * Rabs v + eta
  /\ ((Z.abs M < 2 ^ 53)%Z -> (-1074 <= e)%Z -> SF2R r = v).
Proof.
  intros Hlt v r. unfold r, v in *. clear r v.
  pose proof u_pos. pose proof eta_pos. pose proof (bpow_pos e) as He.
  destruct M as [|p|p]; simpl binary_normalize.
  - split; [reflexivity|]. simpl. rewrite Rmult_0_l, Rminus_diag, Rabs_R0.
    split; [lra | reflexivity].
  - assert (Hv : 0 < IZR (Z.pos p) * bpow e)
      by (apply Rmult_lt_0_compat; [apply IZR_lt; lia | lra]).
    rewrite (Rabs_pos_eq (IZR (Z.pos p) * bpow e)) in * by lra.
    destruct (binary_round_spec false p e Hlt) as (Hfin & Herr & Hexact).
    unfold sign in *. rewrite Rmult_1_l in *.
    split; [exact Hfin|]. split; [exact Herr|]. intros Hp. apply Hexact. lia.
  - assert (Hv : 0 < IZR (Z.pos p) * bpow e)
      by (apply Rmult_lt_0_compat; [apply IZR_lt; lia | lra]).
    assert (Hneg : IZR (Z.neg p) * bpow e = - (IZR (Z.pos p) * bpow e)).
    { change (Z.neg p) with (- Z.pos p)%Z. rewrite opp_IZR. ring. }
    rewrite Hneg in *. rewrite Rabs_Ropp in *.
    rewrite (Rabs_pos_eq (IZR (Z.pos p) * bpow e)) in * by lra.
    destruct (binary_round_spec true p e Hlt) as (Hfin & Herr & Hexact).
    unfold sign in *.
    replace (-1 * (IZR (Z.pos p) * bpow e)) with (- (IZR (Z.pos p) * bpow e)) in * by ring.
    split; [exact Hfin|]. split; [exact Herr|]. intros Hp. apply Hexact. lia.
Qed.

(** *** Addition and subtraction *)

(** Aligning a number to a smaller exponent keeps its value. *)
Lemma shl_align_value (m : positive) (e e' : Z) :
  (e' <= e)%Z ->
  IZR (Z.pos (fst (shl_align m e e'))) * bpow e' = IZR (Z.pos m) * bpow e.
Proof.
  intros Hle. unfold shl_align.
  destruct (e' - e)%Z as [|d|d] eqn:Hk; simpl fst.
  - now replace e' with e by lia.
  - lia.
  - rewrite iter_xO, mult_IZR, <- (bpow_IZR (Z.pos d)) by lia.
    replace e with (Z.pos d + e')%Z by lia. rewrite bpow_add. ring.
Qed.

Lemma signed_value (s : bool) (m : positive) (e : Z) :
  IZR (cond_Zopp s (Z.pos m)) * bpow e = SF2R (S754_finite s m e).
Proof. destruct s; simpl; [rewrite opp_IZR|]; ring. Qed.

Lemma aligned_sum (sx sy : bool) (mx my : positive) (ex ey : Z) :
  let ez := Z.min ex ey in
  IZR (cond_Zopp sx (Z.pos (fst (shl_align mx ex ez)))
       + cond_Zopp sy (Z.pos (fst (shl_align my ey ez)))) * bpow ez
  = SF2R (S754_finite sx mx ex) + SF2R (S754_finite sy my ey).
Proof.
  intros ez. rewrite plus_IZR, Rmult_plus_distr_r.
  pose proof (shl_align_value mx ex ez ltac:(lia)) as Hx.
  pose proof (shl_align_value my ey ez ltac:(lia)) as Hy.
  destruct sx, sy; simpl cond_Zopp; simpl SF2R; rewrite ?opp_IZR; lra.
Qed.

Lemma aligned_difference (sx sy : bool) (mx my : positive) (ex ey : Z) :
  let ez := Z.min ex ey in
  IZR (cond_Zopp sx (Z.pos (fst (shl_align mx ex ez)))
       - cond_Zopp sy (Z.pos (fst (shl_align my ey ez)))) * bpow ez
  = SF2R (S754_finite sx mx ex) - SF2R (S754_finite sy my ey).
Proof.
  intros ez. rewrite minus_IZR, Rmult_minus_distr_r.
  pose proof (shl_align_value mx ex ez ltac:(lia)) as Hx.
  pose proof (shl_align_value my ey ez ltac:(lia)) as Hy.
  destruct sx, sy; simpl cond_Zopp; simpl SF2R; rewrite ?opp_IZR; lra.
Qed.

(** The sum of two finite numbers. *)
Lemma SFadd_spec (x y : spec_float) :
  finite x = true -> finite y = true ->
  Rabs (SF2R x + SF2R y) < bpow 970 ->
  finite (SFadd prec emax x y) = true
  /\ Rabs (SF2R (SFadd prec emax x y) - (SF2R x + SF2R y))
     <= u * Rabs (SF2R x + SF2R y) + eta.
Proof.
  pose proof u_pos as Hu. pose proof eta_pos as Heta.
  destruct x as [sx|sx| |sx mx ex], y as [sy|sy| |sy my ey]; try discriminate;
    intros _ _ Hlt.
  - split; [now destruct sx, sy|].
    replace (SF2R (SFadd prec emax (S754_zero sx) (S754_zero sy))) with 0
      by now destruct sx, sy.
    simpl SF2R. rewrite Rplus_0_l, Rminus_diag, Rabs_R0. lra.
  - split; [reflexivity|]. simpl SFadd. simpl (SF2R (S754_zero sx)).
    rewrite Rplus_0_l, Rminus_diag, Rabs_R0.
    pose proof (Rabs_pos (SF2R (S754_finite sy my ey))). nra.
  - split; [reflexivity|]. simpl SFadd. simpl (SF2R (S754_zero sy)).
    rewrite Rplus_0_r, Rminus_diag, Rabs_R0.
    pose proof (Rabs_pos (SF2R (S754_finite sx mx ex))). nra.
  - unfold SFadd. cbv zeta. rewrite <- (aligned_sum sx sy mx my ex ey) in *. cbv zeta in *.
    destruct (binary_normalize_spec _ _ false Hlt) as (Hfin & Herr & _).
    split; assumption.
Qed.

(** The difference of two finite numbers. *)
Lemma SFsub_spec (x y : spec_float) :
  finite x = true -> finite y = true ->
  Rabs (SF2R x - SF2R y) < bpow 970 ->
  finite (SFsub prec emax x y) = true
  /\ Rabs (SF2R (SFsub prec emax x y) - (SF2R x - SF2R y))
     <= u * Rabs (SF2R x - SF2R y) + eta.
Proof.
  pose proof u_pos as Hu. pose proof eta_pos as Heta.
  destruct x as [sx|sx| |sx mx ex], y as [sy|sy| |sy my ey]; try discriminate;
    intros _ _ Hlt.
  - split; [now destruct sx, sy|].
    replace (SF2R (SFsub prec emax (S754_zero sx) (S754_zero sy))) with 0
      by now destruct sx, sy.
    simpl SF2R. rewrite Rminus_diag, Rminus_diag, Rabs_R0. lra.
  - split; [reflexivity|]. simpl SFsub.
    replace (SF2R (S754_finite (negb sy) my ey))
      with (SF2R (S754_zero sx) - SF2R (S754_finite sy my ey))
      by (destruct sy; simpl; ring).
    rewrite Rminus_diag, Rabs_R0.
    pose proof (Rabs_pos (SF2R (S754_zero sx) - SF2R (S754_finite sy my ey))). nra.
  - split; [reflexivity|]. simpl SFsub. simpl (SF2R (S754_zero sy)).
    rewrite Rminus_0_r, Rminus_diag, Rabs_R0.
    pose proof (Rabs_pos (SF2R (S754_finite sx mx ex))). nra.
  - unfold SFsub. cbv zeta. rewrite <- (aligned_difference sx sy mx my ex ey) in *.
    cbv zeta in *.
    destruct (binary_normalize_spec _ _ false Hlt) as (Hfin & Herr & _).
    split; assumption.
Qed.

(** *** Division *)

Lemma step_bound_at (D : Z) (v : R) :
  bpow (D - 1) <= v -> bpow (fexp prec emax D - 1) <= u * v + eta.
Proof.
  intros Hv. rewrite fexp_eq.
  pose proof u_pos as Hu. pose proof eta_pos as Heta. pose proof (bpow_pos (D - 1)).
  destruct (Z.max_spec (D - 53) (-1074)) as [[_ ->]|[_ ->]].
  - change (bpow (-1074 - 1)) with eta. nra.
  - replace (D - 53 - 1)%Z with (-53 + (D - 1))%Z by lia.
    rewrite bpow_add. fold u. nra.
Qed.

(** The remainder [r] of a division by [m2] tells where the quotient
    lies from its integer part [q]. *)
Lemma new_location_located (m2 q r : Z) (e : Z) :
  (0 < m2)%Z -> (0 <= r < m2)%Z ->
  located_at ((IZR q + IZR r / IZR m2) * bpow e) q e (new_location m2 r).
Proof.
  intros Hm2 Hr. pose proof (bpow_pos e) as He.
  assert (Hm : 0 < IZR m2) by (apply IZR_lt; lia).
  set (rho := IZR r / IZR m2).
  assert (Hrho : rho * IZR m2 = IZR r) by (unfold rho; field; lra).
  assert (Hr0 : 0 <= IZR r < IZR m2) by (split; [apply IZR_le | apply IZR_lt]; lia).
  assert (Hcmp : forall c, (2 * r ?= m2)%Z = c ->
            match c with
            | Lt => 2 * rho < 1
            | Eq => 2 * rho = 1
            | Gt => 2 * rho > 1
            end).
  { intros c Hc. destruct (Z.compare_spec (2 * r) m2) as [Heq|Hlt|Hgt]; subst c.
    - apply (f_equal IZR) in Heq. rewrite mult_IZR in Heq. nra.
    - apply IZR_lt in Hlt. rewrite mult_IZR in Hlt. nra.
    - apply IZR_lt in Hgt. rewrite mult_IZR in Hgt. nra. }
  assert (Hpos : r <> 0%Z -> 0 < rho).
  { intros Hne. assert (0 < IZR r) by (apply IZR_lt; lia). nra. }
  assert (Hlt1 : rho < 1) by nra.
  unfold located_at, new_location.
  destruct (Z.eqb_spec r 0) as [Hz|Hne].
  - subst r. replace rho with 0 in * by (unfold rho; rewrite Rdiv_0_l; reflexivity).
    destruct (Z.even m2); unfold located; simpl; lra.
  - specialize (Hpos Hne). apply Z.eqb_neq in Hne.
    destruct (Z.even m2) eqn:Heven.
    + specialize (Hcmp _ eq_refl). unfold new_location_even. rewrite Hne.
      change (Z.pos 2 * r)%Z with (2 * r)%Z.
      destruct (2 * r ?= m2)%Z; unfold located; simpl; nra.
    + assert (Hodd : (2 * r <> m2)%Z).
      { intros Heq. rewrite <- Heq, Z.even_mul in Heven. discriminate. }
      unfold new_location_odd. rewrite Hne.
      change (Z.pos 2 * r + Z.pos 1)%Z with (2 * r + 1)%Z.
      destruct (Z.compare_spec (2 * r + 1) m2) as [Heq|Hlt|Hgt].
      * assert (Hc : (2 * r ?= m2)%Z = Lt) by (apply Z.compare_lt_iff; lia).
        specialize (Hcmp _ Hc). unfold located; simpl; nra.
      * assert (Hc : (2 * r ?= m2)%Z = Lt) by (apply Z.compare_lt_iff; lia).
        specialize (Hcmp _ Hc). unfold located; simpl; nra.
      * assert (Hc : (2 * r ?= m2)%Z = Gt) by (apply Z.compare_gt_iff; lia).
        specialize (Hcmp _ Hc). unfold located; simpl; nra.
Qed.

(** [SFdiv_core_binary] locates the quotient of the two numbers, at an
    exponent not above that of the format. *)
Lemma div_core_spec (m1 m2 : positive) (e1 e2 : Z) :
  let v := (IZR (Z.pos m1) * bpow e1) / (IZR (Z.pos m2) * bpow e2) in
  let D := (Zdigits2 (Z.pos m1) + e1 - (Zdigits2 (Z.pos m2) + e2))%Z in
  let c := SFdiv_core_binary prec emax (Z.pos m1) e1 (Z.pos m2) e2 in
  (0 <= fst (fst c))%Z
  /\ located_at v (fst (fst c)) (snd (fst c)) (snd c)
  /\ (snd (fst c) <= fexp prec emax D)%Z
  /\ bpow (D - 1) <= v.
Proof.
  intros v D c. unfold c, SFdiv_core_binary. fold D.
  set (e' := Z.min (fexp prec emax D) (e1 - e2)).
  set (s := (e1 - e2 - e')%Z).
  set (m' := match s with
             | 0%Z => Z.pos m1
             | Z.pos _ => Z.shiftl (Z.pos m1) s
             | Z.neg _ => 0%Z
             end).
  assert (Hs : (0 <= s)%Z) by (unfold s, e'; lia).
  assert (Hm' : m' = (Z.pos m1 * 2 ^ s)%Z).
  { unfold m'. destruct s as [|p|p]; [lia | now rewrite Z.shiftl_mul_pow2 by lia | lia]. }
  pose proof (Z_div_mod m' (Z.pos m2) ltac:(lia)) as Hdiv.
  destruct (Z.div_eucl m' (Z.pos m2)) as [q r]. destruct Hdiv as [Hqr Hr].
  simpl fst. simpl snd.
  pose proof (bpow_pos e1) as He1. pose proof (bpow_pos e2) as He2.
  pose proof (bpow_pos e') as He'.
  assert (Hm1 : 0 < IZR (Z.pos m1)) by (apply IZR_lt; lia).
  assert (Hm2 : 0 < IZR (Z.pos m2)) by (apply IZR_lt; lia).
  assert (Hq : (0 <= q)%Z).
  { assert (0 <= m')%Z by (rewrite Hm'; apply Z.mul_nonneg_nonneg; [lia|];
                           apply Z.pow_nonneg; lia).
    nia. }
  split; [exact Hq|].
  assert (Hv : v = (IZR q + IZR r / IZR (Z.pos m2)) * bpow e').
  { unfold v. apply (f_equal IZR) in Hqr. rewrite Hm' in Hqr.
    rewrite plus_IZR, !mult_IZR, <- (bpow_IZR s) in Hqr by lia.
    assert (He : bpow e1 = bpow s * bpow e' * bpow e2).
    { rewrite <- !bpow_add. f_equal. unfold s. lia. }
    rewrite He. field_simplify; [|lra|lra]. rewrite Hqr. field. lra. }
  split; [rewrite Hv; apply new_location_located; lia|].
  split; [unfold e'; lia|].
  unfold v, D.
  destruct (digits_bounds m1) as [Hlo1 _]. destruct (digits_bounds m2) as [_ Hhi2].
  change (Zdigits2 (Z.pos m1)) with (Z.pos (digits2_pos m1)).
  change (Zdigits2 (Z.pos m2)) with (Z.pos (digits2_pos m2)).
  set (d1 := Z.pos (digits2_pos m1)) in *. set (d2 := Z.pos (digits2_pos m2)) in *.
  replace (d1 + e1 - (d2 + e2) - 1)%Z with ((d1 - 1) + e1 + - (d2 + e2))%Z by lia.
  rewrite !bpow_add. unfold bpow at 3. rewrite powerRZ_neg'. fold (bpow (d2 + e2)).
  rewrite bpow_add.
  pose proof (bpow_pos (d1 - 1)). pose proof (bpow_pos d2).
  apply Rmult_le_compat.
  - apply Rmult_le_pos; lra.
  - left. apply Rinv_0_lt_compat. nra.
  - nra.
  - apply Rinv_le_contravar; nra.
Qed.

(** The quotient of two finite numbers, the divisor not zero. *)
Lemma SFdiv_spec (x y : spec_float) :
  finite x = true -> finite y = true -> SF2R y <> 0 ->
  Rabs (SF2R x / SF2R y) < bpow 970 ->
  finite (SFdiv prec emax x y) = true
  /\ Rabs (SF2R (SFdiv prec emax x y) - SF2R x / SF2R y)
     <= u * Rabs (SF2R x / SF2R y) + eta.
Proof.
  pose proof u_pos as Hu. pose proof eta_pos as Heta.
  destruct x as [sx|sx| |sx mx ex], y as [sy|sy| |sy my ey]; try discriminate;
    intros _ _ Hy Hlt; try (simpl in Hy; congruence).
  - split; [reflexivity|]. simpl SFdiv. simpl (SF2R (S754_zero _)).
    rewrite Rdiv_0_l, Rminus_diag, Rabs_R0. lra.
  - unfold SFdiv.
    destruct (div_core_spec mx my ex ey) as (Hq & Hloc & He' & Hv).
    destruct (SFdiv_core_binary prec emax (Z.pos mx) ex (Z.pos my) ey) as [[q e'] l].
    simpl fst in *. simpl snd in *.
    set (v := IZR (Z.pos mx) * bpow ex / (IZR (Z.pos my) * bpow ey)) in *.
    set (D := (Zdigits2 (Z.pos mx) + ex - (Zdigits2 (Z.pos my) + ey))%Z) in *.
    pose proof (bpow_pos ex). pose proof (bpow_pos ey).
    assert (Hmx : 0 < IZR (Z.pos mx)) by (apply IZR_lt; lia).
    assert (Hmy : 0 < IZR (Z.pos my)) by (apply IZR_lt; lia).
    assert (Hquot : SF2R (S754_finite sx mx ex) / SF2R (S754_finite sy my ey)
                    = sign (xorb sx sy) * v).
    { unfold v, sign. destruct sx, sy; simpl; field; split; lra. }
    rewrite Hquot in *. rewrite Rabs_sign in *.
    assert (Hv0 : 0 < v).
    { unfold v. apply Rdiv_lt_0_compat; apply Rmult_lt_0_compat; lra. }
    rewrite (Rabs_pos_eq v) in * by lra.
    destruct (located_bounds v e' _ Hloc) as [Hlo _]. rewrite shr_m_of_loc in Hlo.
    assert (HD : (D - 1 < 970)%Z) by (apply bpow_lt_inv; lra).
    assert (HE : (Z.max e' (fexp prec emax (Zdigits2 q + e')) + 1 <= 971)%Z).
    { destruct (Z.eq_dec q 0%Z) as [->|Hne].
      - simpl Zdigits2. rewrite !fexp_eq in *. lia.
      - pose proof (exponent_bound q e' v ltac:(lia) Hlo Hlt) as Hb.
        rewrite !fexp_eq in *. lia. }
    destruct (round_aux_spec (xorb sx sy) q e' l v Hq Hloc HE) as (Hfin & Herr & _).
    split; [exact Hfin|]. eapply Rle_trans; [exact Herr|].
    destruct (Z.max_spec e' (fexp prec emax (Zdigits2 q + e'))) as [[Hlt' ->]|[Hge ->]].
    + destruct (Z.eq_dec q 0%Z) as [->|Hne].
      * simpl Zdigits2 in *. rewrite fexp_eq in *.
        replace (Z.max (0 + e' - 53) (-1074)) with (-1074)%Z by lia.
        change (bpow (-1074 - 1)) with eta. nra.
      * apply step_bound; [lia | exact Hlo].
    + apply Rle_trans with (bpow (fexp prec emax D - 1)); [apply bpow_le; lia|].
      now apply step_bound_at.
Qed.

(** *** Integers *)

(** The integers below [2^53] are binary64 numbers. *)
Lemma integer_exact (z : Z) :
  (0 <= z < 2 ^ 53)%Z ->
  let r := binary_normalize prec emax z 0 false in
  finite r = true /\ SF2R r = IZR z.
Proof.
  intros Hz r.
  assert (Hlt : Rabs (IZR z * bpow 0) < bpow 970).
  { unfold bpow at 1. simpl. rewrite Rmult_1_r, Rabs_pos_eq by (apply IZR_le; lia).
    apply Rlt_le_trans with (bpow 53); [|apply bpow_le; lia].
    rewrite (bpow_IZR 53) by lia. apply IZR_lt. lia. }
  destruct (binary_normalize_spec z 0 false Hlt) as (Hfin & _ & Hexact).
  split; [exact Hfin|]. unfold r. rewrite Hexact by lia.
  unfold bpow. simpl. lra.
Qed.

End Operations.

(** ** Binary64 results and the reals they approximate *)

Module Approx.
Import Binary Rounding Operations.
Local Open Scope R_scope.

(** The real number that a finite binary64 number is. *)
Definition FR (x : float) : R := SF2R (Prim2SF x).

Definition fin (x : float) : Prop := finite (Prim2SF x) = true.

(** [x] is finite and within [e] of the real [r]. *)
Definition approx (x : float) (r e : R) : Prop := fin x /\ Rabs (FR x - r) <= e.

Lemma u_eq : u = / 2 ^ 53.
Proof. reflexivity. Qed.

Lemma eta_le_u : eta <= u.
Proof. apply bpow_le. lia. Qed.

Lemma below_overflow (x : R) : x <= 2 ^ 60 -> x < bpow 970.
Proof.
  intros Hx. apply Rle_lt_trans with (bpow 60); [|apply bpow_lt; lia].
  rewrite (bpow_IZR 60) by lia.
  replace (IZR (2 ^ 60)) with (2 ^ 60); [exact Hx|].
  rewrite pow_IZR. reflexivity.
Qed.

Lemma Rabs_within (x e : R) : Rabs x <= e -> - e <= x <= e.
Proof. unfold Rabs. destruct (Rcase_abs x); lra. Qed.

Lemma approx_exact (x : float) : fin x -> approx x (FR x) 0.
Proof. intros Hx. split; [exact Hx|]. rewrite Rminus_diag, Rabs_R0. lra. Qed.

Lemma approx_weaken (x : float) (r e e' : R) : approx x r e -> e <= e' -> approx x r e'.
Proof. intros [Hf He] Hle. split; [exact Hf | lra]. Qed.

Lemma approx_bound (x : float) (r e M : R) : approx x r e -> Rabs r <= M -> Rabs (FR x) <= M + e.
Proof.
  intros [_ He] Hr. replace (FR x) with (r + (FR x - r)) by lra.
  eapply Rle_trans; [apply Rabs_triang|]. lra.
Qed.

Lemma approx_opp (x : float) (r e : R) : approx x r e -> approx (- x)%float (- r) e.
Proof.
  intros [Hf He]. unfold approx, fin, FR in *. rewrite FloatAxioms.opp_spec.
  destruct (Prim2SF x) as [s|s| |s m ex]; try discriminate; simpl in *.
  - split; [reflexivity|]. replace (0 - - r) with (- (0 - r)) by lra.
    now rewrite Rabs_Ropp.
  - split; [reflexivity|]. destruct s; simpl in *.
    + replace (IZR (Z.pos m) * bpow ex - - r) with (- (- IZR (Z.pos m) * bpow ex - r)) by lra.
      now rewrite Rabs_Ropp.
    + replace (- IZR (Z.pos m) * bpow ex - - r) with (- (IZR (Z.pos m) * bpow ex - r)) by lra.
      now rewrite Rabs_Ropp.
Qed.

Lemma approx_add (a b : float) (ra rb ea eb M : R) :
  approx a ra ea -> approx b rb eb ->
  Rabs (ra + rb) + ea + eb <= M -> M <= 2 ^ 60 ->
  approx (a + b)%float (ra + rb) (ea + eb + u * (M + 1)).
Proof.
  intros [Hfa Hea] [Hfb Heb] HM Hbig. unfold approx, fin, FR in *.
  rewrite FloatAxioms.add_spec. unfold FloatAxioms.SF64add.
  set (x := SF2R (Prim2SF a)) in *. set (y := SF2R (Prim2SF b)) in *.
  assert (Hsum : Rabs (x + y) <= M).
  { replace (x + y) with ((ra + rb) + ((x - ra) + (y - rb))) by lra.
    eapply Rle_trans; [apply Rabs_triang|].
    pose proof (Rabs_triang (x - ra) (y - rb)). lra. }
  destruct (SFadd_spec _ _ Hfa Hfb) as [Hf Herr].
  { apply below_overflow. fold x y. lra. }
  fold x y in Herr. split; [exact Hf|].
  pose proof eta_le_u. pose proof u_pos.
  replace (SF2R (SFadd prec emax (Prim2SF a) (Prim2SF b)) - (ra + rb))
    with ((SF2R (SFadd prec emax (Prim2SF a) (Prim2SF b)) - (x + y))
          + ((x - ra) + (y - rb))) by lra.
  eapply Rle_trans; [apply Rabs_triang|].
  pose proof (Rabs_triang (x - ra) (y - rb)).
  assert (u * Rabs (x + y) <= u * M) by (apply Rmult_le_compat_l; lra).
  lra.
Qed.

Lemma approx_sub (a b : float) (ra rb ea eb M : R) :
  approx a ra ea -> approx b rb eb ->
  Rabs (ra - rb) + ea + eb <= M -> M <= 2 ^ 60 ->
  approx (a - b)%float (ra - rb) (ea + eb + u * (M + 1)).
Proof.
  intros [Hfa Hea] [Hfb Heb] HM Hbig. unfold approx, fin, FR in *.
  rewrite FloatAxioms.sub_spec. unfold FloatAxioms.SF64sub.
  set (x := SF2R (Prim2SF a)) in *. set (y := SF2R (Prim2SF b)) in *.
  assert (Hy : Rabs (rb - y) <= eb) by (rewrite Rabs_minus_sym; exact Heb).
  assert (Hsum : Rabs (x - y) <= M).
  { replace (x - y) with ((ra - rb) + ((x - ra) + (rb - y))) by lra.
    eapply Rle_trans; [apply Rabs_triang|].
    pose proof (Rabs_triang (x - ra) (rb - y)). lra. }
  destruct (SFsub_spec _ _ Hfa Hfb) as [Hf Herr].
  { apply below_overflow. fold x y. lra. }
  fold x y in Herr. split; [exact Hf|].
  pose proof eta_le_u. pose proof u_pos.
  replace (SF2R (SFsub prec emax (Prim2SF a) (Prim2SF b)) - (ra - rb))
    with ((SF2R (SFsub prec emax (Prim2SF a) (Prim2SF b)) - (x - y))
          + ((x - ra) + (rb - y))) by lra.
  eapply Rle_trans; [apply Rabs_triang|].
  pose proof (Rabs_triang (x - ra) (rb - y)).
  assert (u * Rabs (x - y) <= u * M) by (apply Rmult_le_compat_l; lra).
  lra.
Qed.

Lemma approx_mul (a b : float) (ra rb ea eb Ma Mb : R) :
  approx a ra ea -> approx b rb eb ->
  Rabs ra <= Ma -> Rabs rb <= Mb -> ea <= 1 -> eb <= 1 ->
  (Ma + 1) * (Mb + 1) <= 2 ^ 60 ->
  approx (a * b)%float (ra * rb) (ea * (Mb + 1) + Ma * eb + u * ((Ma + 1) * (Mb + 1) + 1)).
Proof.
  intros Ha Hb Hra Hrb Hea1 Heb1 Hbig.
  pose proof (approx_bound _ _ _ _ Ha Hra) as Hx.
  pose proof (approx_bound _ _ _ _ Hb Hrb) as Hy.
  destruct Ha as [Hfa Hea], Hb as [Hfb Heb]. unfold approx, fin, FR in *.
  rewrite FloatAxioms.mul_spec. unfold FloatAxioms.SF64mul.
  set (x := SF2R (Prim2SF a)) in *. set (y := SF2R (Prim2SF b)) in *.
  pose proof (Rabs_pos ra). pose proof (Rabs_pos rb).
  pose proof (Rabs_pos (x - ra)). pose proof (Rabs_pos (y - rb)).
  pose proof (Rabs_pos x). pose proof (Rabs_pos y).
  assert (Hprod : Rabs (x * y) <= (Ma + 1) * (Mb + 1)).
  { rewrite Rabs_mult. apply Rmult_le_compat; lra. }
  destruct (SFmul_spec _ _ Hfa Hfb) as [Hf Herr].
  { apply below_overflow. fold x y. lra. }
  fold x y in Herr. split; [exact Hf|].
  pose proof eta_le_u. pose proof u_pos.
  replace (SF2R (SFmul prec emax (Prim2SF a) (Prim2SF b)) - ra * rb)
    with ((SF2R (SFmul prec emax (Prim2SF a) (Prim2SF b)) - x * y)
          + ((x - ra) * y + ra * (y - rb))) by lra.
  eapply Rle_trans; [apply Rabs_triang|].
  pose proof (Rabs_triang ((x - ra) * y) (ra * (y - rb))) as Ht.
  rewrite !Rabs_mult in Ht.
  assert (Rabs (x - ra) * Rabs y <= ea * (Mb + 1)) by (apply Rmult_le_compat; lra).
  assert (Rabs ra * Rabs (y - rb) <= Ma * eb) by (apply Rmult_le_compat; lra).
  assert (u * Rabs (x * y) <= u * ((Ma + 1) * (Mb + 1))) by (apply Rmult_le_compat_l; lra).
  lra.
Qed.

(** The quotient of two approximations of error at most [2^-25], where
    the divisor is away from zero. *)
Lemma approx_div (a d : float) (N D : R) :
  approx a N (/ 2 ^ 25) -> approx d D (/ 2 ^ 25) ->
  / 2 ^ 23 <= D -> D <= 2 ^ 20 -> Rabs N <= 2 ^ 21 ->
  approx (a / d)%float (N / D) ((1 + Rabs (N / D)) / (2 ^ 23 * D)).
Proof.
  intros [Hfa Hea] [Hfd Hed] HD HD' HN. unfold approx, fin, FR in *.
  rewrite FloatAxioms.div_spec. unfold FloatAxioms.SF64div.
  set (x := SF2R (Prim2SF a)) in *. set (y := SF2R (Prim2SF d)) in *.
  set (e := / 2 ^ 25) in *.
  assert (He : e = / 2 ^ 25) by reflexivity.
  assert (HD0 : 0 < D) by lra.
  assert (Hy : D / 2 <= y).
  { apply Rabs_within in Hed. unfold e in Hed. lra. }
  assert (Hy0 : 0 < y) by lra.
  set (P := Rabs (N / D)).
  assert (HP : P * D = Rabs N).
  { unfold P, Rdiv. rewrite Rabs_mult, Rabs_inv, (Rabs_pos_eq D) by lra. field. lra. }
  assert (HP0 : 0 <= P) by apply Rabs_pos.
  (* the real quotient of the two numbers *)
  set (q := x / y).
  assert (Hq : Rabs (q - N / D) * (y * D) <= e * D + Rabs N * e).
  { replace (q - N / D) with (((x - N) * D - N * (y - D)) / (y * D))
      by (unfold q; field; lra).
    unfold Rdiv at 1. rewrite Rabs_mult, Rabs_inv, (Rabs_pos_eq (y * D)) by nra.
    replace (Rabs ((x - N) * D - N * (y - D)) * / (y * D) * (y * D))
      with (Rabs ((x - N) * D - N * (y - D))) by (field; lra).
    unfold Rminus at 1. eapply Rle_trans; [apply Rabs_triang|].
    rewrite Rabs_Ropp, !Rabs_mult, (Rabs_pos_eq D) by lra.
    pose proof (Rabs_pos N). pose proof (Rabs_pos (x - N)). pose proof (Rabs_pos (y - D)).
    assert (Rabs N * Rabs (y - D) <= Rabs N * e) by (apply Rmult_le_compat_l; lra).
    nra. }
  set (t := Rabs (q - N / D)) in *.
  assert (Ht0 : 0 <= t) by apply Rabs_pos.
  assert (Ht : t * D <= 2 * e * (1 + P)).
  { assert (t * (D / 2 * D) <= t * (y * D)).
    { apply Rmult_le_compat_l; [lra|]. apply Rmult_le_compat_r; lra. }
    assert (t * D * D <= 2 * e * (1 + P) * D) by (rewrite <- HP in Hq; nra).
    apply Rmult_le_reg_r with D; lra. }
  assert (Hqabs : Rabs q <= P + t).
  { replace q with (N / D + (q - N / D)) by lra.
    eapply Rle_trans; [apply Rabs_triang|]. fold P t. lra. }
  assert (HPbig : P <= 2 ^ 44).
  { assert (P * / 2 ^ 23 <= P * D) by (apply Rmult_le_compat_l; lra).
    assert (P * / 2 ^ 23 <= 2 ^ 21) by lra. lra. }
  assert (Htbig : t <= 2 ^ 44).
  { assert (t * / 2 ^ 23 <= t * D) by (apply Rmult_le_compat_l; lra).
    assert (t * / 2 ^ 23 <= 2 * e * (1 + 2 ^ 44)) by nra.
    rewrite He in *. lra. }
  destruct (SFdiv_spec _ _ Hfa Hfd) as [Hf Herr].
  { fold y. lra. }
  { apply below_overflow. fold x y q. lra. }
  fold x y q in Herr. split; [exact Hf|].
  pose proof eta_le_u as Heta. pose proof u_pos as Hu. pose proof u_eq as Hueq.
  replace (SF2R (SFdiv prec emax (Prim2SF a) (Prim2SF d)) - N / D)
    with ((SF2R (SFdiv prec emax (Prim2SF a) (Prim2SF d)) - q) + (q - N / D)) by lra.
  eapply Rle_trans; [apply Rabs_triang|]. fold t.
  assert (Hr : Rabs (SF2R (SFdiv prec emax (Prim2SF a) (Prim2SF d)) - q) <= u * (P + t + 1)).
  { assert (u * Rabs q <= u * (P + t)) by (apply Rmult_le_compat_l; lra). lra. }
  (* multiply the goal by [2^23 * D] *)
  apply Rmult_le_reg_r with (2 ^ 23 * D); [nra|].
  replace ((1 + P) / (2 ^ 23 * D) * (2 ^ 23 * D)) with (1 + P) by (field; lra).
  set (r := Rabs (SF2R (SFdiv prec emax (Prim2SF a) (Prim2SF d)) - q)) in *.
  assert (HrD : r * D <= u * ((1 + P) * D + t * D)) by nra.
  assert (HuD : u * ((1 + P) * D) <= u * ((1 + P) * 2 ^ 20)).
  { apply Rmult_le_compat_l; [lra|]. apply Rmult_le_compat_l; lra. }
  assert (Hut : u * (t * D) <= u * (2 * e * (1 + P))) by (apply Rmult_le_compat_l; lra).
  rewrite Hueq, He in *.
  replace ((r + t) * (2 ^ 23 * D)) with (2 ^ 23 * (r * D) + 2 ^ 23 * (t * D)) by ring.
  lra.
Qed.

(** Small natural numbers are binary64 numbers. *)
Lemma of_nat_exact (n : nat) : (Z.of_nat n < 2 ^ 53)%Z -> approx (JS.of_nat n) (INR n) 0.
Proof.
  intros Hn. unfold approx, fin, FR, JS.of_nat.
  rewrite FloatAxioms.of_uint63_spec, Uint63.of_Z_spec.
  rewrite Z.mod_small by (change Uint63.wB with (2 ^ 63)%Z; lia).
  destruct (integer_exact (Z.of_nat n) ltac:(lia)) as [Hf Hv].
  split; [exact Hf|]. rewrite Hv, <- INR_IZR_INZ, Rminus_diag, Rabs_R0. lra.
Qed.

Lemma approx_zero : approx 0%float 0 0.
Proof. split; [reflexivity|]. unfold FR. simpl. rewrite Rminus_diag, Rabs_R0. lra. Qed.

End Approx.

(** ** Least squares on binary64 numbers *)

Module OmoriFacts.
Import Binary Operations Approx.
Local Open Scope R_scope.

Fixpoint total (l : list R) : R :=
  match l with
  | [] => 0
  | x :: l' => x + total l'
  end.

(** Least squares on points of a line [y = A - p x]. *)
Lemma line_sums {B} (fx fy : B -> R) (A p : R) (L : list B) :
  (forall b, b ∈ L -> fy b = A - p * fx b) ->
  total (map fy L) = INR (length L) * A - p * total (map fx L)
  /\ total (map (fun b => fx b * fy b) L)
     = A * total (map fx L) - p * total (map (fun b => fx b * fx b) L).
Proof.
  induction L as [|b L IH]; intros Hline.
  - simpl. split; lra.
  - destruct IH as [IH1 IH2]; [intros b' Hb'; apply Hline; now right|].
    change (length (b :: L)) with (S (length L)). rewrite S_INR.
    simpl. rewrite IH1, IH2, (Hline b) by now left. split; lra.
Qed.

(** The variation [n * sum x^2 - (sum x)^2] of a list. *)
Definition variation (l : list R) : R :=
  INR (length l) * total (map (fun x => x * x) l) - total l * total l.

Lemma total_bound {B} (h : B -> R) (T : R) (l : list B) :
  (forall b, b ∈ l -> Rabs (h b) <= T) ->
  Rabs (total (map h l)) <= INR (length l) * T.
Proof.
  induction l as [|b l IH]; intros Hb.
  - simpl. rewrite Rabs_R0. lra.
  - change (length (b :: l)) with (S (length l)). rewrite S_INR. simpl.
    eapply Rle_trans; [apply Rabs_triang|].
    specialize (IH ltac:(intros b' Hb'; apply Hb; now right)).
    specialize (Hb b ltac:(now left)). lra.
Qed.

Lemma length_bound (n : nat) : (n <= 64)%nat -> 0 <= INR n <= 64.
Proof.
  intros Hn. split; [apply pos_INR|].
  apply le_INR in Hn. replace 64 with (INR 64); [exact Hn|]. simpl. lra.
Qed.

(** *** Sums *)

(** The error of one step of a sum of at most 64 terms: the terms are
    within [et] of reals of absolute value at most [T]. *)
Definition stepError (T et : R) : R := et + u * (64 * T + 2).

Lemma fold_approx {B} (g : B -> float) (h : B -> R) (T et : R) (l : list B) :
  0 <= T -> 0 <= et -> 64 * stepError T et <= 1 -> 64 * T + 1 <= 2 ^ 60 ->
  (forall b, b ∈ l -> approx (g b) (h b) et /\ Rabs (h b) <= T) ->
  forall (acc : float) (racc : R) (k : nat),
    approx acc racc (INR k * stepError T et) -> Rabs racc <= INR k * T ->
    (k + length l <= 64)%nat ->
    approx (fold_left (fun sum b => (sum + g b)%float) l acc) (racc + total (map h l))
           (INR (k + length l) * stepError T et).
Proof.
  intros HT Het Hsmall Hbig. pose proof u_pos as Hu.
  assert (Hstep : et <= stepError T et) by (unfold stepError; nra).
  induction l as [|b l IH]; intros Hpts acc racc k Hacc Hracc Hlen.
  - simpl. rewrite Nat.add_0_r, Rplus_0_r. exact Hacc.
  - simpl fold_left. simpl map. simpl total. simpl length in *.
    destruct (Hpts b ltac:(now left)) as [Hgb Hhb].
    destruct (length_bound (S k) ltac:(lia)) as [_ Hk]. rewrite S_INR in Hk.
    pose proof (pos_INR k) as Hk0.
    replace (racc + (h b + total (map h l))) with ((racc + h b) + total (map h l)) by lra.
    replace (k + S (length l))%nat with (S k + length l)%nat by lia.
    apply IH.
    + intros b' Hb'. apply Hpts. now right.
    + rewrite S_INR.
      replace ((INR k + 1) * stepError T et)
        with (INR k * stepError T et + et + u * ((64 * T + 1) + 1))
        by (unfold stepError; ring).
      apply approx_add; [exact Hacc | exact Hgb | | lra].
      pose proof (Rabs_triang racc (h b)).
      assert (INR k * T + T <= 64 * T) by nra.
      assert (INR k * stepError T et + stepError T et <= 64 * stepError T et) by nra.
      lra.
    + rewrite S_INR. pose proof (Rabs_triang racc (h b)). lra.
    + lia.
Qed.

(** A sum from [0] of at most 64 terms. *)
Lemma sum_approx {B} (g : B -> float) (h : B -> R) (T et : R) (l : list B) :
  0 <= T -> 0 <= et -> 64 * stepError T et <= 1 -> 64 * T + 1 <= 2 ^ 60 ->
  (length l <= 64)%nat ->
  (forall b, b ∈ l -> approx (g b) (h b) et /\ Rabs (h b) <= T) ->
  approx (fold_left (fun sum b => (sum + g b)%float) l 0%float) (total (map h l))
         (64 * stepError T et).
Proof.
  intros HT Het Hsmall Hbig Hlen Hpts.
  pose proof (fold_approx g h T et l HT Het Hsmall Hbig Hpts 0%float 0 0%nat) as Hsum.
  simpl INR in Hsum. rewrite Rmult_0_l, Rplus_0_l, Rmult_0_l in Hsum.
  specialize (Hsum approx_zero ltac:(rewrite Rabs_R0; lra) Hlen).
  eapply approx_weaken; [exact Hsum|].
  destruct (length_bound _ Hlen). pose proof u_pos.
  apply Rmult_le_compat_r; [unfold stepError; nra | lra].
Qed.

Lemma fold_left_map_floats {B C} (f : float -> C -> float) (g : B -> C)
      (l : list B) (a : float) :
  fold_left f (map g l) a = fold_left (fun sum b => f sum (g b)) l a.
Proof. revert a. induction l as [|b l IH]; intros a; simpl; [reflexivity | apply IH]. Qed.

Lemma combine_map {B C D} (f : B -> C) (g : B -> D) (l : list B) :
  combine (map f l) (map g l) = map (fun b => (f b, g b)) l.
Proof. induction l as [|b l IH]; simpl; [reflexivity | now rewrite IH]. Qed.

(** The sums of the estimators as folds over the points. *)
Lemma sumX_map {B} (xf : B -> float) (l : list B) :
  Omori.sumX Omori.floatArith (map xf l)
  = fold_left (fun sum b => (sum + xf b)%float) l 0%float.
Proof. unfold Omori.sumX. simpl. apply fold_left_map_floats. Qed.

Lemma sumXY_map {B} (xf yf : B -> float) (l : list B) :
  Omori.sumXY Omori.floatArith (map xf l) (map yf l)
  = fold_left (fun sum b => (sum + xf b * yf b)%float) l 0%float.
Proof.
  unfold Omori.sumXY. simpl. rewrite combine_map.
  apply (fold_left_map_floats (fun sum xy => (sum + fst xy * snd xy)%float)).
Qed.

Lemma sumX2_map {B} (xf : B -> float) (l : list B) :
  Omori.sumX2 Omori.floatArith (map xf l)
  = fold_left (fun sum b => (sum + xf b * xf b)%float) l 0%float.
Proof.
  unfold Omori.sumX2. simpl.
  apply (fold_left_map_floats (fun sum x => (sum + x * x)%float)).
Qed.

(** *** The two differences of the slope *)

Section Slope.
Context {B : Type}.
Variables (xf yf : B -> float) (xr yr : B -> R) (l : list B).

(** The numbers of the points are within [2^-47] of reals of absolute
    value at most 16, and there are at most 64 points. *)
Hypothesis Hlen : (length l <= 64)%nat.
Hypothesis Hx : forall b, b ∈ l -> approx (xf b) (xr b) (/ 2 ^ 47) /\ Rabs (xr b) <= 16.
Hypothesis Hy : forall b, b ∈ l -> approx (yf b) (yr b) (/ 2 ^ 47) /\ Rabs (yr b) <= 16.

Lemma sumX_approx :
  approx (Omori.sumX Omori.floatArith (map xf l)) (total (map xr l)) (69760 * u)
  /\ Rabs (total (map xr l)) <= 2 ^ 10.
Proof.
  pose proof u_pos as Hu. pose proof u_eq as Hueq. split.
  - rewrite sumX_map.
    eapply approx_weaken;
      [apply (sum_approx xf xr 16 (/ 2 ^ 47)); try assumption; unfold stepError; lra|].
    unfold stepError. lra.
  - eapply Rle_trans; [apply total_bound; intros b Hb; apply (Hx b Hb)|].
    destruct (length_bound _ Hlen). lra.
Qed.

Lemma product_approx (b : B) :
  b ∈ l ->
  approx (xf b * yf b)%float (xr b * yr b) (2402 * u) /\ Rabs (xr b * yr b) <= 256.
Proof.
  intros Hb. destruct (Hx b Hb) as [Hxa Hxb], (Hy b Hb) as [Hya Hyb].
  pose proof u_pos as Hu. pose proof u_eq as Hueq. split.
  - eapply approx_weaken;
      [apply (approx_mul _ _ _ _ _ _ 16 16 Hxa Hya Hxb Hyb); lra|].
    lra.
  - rewrite Rabs_mult. pose proof (Rabs_pos (xr b)). pose proof (Rabs_pos (yr b)). nra.
Qed.

Lemma sumXY_approx :
  approx (Omori.sumXY Omori.floatArith (map xf l) (map yf l))
         (total (map (fun b => xr b * yr b) l)) (1202432 * u)
  /\ Rabs (total (map (fun b => xr b * yr b) l)) <= 2 ^ 14.
Proof.
  pose proof u_pos as Hu. pose proof u_eq as Hueq. split.
  - rewrite sumXY_map.
    eapply approx_weaken;
      [apply (sum_approx (fun b => (xf b * yf b)%float) (fun b => xr b * yr b) 256 (2402 * u));
       try assumption; try (unfold stepError; lra); apply product_approx|].
    unfold stepError. lra.
  - eapply Rle_trans; [apply total_bound; intros b Hb; apply (product_approx b Hb)|].
    destruct (length_bound _ Hlen). lra.
Qed.

End Slope.

Section Differences.
Context {B : Type}.
Variables (xf yf : B -> float) (xr yr : B -> R) (l : list B).
Hypothesis Hlen : (length l <= 64)%nat.
Hypothesis Hx : forall b, b ∈ l -> approx (xf b) (xr b) (/ 2 ^ 47) /\ Rabs (xr b) <= 16.
Hypothesis Hy : forall b, b ∈ l -> approx (yf b) (yr b) (/ 2 ^ 47) /\ Rabs (yr b) <= 16.

(** [n * sumXY - sumX * sumY] *)
Lemma numerator_approx :
  let N := INR (length l) * total (map (fun b => xr b * yr b) l)
           - total (map xr l) * total (map yr l) in
  approx (JS.of_nat (length l) * Omori.sumXY Omori.floatArith (map xf l) (map yf l)
          - Omori.sumX Omori.floatArith (map xf l) * Omori.sumX Omori.floatArith (map yf l))%float
         N (/ 2 ^ 25)
  /\ Rabs N <= 2 ^ 21.
Proof.
  intros N. pose proof u_pos as Hu. pose proof u_eq as Hueq.
  destruct (sumX_approx xf xr l Hlen Hx) as [Hsx Hbx].
  destruct (sumX_approx yf yr l Hlen Hy) as [Hsy Hby].
  destruct (sumXY_approx xf yf xr yr l Hlen Hx Hy) as [Hsxy Hbxy].
  destruct (length_bound _ Hlen) as [Hn0 Hn].
  assert (Hnf : approx (JS.of_nat (length l)) (INR (length l)) 0).
  { apply of_nat_exact. lia. }
  assert (HnR : Rabs (INR (length l)) <= 64) by (rewrite Rabs_pos_eq; lra).
  pose proof (approx_mul _ _ _ _ _ _ 64 (2 ^ 14) Hnf Hsxy HnR Hbxy
                ltac:(lra) ltac:(lra) ltac:(lra)) as Hleft.
  pose proof (approx_mul _ _ _ _ _ _ (2 ^ 10) (2 ^ 10) Hsx Hsy Hbx Hby
                ltac:(lra) ltac:(lra) ltac:(lra)) as Hright.
  assert (HN : Rabs N <= 2 ^ 21).
  { unfold N, Rminus. eapply Rle_trans; [apply Rabs_triang|].
    rewrite Rabs_Ropp, !Rabs_mult.
    pose proof (Rabs_pos (INR (length l))).
    pose proof (Rabs_pos (total (map (fun b => xr b * yr b) l))).
    pose proof (Rabs_pos (total (map xr l))). pose proof (Rabs_pos (total (map yr l))).
    nra. }
  split; [|exact HN].
  eapply approx_weaken;
    [apply (approx_sub _ _ _ _ _ _ (2 ^ 21 + 1) Hleft Hright); fold N; lra|].
  lra.
Qed.

End Differences.

(** [n * sumX2 - sumX * sumX] *)
Lemma denominator_approx {B} (xf : B -> float) (xr : B -> R) (l : list B) :
  (length l <= 64)%nat ->
  (forall b, b ∈ l -> approx (xf b) (xr b) (/ 2 ^ 47) /\ Rabs (xr b) <= 16) ->
  let D := variation (map xr l) in
  approx (JS.of_nat (length l) * Omori.sumX2 Omori.floatArith (map xf l)
          - Omori.sumX Omori.floatArith (map xf l) * Omori.sumX Omori.floatArith (map xf l))%float
         D (/ 2 ^ 25)
  /\ D <= 2 ^ 20.
Proof.
  intros Hlen Hx D.
  assert (HD : D = INR (length l) * total (map (fun b => xr b * xr b) l)
                   - total (map xr l) * total (map xr l)).
  { unfold D, variation. now rewrite length_map, map_map. }
  destruct (numerator_approx xf xf xr xr l Hlen Hx Hx) as [Happ _].
  cbv zeta in Happ. rewrite <- HD in Happ. split.
  - rewrite sumX2_map, <- sumXY_map. exact Happ.
  - rewrite HD. destruct (sumXY_approx xf xf xr xr l Hlen Hx Hx) as [_ Hb].
    destruct (length_bound _ Hlen) as [Hn0 Hn].
    apply Rabs_within in Hb.
    pose proof (Rle_0_sqr (total (map xr l))) as Hsq. unfold Rsqr in Hsq. nra.
Qed.

(** Small whole numbers as reals. *)
Lemma FR_of_nat (x : float) (n : nat) :
  x = JS.of_nat n -> (Z.of_nat n < 2 ^ 53)%Z -> FR x = INR n.
Proof.
  intros -> Hn. destruct (of_nat_exact n Hn) as [_ He].
  apply Rabs_within in He. lra.
Qed.

Lemma FR_1 : FR 1 = 1.
Proof. rewrite (FR_of_nat 1 1) by (reflexivity || lia). simpl. lra. Qed.

Lemma FR_2 : FR 2 = 2.
Proof. rewrite (FR_of_nat 2 2) by (reflexivity || lia). simpl. lra. Qed.

Lemma FR_3 : FR 3 = 3.
Proof. rewrite (FR_of_nat 3 3) by (reflexivity || lia). simpl. lra. Qed.

Lemma FR_4 : FR 4 = 4.
Proof. rewrite (FR_of_nat 4 4) by (reflexivity || lia). simpl. lra. Qed.

(** *** The decimal logarithm *)

(** The decimal logarithm of a real number, the function that
    [Math.log10] approximates. *)
Definition log10 (x : R) : R := ln x / ln 10.

Lemma ln_10_pos : 0 < ln 10.
Proof. rewrite <- ln_1. apply ln_increasing; lra. Qed.

Lemma log10_pow (n : nat) : log10 (10 ^ n) = INR n.
Proof.
  unfold log10. rewrite ln_pow by lra. pose proof ln_10_pos. field. lra.
Qed.

Lemma log10_le (x y : R) : 0 < x -> x <= y -> log10 x <= log10 y.
Proof.
  intros Hx Hxy. unfold log10. pose proof ln_10_pos.
  apply Rmult_le_compat_r; [left; apply Rinv_0_lt_compat; lra|].
  destruct Hxy as [Hlt| ->]; [left; apply ln_increasing; lra | lra].
Qed.

Lemma log10_range (x : R) : 1 <= x -> x <= 10 ^ 16 -> Rabs (log10 x) <= 16.
Proof.
  intros H1 H16.
  pose proof (log10_le 1 x ltac:(lra) H1) as Hlo.
  pose proof (log10_le x (10 ^ 16) ltac:(lra) H16) as Hhi.
  rewrite log10_pow in Hhi. replace (log10 1) with 0 in Hlo.
  - rewrite Rabs_pos_eq by lra. simpl in Hhi. lra.
  - unfold log10. rewrite ln_1. lra.
Qed.

(** The logarithm of a count on the law [K / (t + offset)^p]. *)
Lemma log10_law (law_K law_p x n : R) :
  0 < law_K -> 0 < x -> n = law_K / Rpower x law_p ->
  log10 n = log10 law_K - law_p * log10 x.
Proof.
  intros HK Hx ->. unfold log10, Rdiv.
  assert (0 < Rpower x law_p) by (unfold Rpower; apply exp_pos).
  rewrite ln_mult by (try assumption; now apply Rinv_0_lt_compat).
  rewrite ln_Rinv by assumption. rewrite ln_Rpower.
  pose proof ln_10_pos. field. lra.
Qed.

(** *** The Omori estimator *)

Definition logDayOf (bin : nat * nat) : R := log10 (INR (fst bin) + 1).
Definition logCountOf (bin : nat * nat) : R := log10 (INR (snd bin)).

(** [Math.log10] returns, for the two numbers of a day bin that the
    code passes to it, a number within [2^-47] of the logarithm. *)
Definition accurate (Math_log10 : float -> float) (bin : nat * nat) : Prop :=
  approx (Math_log10 (JS.of_nat (fst bin) + JS.of_nat 1)%float) (logDayOf bin) (/ 2 ^ 47)
  /\ approx (Math_log10 (JS.of_nat (snd bin))) (logCountOf bin) (/ 2 ^ 47).

(** The day and the count of a bin are at most [10^16]. *)
Definition bounded (bin : nat * nat) : Prop :=
  INR (fst bin) + 1 <= 10 ^ 16 /\ INR (snd bin) <= 10 ^ 16.

(** A number that is the exponent of a power of ten, as its logarithm. *)
Lemma approx_power (x : float) (r : R) (n : nat) :
  x = JS.of_nat n -> (Z.of_nat n < 2 ^ 53)%Z -> r = 10 ^ n ->
  approx x (log10 r) (/ 2 ^ 47).
Proof.
  intros -> Hn ->. rewrite log10_pow.
  eapply approx_weaken; [now apply of_nat_exact | lra].
Qed.

Lemma variation_example :
  variation (map logDayOf [(0, 100); (9, 10); (99, 1)]%nat) = 6.
Proof.
  unfold variation, logDayOf. cbn [map fst length total].
  replace (INR 0 + 1) with (10 ^ 0) by (simpl; lra).
  replace (INR 9 + 1) with (10 ^ 1) by (simpl; lra).
  replace (INR 99 + 1) with (10 ^ 2) by (simpl; lra).
  rewrite !log10_pow. simpl. lra.
Qed.

Section Estimate.
Variable Math_log10 : float -> float.

Definition logDayF (bin : nat * nat) : float :=
  Math_log10 (JS.of_nat (fst bin) + JS.of_nat 1)%float.
Definition logCountF (bin : nat * nat) : float := Math_log10 (JS.of_nat (snd bin)).

Lemma omoriDataOf_map (dayBins : list (nat * nat)) :
  Omori.omoriDataOf Omori.floatArith Math_log10 dayBins
  = map (fun b => Omori.mkPoint (fst b) (snd b) (logDayF b) (logCountF b)) dayBins.
Proof. unfold Omori.omoriDataOf. apply map_ext. now intros [d c]. Qed.

Lemma estimate_unfold (dayBins : list (nat * nat)) :
  (3 <= length dayBins)%nat ->
  Omori.p (Omori.calculateOmoriParameters Omori.floatArith
             (Omori.omoriDataOf Omori.floatArith Math_log10 dayBins))
  = (- (JS.of_nat (length dayBins)
        * Omori.sumXY Omori.floatArith (map logDayF dayBins) (map logCountF dayBins)
        - Omori.sumX Omori.floatArith (map logDayF dayBins)
          * Omori.sumX Omori.floatArith (map logCountF dayBins))
     / (JS.of_nat (length dayBins) * Omori.sumX2 Omori.floatArith (map logDayF dayBins)
        - Omori.sumX Omori.floatArith (map logDayF dayBins)
          * Omori.sumX Omori.floatArith (map logDayF dayBins)))%float.
Proof.
  intros Hlen. rewrite omoriDataOf_map. unfold Omori.calculateOmoriParameters.
  rewrite !length_map. apply Nat.leb_le in Hlen. rewrite Hlen. cbn [Omori.p].
  rewrite !map_map. cbn [Omori.logDay Omori.logCount].
  reflexivity.
Qed.

Lemma estimate_K (bin : nat * nat) (dayBins : list (nat * nat)) :
  (0 < snd bin)%nat ->
  Omori.K (Omori.calculateOmoriParameters Omori.floatArith
             (Omori.omoriDataOf Omori.floatArith Math_log10 (bin :: dayBins)))
  = JS.of_nat (snd bin).
Proof.
  intros Hpos. destruct bin as [d n]. simpl in Hpos.
  unfold Omori.calculateOmoriParameters.
  assert (Hfirst : Omori.firstCount Omori.floatArith
            (Omori.omoriDataOf Omori.floatArith Math_log10 ((d, n) :: dayBins))
            = JS.of_nat n).
  { simpl. destruct n; [lia | reflexivity]. }
  destruct (3 <=? _)%nat; simpl Omori.K; exact Hfirst.
Qed.

(** On at most 64 bins that follow [K / (t + 1)^p], the estimate of [p]
    on binary64 numbers is within [(1 + |p|) / (2^23 D)] of [p], where
    [D] is the variation of the logarithms of the days. *)
Lemma estimate_close (law_K law_p : R) (dayBins : list (nat * nat)) :
  0 < law_K -> (3 <= length dayBins <= 64)%nat ->
  Omori.follows law_K law_p 1 dayBins ->
  Forall bounded dayBins ->
  Forall (accurate Math_log10) dayBins ->
  / 2 ^ 23 <= variation (map logDayOf dayBins) ->
  approx (Omori.p (Omori.calculateOmoriParameters Omori.floatArith
                     (Omori.omoriDataOf Omori.floatArith Math_log10 dayBins)))
         law_p
         ((1 + Rabs law_p) / (2 ^ 23 * variation (map logDayOf dayBins))).
Proof.
  intros HK [Hlen3 Hlen] Hlaw Hbounded Haccurate Hspread.
  rewrite (estimate_unfold dayBins Hlen3).
  unfold Omori.follows in Hlaw. rewrite Forall_forall in Hlaw, Hbounded, Haccurate.
  assert (Hline : forall b, b ∈ dayBins -> logCountOf b = log10 law_K - law_p * logDayOf b).
  { intros [d n] Hb. destruct (Hlaw (d, n) Hb) as [_ Heq]. unfold logCountOf, logDayOf.
    simpl. apply log10_law; [exact HK | pose proof (pos_INR d); lra | exact Heq]. }
  assert (Hx : forall b, b ∈ dayBins ->
            approx (logDayF b) (logDayOf b) (/ 2 ^ 47) /\ Rabs (logDayOf b) <= 16).
  { intros b Hb. split; [apply (Haccurate b Hb)|].
    destruct (Hbounded b Hb) as [Hd _]. apply log10_range; [|exact Hd].
    pose proof (pos_INR (fst b)). lra. }
  assert (Hy : forall b, b ∈ dayBins ->
            approx (logCountF b) (logCountOf b) (/ 2 ^ 47) /\ Rabs (logCountOf b) <= 16).
  { intros b Hb. split; [apply (Haccurate b Hb)|].
    destruct (Hbounded b Hb) as [_ Hc]. apply log10_range; [|exact Hc].
    destruct b as [d n]. destruct (Hlaw (d, n) Hb) as [Hpos _]. cbn [snd].
    replace 1 with (INR 1) by reflexivity. apply le_INR. lia. }
  destruct (numerator_approx logDayF logCountF logDayOf logCountOf dayBins Hlen Hx Hy)
    as [HN HNb].
  destruct (denominator_approx logDayF logDayOf dayBins Hlen Hx) as [HD HDb].
  cbv zeta in HN, HNb, HD, HDb.
  set (D := variation (map logDayOf dayBins)) in *.
  destruct (line_sums logDayOf logCountOf _ _ dayBins Hline) as [Hsy Hsxy].
  set (N := INR (length dayBins) * total (map (fun b => logDayOf b * logCountOf b) dayBins)
            - total (map logDayOf dayBins) * total (map logCountOf dayBins)) in *.
  assert (HNp : N = - law_p * D).
  { unfold N, D, variation. rewrite Hsy, Hsxy, length_map, map_map. ring. }
  assert (Hquot : - N / D = law_p) by (rewrite HNp; field; lra).
  apply approx_opp in HN.
  pose proof (approx_div _ _ _ _ HN HD Hspread HDb ltac:(now rewrite Rabs_Ropp)) as Hdiv.
  now rewrite Hquot in Hdiv.
Qed.

End Estimate.

End OmoriFacts.

Module OmoriTheorems.


Import Approx.
Local Open Scope R_scope.



End OmoriTheorems.

(** ** Further properties of the engine *)

Module EngineTheorems.

(** X1.  DBSCAN on a catalog of distinct events returns, and every
    event is in exactly one cluster or in the noise, never both: the
    noise followed by the clusters is a permutation of the catalog. *)
Theorem dbscan_partition (h : Heap) (points : list loc) (eps : float) (minPts : nat) :
  NoDup points ->
  exists clusters noise,
    DBSCAN.dbscan h points eps minPts = Some (clusters, noise)
    /\ Permutation (noise ++ concat clusters) points.
Proof.
  intros Hnd.
  destruct (DbscanFacts.dbscan_spec h points eps minPts)
    as (clusters & noise & Hrun & Hnd' & Hcover & _).
  exists clusters, noise. split; [exact Hrun|].
  now apply NoDup_Permutation.
Qed.

Lemma dbscan_partition_witness :
  exists clusters noise,
    DBSCAN.dbscan Examples.line [0; 1; 2]%nat 0.5 3 = Some (clusters, noise)
    /\ Permutation (noise ++ concat clusters) [0; 1; 2]%nat.
Proof.
  apply (dbscan_partition Examples.line [0; 1; 2]%nat 0.5 3).
  repeat constructor; set_solver.
Defined.

(** X2.  For the four subtypes and a non-empty array of distinct
    events, [performDeclustering] returns a record whose mainshocks and
    aftershocks are a partition of the caller's catalog. *)
Theorem performDeclustering_partition (Math_pow : float -> float -> float)
        (subType : string) (data : loc) (w : Run.World) :
  subType ∈ PerformFacts.subTypes ->
  arr (Run.heap w) data <> [] ->
  NoDup (arr (Run.heap w) data) ->
  exists out w',
    Declustering.performDeclustering Math_pow subType data w = Some (Run.Normal out, w')
    /\ Permutation (Declustering.mainshocks out ++ Declustering.aftershocks out)
         (arr (Run.heap w) data)
    /\ forall e, e ∈ Declustering.mainshocks out -> e ∉ Declustering.aftershocks out.
Proof.
  intros Hsub Hne Hnd.
  destruct (PerformFacts.performDeclustering_spec Math_pow subType data w Hsub Hne)
    as (out & w' & Hrun & _ & Hpart).
  exists out, w'. split; [exact Hrun | now apply Hpart].
Qed.

Lemma performDeclustering_partition_witness :
  exists out w',
    Declustering.performDeclustering Examples.pow "Gruenthal Declustering Algorithm" 0%nat
      (Run.mkWorld Examples.line (Examples.always 0.5)) = Some (Run.Normal out, w')
    /\ Permutation (Declustering.mainshocks out ++ Declustering.aftershocks out)
         [0; 1; 2]%nat
    /\ forall e, e ∈ Declustering.mainshocks out -> e ∉ Declustering.aftershocks out.
Proof.
  apply (performDeclustering_partition Examples.pow "Gruenthal Declustering Algorithm"
           0%nat (Run.mkWorld Examples.line (Examples.always 0.5))).
  - unfold PerformFacts.subTypes. set_solver.
  - discriminate.
  - repeat constructor; set_solver.
Defined.

(** X3.  On a catalog of one event every strategy returns that event
    as the only mainshock, and no aftershock. *)
Theorem single_event (Math_pow : float -> float -> float) (h : Heap) (event : loc)
        (algorithm : string) :
  algorithm ∈ DeclusterFacts.strategies ->
  Declustering.decluster Math_pow h [event] algorithm = Some (inr ([event], [])).
Proof.
  intros Halg.
  destruct (DeclusterFacts.decluster_spec Math_pow h [event] algorithm Halg)
    as (ms & afs & -> & Hms & Hpart).
  destruct Hpart as [Hperm _]; [apply NoDup_singleton|].
  destruct ms as [|m ms]; [now destruct Hms|].
  pose proof (Permutation_length Hperm) as Hlen. simpl in Hlen.
  rewrite length_app in Hlen.
  destruct ms; [|simpl in Hlen; lia]. destruct afs; [|simpl in Hlen; lia].
  apply Permutation_length_1 in Hperm. now subst m.
Qed.

Lemma single_event_witness :
  Declustering.decluster Examples.pow Examples.single [0%nat] "nnd"
  = Some (inr ([0%nat], [])).
Proof.
  apply (single_event Examples.pow Examples.single 0%nat "nnd").
  unfold DeclusterFacts.strategies. set_solver.
Defined.

(** A swarm: five events at one place within ten minutes, of
    magnitudes 6, 3, 3, 2, 2.  DBSCAN declustering returns the
    magnitude 6 event as the one mainshock and the other four as
    aftershocks. *)
Example swarm_scenario (Math_pow : float -> float -> float) (g : JS.Random) :
  exists out w',
    Declustering.performDeclustering Math_pow "DBSCAN" 0%nat (Run.mkWorld Examples.swarm g)
      = Some (Run.Normal out, w')
    /\ Declustering.mainshocks out = [0%nat]
    /\ Declustering.aftershocks out = [1; 2; 3; 4]%nat.
Proof.
  eexists _, _. split; [vm_compute; reflexivity|]. split; reflexivity.
Qed.

End EngineTheorems.

(** ** More on DBSCAN and on the strategies *)

Module StructureFacts.

(** [m] comes before [a] in [l]. *)
Definition precedes (l : list loc) (m a : loc) : Prop :=
  exists l1 l2 l3, l = l1 ++ m :: l2 ++ a :: l3.

Lemma precedes_cons (x : loc) (l : list loc) (m a : loc) :
  precedes l m a -> precedes (x :: l) m a.
Proof. intros (l1 & l2 & l3 & ->). now exists (x :: l1), l2, l3. Qed.

Lemma precedes_head (m a : loc) (l : list loc) : a ∈ l -> precedes (m :: l) m a.
Proof.
  intros Ha. apply list_elem_of_split in Ha as (l2 & l3 & ->).
  now exists [], l2, l3.
Qed.

Section Dbscan.
Variable h : Heap.
Variable points : list loc.
Variable eps : float.
Variable minPts : nat.

(** An event with fewer than [minPts] events within [eps]. *)
Definition sparse (e : loc) : Prop :=
  length (DBSCAN.getNeighbors h points eps e) < minPts.

Lemma scan_noise (todo : list loc) (st st' : DBSCAN.State) :
  DBSCAN.scan h points eps minPts todo st = Some st' ->
  Forall sparse (DBSCAN.noise st) -> Forall sparse (DBSCAN.noise st').
Proof.
  revert st. induction todo as [|point todo IH]; intros st Hrun Hst;
    cbn [DBSCAN.scan] in Hrun.
  - now inversion Hrun; subst.
  - destruct (has (DBSCAN.visited st) point); [now apply (IH st)|].
    destruct (length (DBSCAN.getNeighbors h points eps point) <? minPts)%nat eqn:Hfew.
    + apply (IH _ Hrun). simpl. apply Forall_app. split; [assumption|].
      constructor; [|constructor]. now apply Nat.ltb_lt in Hfew.
    + destruct (DBSCAN.expand h points eps minPts _ _ _ _) as [[v c]|]; [|discriminate].
      now apply (IH _ Hrun).
Qed.

End Dbscan.

Section Window.
Variable admits : loc -> loc -> bool.

Lemma sweepLater_admitted (test : loc -> bool) (later afs : list loc) :
  exists added,
    Declustering.sweepLater test later afs = afs ++ added
    /\ forall x, x ∈ added -> x ∈ later /\ test x = true.
Proof.
  unfold Declustering.sweepLater. revert afs.
  induction later as [|a later IH]; intros afs; simpl.
  - exists []. rewrite app_nil_r. split; [reflexivity|]. intros x Hx. inversion Hx.
  - destruct (has afs a).
    + destruct (IH afs) as (added & -> & Hin). exists added. split; [reflexivity|].
      intros x Hx. destruct (Hin x Hx). split; [now right | assumption].
    + destruct (test a) eqn:Ha.
      * destruct (IH (afs ++ [a])) as (added & -> & Hin).
        exists (a :: added). rewrite <- app_assoc. split; [reflexivity|].
        intros x Hx. apply elem_of_cons in Hx as [->|Hx]; [split; [now left | assumption]|].
        destruct (Hin x Hx). split; [now right | assumption].
      * destruct (IH afs) as (added & -> & Hin). exists added. split; [reflexivity|].
        intros x Hx. destruct (Hin x Hx). split; [now right | assumption].
Qed.

(** The mainshocks are taken from the catalog in its order, and what
    becomes an aftershock was admitted by a mainshock before it. *)
Lemma windowLoop_structure (events ms afs : list loc) :
  let r := Declustering.windowLoop admits events ms afs in
  (exists more, fst r = ms ++ more /\ sublist more events
                /\ (forall e later, events = e :: later -> e ∉ afs ->
                      exists more', more = e :: more'))
  /\ (forall a, a ∈ snd r ->
        a ∈ afs \/ exists m, m ∈ fst r /\ admits m a = true /\ precedes events m a).
Proof.
  revert ms afs. induction events as [|event later IH]; intros ms afs; simpl.
  - split.
    + exists []. rewrite app_nil_r. split; [reflexivity|]. split; [constructor|].
      intros e later Heq. discriminate.
    + intros a Ha. now left.
  - destruct (has afs event) eqn:Hhas.
    + apply has_spec in Hhas. destruct (IH ms afs) as [(more & Hfst & Hsub & _) Hadm].
      split.
      * exists more. split; [assumption|]. split; [now constructor|].
        intros e l Heq Hn. inversion Heq; subst. contradiction.
      * intros a Ha. destruct (Hadm a Ha) as [Hin|(m & Hm & Hma & Hprec)]; [now left|].
        right. exists m. split; [assumption|]. split; [assumption|].
        now apply precedes_cons.
    + destruct (sweepLater_admitted (admits event) later afs) as (added & Heq & Hadd).
      rewrite Heq.
      destruct (IH (ms ++ [event]) (afs ++ added)) as [(more & Hfst & Hsub & _) Hadm].
      assert (Hfst' : fst (Declustering.windowLoop admits later (ms ++ [event]) (afs ++ added))
                      = ms ++ event :: more) by (rewrite Hfst; now rewrite <- app_assoc).
      split.
      * exists (event :: more). split; [assumption|]. split; [now constructor|].
        intros e l Heq' _. inversion Heq'; subst. now exists more.
      * intros a Ha. destruct (Hadm a Ha) as [Hin|(m & Hm & Hma & Hprec)].
        { apply elem_of_app in Hin as [Hin|Hin]; [now left|]. right.
          destruct (Hadd a Hin) as [Hlater Htest].
          exists event. split; [rewrite Hfst'; set_solver|]. split; [assumption|].
          now apply precedes_head. }
        { right. exists m. split; [assumption|]. split; [assumption|].
          now apply precedes_cons. }
Qed.

End Window.

Section Clusters.
Variable h : Heap.

(** [clusters.forEach] of the dbscan strategy, cluster by cluster. *)
Lemma splitClusters_largest (clusters : list (list loc)) (ms afs : list loc) :
  Forall (fun cluster => cluster <> []) clusters ->
  let r := fold_left (Declustering.splitCluster h) clusters (ms, afs) in
  (forall e, e ∈ ms -> e ∈ fst r) /\ (forall e, e ∈ afs -> e ∈ snd r)
  /\ Forall
       (fun cluster =>
          exists m,
            m ∈ cluster /\ m ∈ fst r
            /\ (forall e, e ∈ cluster ->
                  JS.gt (magnitude (obj h e)) (magnitude (obj h m)) = false)
            /\ (forall e, e ∈ cluster -> e <> m -> e ∈ snd r))
       clusters.
Proof.
  revert ms afs. induction clusters as [|cluster clusters IH]; intros ms afs Hne; simpl.
  - repeat split; auto.
  - apply Forall_cons in Hne as [Hc Hne].
    destruct cluster as [|first rest]; [congruence|].
    unfold Declustering.splitCluster at 2. cbn [fst snd].
    set (m := largestFrom h first (first :: rest)).
    set (others := List.filter (fun event => negb (Nat.eqb event m)) (first :: rest)).
    destruct (IH (ms ++ [m]) (afs ++ others) Hne) as (Hms & Hafs & Hall).
    split; [intros e He; apply Hms; set_solver|].
    split; [intros e He; apply Hafs; set_solver|].
    constructor; [|exact Hall].
    exists m. split.
    { subst m. destruct (largestFrom_elem h first (first :: rest)) as [->|Hin];
        [now left | assumption]. }
    split; [apply Hms; set_solver|]. split.
    { apply largestFrom_max. }
    { intros e He Hneq. apply Hafs. apply elem_of_app. right.
      subst others. apply elem_of_filter_bool. split; [assumption|].
      apply negb_true_iff. now apply Nat.eqb_neq. }
Qed.

End Clusters.
End StructureFacts.

Module StructureTheorems.

(** X4.  [dbscan] labels as noise only events of the catalog that have
    fewer than [minPts] events within [eps] (themselves included): an
    event with a dense neighbourhood is never noise. *)
Theorem noise_is_sparse (h : Heap) (points : list loc) (eps : float) (minPts : nat) :
  exists clusters noise,
    DBSCAN.dbscan h points eps minPts = Some (clusters, noise)
    /\ Forall
         (fun e => e ∈ points
                   /\ length (DBSCAN.getNeighbors h points eps e) < minPts)
         noise.
Proof.
  destruct (DbscanFacts.dbscan_spec h points eps minPts)
    as (clusters & noise & Hrun & _ & Hcover & _).
  exists clusters, noise. split; [exact Hrun|].
  unfold DBSCAN.dbscan in Hrun.
  destruct (DBSCAN.scan h points eps minPts points (DBSCAN.mkState [] [] []))
    as [st|] eqn:Hscan; [|discriminate].
  inversion Hrun; subst.
  pose proof (StructureFacts.scan_noise h points eps minPts _ _ _ Hscan) as Hsparse.
  specialize (Hsparse ltac:(constructor)).
  rewrite Forall_forall in Hsparse. apply Forall_forall. intros e He. split.
  - apply Hcover. apply elem_of_app. now left.
  - now apply Hsparse.
Qed.

(** The admission test of a window strategy. *)
Definition windowOf (Math_pow : float -> float -> float) (h : Heap) (algorithm : string)
  : loc -> loc -> bool :=
  if String.eqb algorithm "nnd" then Declustering.nndAdmits Math_pow h
  else if String.eqb algorithm "gruenthal" then Declustering.gruenthalAdmits Math_pow h
  else Declustering.reasenbergAdmits Math_pow h.

(** X5.  Under nnd, gruenthal and reasenberg the mainshocks are events
    of the catalog in catalog order, the first event of the catalog is
    the first mainshock, and every aftershock passed the admission test
    of a mainshock that comes before it in the catalog. *)
Theorem window_strategies_structure (Math_pow : float -> float -> float) (h : Heap)
        (events : list loc) (algorithm : string) :
  algorithm ∈ [ "nnd"; "gruenthal"; "reasenberg" ]%string ->
  exists mainshocks aftershocks,
    Declustering.decluster Math_pow h events algorithm
      = Some (inr (mainshocks, aftershocks))
    /\ sublist mainshocks events
    /\ head mainshocks = head events
    /\ forall a, a ∈ aftershocks ->
         exists m,
           m ∈ mainshocks
           /\ windowOf Math_pow h algorithm m a = true
           /\ StructureFacts.precedes events m a.
Proof.
  intros Halg.
  assert (Hrun : Declustering.decluster Math_pow h events algorithm
                 = Some (inr (Declustering.windowLoop (windowOf Math_pow h algorithm)
                                events [] []))).
  { repeat (apply elem_of_cons in Halg as [->|Halg]); [| | |inversion Halg];
      reflexivity. }
  rewrite Hrun.
  destruct (StructureFacts.windowLoop_structure (windowOf Math_pow h algorithm) events [] [])
    as [(more & Hfst & Hsub & Hhead) Hadm].
  destruct (Declustering.windowLoop _ events [] []) as [ms afs]. simpl in *. subst ms.
  exists more, afs. split; [reflexivity|]. split; [assumption|]. split.
  - destruct events as [|e later]; [now apply sublist_nil_r in Hsub; subst|].
    destruct (Hhead e later eq_refl) as (more' & ->); [intros Hin; inversion Hin|].
    reflexivity.
  - intros a Ha. destruct (Hadm a Ha) as [Hin|Hm]; [inversion Hin | exact Hm].
Qed.

Lemma window_strategies_structure_witness :
  exists mainshocks aftershocks,
    Declustering.decluster Examples.pow Examples.line [0; 1; 2]%nat "gruenthal"
      = Some (inr (mainshocks, aftershocks))
    /\ sublist mainshocks [0; 1; 2]%nat
    /\ head mainshocks = head [0; 1; 2]%nat
    /\ forall a, a ∈ aftershocks ->
         exists m,
           m ∈ mainshocks
           /\ windowOf Examples.pow Examples.line "gruenthal" m a = true
           /\ StructureFacts.precedes [0; 1; 2]%nat m a.
Proof.
  apply (window_strategies_structure Examples.pow Examples.line [0; 1; 2]%nat "gruenthal").
  set_solver.
Defined.

(** X6.  Under the dbscan strategy every noise event is a mainshock,
    and every cluster has one mainshock among its members: no member of
    the cluster has a magnitude above it, and all the other members of
    the cluster are aftershocks. *)
Theorem dbscan_strategy_mainshocks (Math_pow : float -> float -> float) (h : Heap)
        (events : list loc) :
  exists clusters noise mainshocks aftershocks,
    DBSCAN.dbscan h events 0.5 3 = Some (clusters, noise)
    /\ Declustering.decluster Math_pow h events "dbscan"
       = Some (inr (mainshocks, aftershocks))
    /\ (forall e, e ∈ noise -> e ∈ mainshocks)
    /\ Forall
         (fun cluster =>
            exists m,
              m ∈ cluster /\ m ∈ mainshocks
              /\ (forall e, e ∈ cluster ->
                    JS.gt (magnitude (obj h e)) (magnitude (obj h m)) = false)
              /\ (forall e, e ∈ cluster -> e <> m -> e ∈ aftershocks))
         clusters.
Proof.
  destruct (DbscanFacts.dbscan_spec h events 0.5 3)
    as (clusters & noise & Hrun & _ & _ & Hseed).
  apply (DeclusterFacts.seeded_nonempty h) in Hseed.
  destruct (StructureFacts.splitClusters_largest h clusters noise [] Hseed)
    as (Hms & _ & Hall).
  unfold Declustering.decluster. simpl String.eqb. cbv iota. rewrite Hrun.
  destruct (fold_left (Declustering.splitCluster h) clusters (noise, [])) as [ms afs].
  exists clusters, noise, ms, afs. auto.
Qed.

End StructureTheorems.

(** ** The records returned *)

Module RecordFacts.

Lemma filter_length_Permutation {A} (f : A -> bool) (l l' : list A) :
  Permutation l l' -> length (List.filter f l) = length (List.filter f l').
Proof.
  induction 1 as [|x l l' _ IH|x y l|l l' l'' _ IH1 _ IH2]; simpl.
  - reflexivity.
  - destruct (f x); simpl; now rewrite IH.
  - destruct (f x), (f y); reflexivity.
  - congruence.
Qed.

Lemma countBy_part (h : Heap) (f : Event -> bool) (ms afs sortedData : list loc) :
  Permutation (ms ++ afs) sortedData ->
  Declustering.countBy h f ms <= Declustering.countBy h f sortedData <= length sortedData.
Proof.
  intros Hperm. unfold Declustering.countBy.
  rewrite <- (filter_length_Permutation _ _ _ Hperm), List.filter_app, length_app.
  rewrite <- (Permutation_length Hperm), length_app.
  pose proof (filter_length_le (fun e => f (obj h e)) ms).
  pose proof (filter_length_le (fun e => f (obj h e)) afs). lia.
Qed.

Section Declustering.
Variable Math_pow : float -> float -> float.

(** The fields of the record that do not come from [Math.random()]. *)
Lemma analyse_record (subType algorithm : string) (sortedData ms afs : list loc)
      (w : Run.World) :
  Declustering.algorithmOf subType = Some algorithm ->
  Declustering.decluster Math_pow (Run.heap w) sortedData algorithm = Some (inr (ms, afs)) ->
  exists out w',
    Declustering.analyse Math_pow subType sortedData w = Some (Run.Normal out, w')
    /\ Declustering.mainshocks out
       = Declustering.ensureMainshock (Run.heap w) sortedData ms
    /\ Declustering.aftershocks out = afs
    /\ Declustering.algorithm out = algorithm
    /\ Declustering.totalEvents (Declustering.beforeDeclustering out) = length sortedData
    /\ Declustering.mainshockCount (Declustering.beforeDeclustering out)
       = length (Declustering.mainshocks out)
    /\ Declustering.aftershockCount (Declustering.beforeDeclustering out) = length afs
    /\ Declustering.totalEvents (Declustering.afterDeclustering out)
       = length (Declustering.mainshocks out)
    /\ Declustering.mainshockCount (Declustering.afterDeclustering out)
       = length (Declustering.mainshocks out)
    /\ Declustering.aftershockCount (Declustering.afterDeclustering out) = 0%nat
    /\ Declustering.magnitudeDistribution out
       = Declustering.binBy (Run.heap w) magnitude Declustering.magnitudeRanges
           sortedData (Declustering.mainshocks out)
    /\ Declustering.depthDistribution out
       = Declustering.binBy (Run.heap w) depth Declustering.depthRanges
           sortedData (Declustering.mainshocks out)
    /\ Declustering.cumulativeEvents out
       = Declustering.cumulative (Run.heap w) sortedData (Declustering.mainshocks out).
Proof.
  intros Halg Hrun. unfold Declustering.analyse, Run.bind, Run.getHeap, Run.liftOption.
  rewrite Halg. cbn [Run.heap]. rewrite Hrun. unfold Run.random, Run.ret.
  cbn. eexists _, _. split; [reflexivity|]. cbn. repeat split; reflexivity.
Qed.

End Declustering.

(** The pairs of the double loop over clusters numbered from [s]. *)
Lemma interCluster_pairs (l : list Clustering.Cluster) (s : nat) :
  map Clustering.id l = seq s (length l) ->
  (length (Clustering.interCluster l) * 2 = length l * (length l - 1))%nat
  /\ Forall (fun '(a, b, _) => s <= a /\ a < b /\ (b < s + length l)%nat)
            (Clustering.interCluster l).
Proof.
  revert s. induction l as [|c l IH]; intros s Hids; simpl.
  - split; [reflexivity | constructor].
  - simpl in Hids. injection Hids as Hc Hrest.
    destruct (IH (S s) Hrest) as [Hlen Hall].
    split.
    + rewrite length_app, length_map. rewrite Nat.sub_0_r.
      destruct l as [|c' l']; [reflexivity|]. simpl in *. nia.
    + apply Forall_app. split.
      * apply Forall_forall. intros [[a b] d] Hin.
        apply list_elem_of_In, in_map_iff in Hin as (c2 & Heq & Hc2).
        inversion Heq; subst a b d.
        assert (Hid : In (Clustering.id c2) (seq (S s) (length l))).
        { rewrite <- Hrest. now apply in_map. }
        apply in_seq in Hid. lia.
      * eapply Forall_impl; [exact Hall|]. intros [[a b] d]. simpl. lia.
Qed.

Lemma processClusters_ids (h : Heap) (clusters : list (list loc)) :
  map Clustering.id (Clustering.processClusters h clusters) = seq 1 (length clusters)
  /\ Forall (fun c => Clustering.size c = length (Clustering.events c))
            (Clustering.processClusters h clusters).
Proof.
  unfold Clustering.processClusters.
  assert (Hgen : forall s,
    map Clustering.id
      (map (fun '(i, cluster) => Clustering.processCluster h i cluster)
           (combine (seq s (length clusters)) clusters))
    = seq (s + 1) (length clusters)
    /\ Forall (fun c => Clustering.size c = length (Clustering.events c))
         (map (fun '(i, cluster) => Clustering.processCluster h i cluster)
              (combine (seq s (length clusters)) clusters))).
  { induction clusters as [|c clusters IH]; intros s; simpl.
    - split; [reflexivity | constructor].
    - destruct (IH (S s)) as [Hids Hsizes]. split.
      + f_equal. exact Hids.
      + constructor; [reflexivity | exact Hsizes]. }
  apply (Hgen 0%nat).
Qed.

(** All the fields of the clustering record but the validity metrics. *)
Lemma performClustering_record (subType : string) (data : loc) (w w1 : Run.World)
      (found : list (list loc) * string) :
  Clustering.runAlgorithm subType (arr (Run.heap w) data) w = Some (Run.Normal found, w1) ->
  exists out w',
    Clustering.performClustering subType data w = Some (Run.Normal out, w')
    /\ Clustering.clusters out = Clustering.processClusters (Run.heap w1) (fst found)
    /\ Clustering.interClusterDistances out
       = Clustering.interCluster (Clustering.clusters out)
    /\ Clustering.clusterSizeDistribution out
       = map (fun c => (Clustering.clusterName c, Clustering.size c)) (Clustering.clusters out)
    /\ Clustering.magnitudeDistribution out
       = map (Clustering.magnitudeRow (Run.heap w1) (Clustering.clusters out))
             Clustering.magnitudeRanges
    /\ Clustering.clusterSpread out
       = map (fun c => (Clustering.clusterName c, Clustering.spread (Run.heap w1) c))
             (Clustering.clusters out).
Proof.
  intros Hrun. rewrite ClusteringFacts.performClustering_unfold, Hrun.
  eexists _, _. split; [reflexivity|]. cbn. repeat split; reflexivity.
Qed.

Definition supported : list string := [ "DBSCAN"; "K-means"; "Fuzzy C-means" ]%string.

(** A supported algorithm returns its clusters, on every catalog. *)
Lemma runAlgorithm_supported (subType : string) (points : list loc) (w : Run.World) :
  subType ∈ supported ->
  exists found w1,
    Clustering.runAlgorithm subType points w = Some (Run.Normal found, w1)
    /\ (subType = "DBSCAN"%string ->
        Forall (fun cluster => cluster <> []) (fst found)
        /\ NoDup (concat (fst found))
        /\ forall e, e ∈ concat (fst found) -> e ∈ points)
    /\ (subType <> "DBSCAN"%string ->
        length (fst found) = 4%nat /\ Permutation (concat (fst found)) points).
Proof.
  unfold supported. intros Hin.
  repeat (apply elem_of_cons in Hin as [->|Hin]); [| | |inversion Hin].
  - unfold Clustering.runAlgorithm. cbn [String.eqb Ascii.eqb Bool.eqb].
    unfold Run.bind, Run.getHeap, Run.liftOption, Run.ret.
    destruct (DbscanFacts.dbscan_spec (Run.heap w) points 0.5 3)
      as (clusters & noise & -> & Hnd & Hcover & Hseed).
    eexists _, _. split; [reflexivity|]. simpl. split; [|congruence]. intros _.
    split; [now apply (DeclusterFacts.seeded_nonempty (Run.heap w)) in Hseed|].
    apply NoDup_app in Hnd as (_ & _ & Hnd). split; [exact Hnd|].
    intros e He. apply Hcover. apply elem_of_app. now right.
  - destruct (ClusteringFacts.runAlgorithm_kmeans points w)
      as (clusters & centroids & w1 & _ & Hrun & _ & Hlen & Hperm & _).
    eexists _, _. split; [exact Hrun|]. simpl. split; [discriminate | auto].
  - destruct (ClusteringFacts.runAlgorithm_kmeans points w)
      as (clusters & centroids & w1 & _ & _ & Hrun & Hlen & Hperm & _).
    eexists _, _. split; [exact Hrun|]. simpl. split; [discriminate | auto].
Qed.

Lemma eqb_of_neq (s t : string) : s <> t -> String.eqb s t = false.
Proof. apply String.eqb_neq. Qed.

End RecordFacts.

Module RecordTheorems.

(** X7.  For the four subtypes and a non-empty array of distinct events
    the counts of the declustering record are consistent: [totalEvents]
    before is the size of the catalog and is the sum of the mainshocks
    and the aftershocks, which count the two returned lists; after
    declustering the total is the number of mainshocks, with no
    aftershock; and in every row of the magnitude, depth and cumulative
    distributions [after <= before <= totalEvents]. *)
Theorem declustering_counts (Math_pow : float -> float -> float) (subType : string)
        (data : loc) (w : Run.World) :
  subType ∈ PerformFacts.subTypes ->
  arr (Run.heap w) data <> [] ->
  NoDup (arr (Run.heap w) data) ->
  exists out w',
    Declustering.performDeclustering Math_pow subType data w = Some (Run.Normal out, w')
    /\ let before := Declustering.beforeDeclustering out in
       let after := Declustering.afterDeclustering out in
       let total := length (arr (Run.heap w) data) in
       let bounded := fun {L} (row : L * nat * nat) =>
                        snd row <= snd (fst row) /\ snd (fst row) <= total in
       Declustering.totalEvents before = total
       /\ (Declustering.mainshockCount before + Declustering.aftershockCount before = total)%nat
       /\ Declustering.mainshockCount before = length (Declustering.mainshocks out)
       /\ Declustering.aftershockCount before = length (Declustering.aftershocks out)
       /\ Declustering.totalEvents after = Declustering.mainshockCount before
       /\ Declustering.mainshockCount after = Declustering.mainshockCount before
       /\ Declustering.aftershockCount after = 0%nat
       /\ Forall bounded (Declustering.magnitudeDistribution out)
       /\ Forall bounded (Declustering.depthDistribution out)
       /\ Forall bounded (Declustering.cumulativeEvents out).
Proof.
  intros Hsub Hne Hnd.
  rewrite PerformFacts.performDeclustering_unfold.
  set (sortedData := PerformFacts.sortedDataOf (Run.heap w) data).
  assert (Hperm : Permutation sortedData (arr (Run.heap w) data))
    by apply sortByTime_Permutation.
  assert (Hne' : sortedData <> []).
  { intros Heq. rewrite Heq in Hperm. apply Permutation_nil in Hperm. congruence. }
  replace (length sortedData =? 0)%nat with false
    by (destruct sortedData; [congruence | reflexivity]).
  destruct (PerformFacts.algorithmOf_subTypes subType Hsub) as (algorithm & Halg & Hstrat).
  set (w1 := PerformFacts.sortedWorld w sortedData).
  destruct (DeclusterFacts.decluster_spec Math_pow (Run.heap w1) sortedData algorithm Hstrat)
    as (ms & afs & Hrun & Hms & Hpart).
  destruct (RecordFacts.analyse_record Math_pow subType algorithm sortedData ms afs w1
              Halg Hrun)
    as (out & w' & Hout & Hmain & Haft & _ & Ht & Hm & Ha & Hat & Ham & Haa & Hmd & Hdd & Hce).
  unfold Run.tryCatch. rewrite Hout. exists out, w'. split; [reflexivity|].
  rewrite (PerformFacts.ensureMainshock_keeps _ _ _ (Hms Hne')) in Hmain.
  assert (Hnd' : NoDup sortedData) by now rewrite Hperm.
  destruct (Hpart Hnd') as [Hp _].
  pose proof (Permutation_length Hp) as Hlen. rewrite length_app in Hlen.
  pose proof (Permutation_length Hperm) as Hlen'.
  cbv zeta. rewrite Ht, Hm, Ha, Hat, Ham, Haa, Hmd, Hdd, Hce, Hmain, Haft.
  assert (Hbin : forall (f : Event -> float) ranges,
            Forall (fun row : string * nat * nat =>
                      snd row <= snd (fst row)
                      /\ snd (fst row) <= length (arr (Run.heap w) data))
                   (Declustering.binBy (Run.heap w1) f ranges sortedData ms)).
  { intros f ranges. unfold Declustering.binBy. apply Forall_forall. intros row Hrow.
    apply list_elem_of_In, in_map_iff in Hrow as (r & <- & _). simpl.
    rewrite <- Hlen'. apply (RecordFacts.countBy_part _ _ ms afs). exact Hp. }
  repeat split; try lia; try apply Hbin.
  unfold Declustering.cumulative. apply Forall_forall. intros row Hrow.
  apply list_elem_of_In, in_map_iff in Hrow as (i & <- & _). simpl.
  rewrite <- Hlen'. apply (RecordFacts.countBy_part _ _ ms afs). exact Hp.
Qed.

Lemma declustering_counts_witness :
  exists out w',
    Declustering.performDeclustering Examples.pow "DBSCAN" 0%nat
      (Run.mkWorld Examples.line (Examples.always 0.5)) = Some (Run.Normal out, w')
    /\ let before := Declustering.beforeDeclustering out in
       let after := Declustering.afterDeclustering out in
       let total := length [0; 1; 2]%nat in
       let bounded := fun {L} (row : L * nat * nat) =>
                        snd row <= snd (fst row) /\ snd (fst row) <= total in
       Declustering.totalEvents before = total
       /\ (Declustering.mainshockCount before + Declustering.aftershockCount before = total)%nat
       /\ Declustering.mainshockCount before = length (Declustering.mainshocks out)
       /\ Declustering.aftershockCount before = length (Declustering.aftershocks out)
       /\ Declustering.totalEvents after = Declustering.mainshockCount before
       /\ Declustering.mainshockCount after = Declustering.mainshockCount before
       /\ Declustering.aftershockCount after = 0%nat
       /\ Forall bounded (Declustering.magnitudeDistribution out)
       /\ Forall bounded (Declustering.depthDistribution out)
       /\ Forall bounded (Declustering.cumulativeEvents out).
Proof.
  apply (declustering_counts Examples.pow "DBSCAN" 0%nat
           (Run.mkWorld Examples.line (Examples.always 0.5))).
  - unfold PerformFacts.subTypes. set_solver.
  - discriminate.
  - repeat constructor; set_solver.
Defined.

(** X8.  For each of the three supported algorithms [performClustering]
    returns a record on every catalog, the empty one included.  Its [m]
    clusters are numbered 1 to [m], the size of each is the number of
    its events, the size distribution and the spread have one entry for
    each cluster and every row of the magnitude distribution one count
    for each, and the inter-cluster distances are those of the
    [m (m - 1) / 2] pairs [cluster1 < cluster2]. *)
Theorem clustering_record_shape (subType : string) (data : loc) (w : Run.World) :
  subType ∈ RecordFacts.supported ->
  exists out w',
    Clustering.performClustering subType data w = Some (Run.Normal out, w')
    /\ let m := length (Clustering.clusters out) in
       map Clustering.id (Clustering.clusters out) = seq 1 m
       /\ Forall (fun c => Clustering.size c = length (Clustering.events c))
                 (Clustering.clusters out)
       /\ map snd (Clustering.clusterSizeDistribution out)
          = map Clustering.size (Clustering.clusters out)
       /\ length (Clustering.clusterSpread out) = m
       /\ Forall (fun row => length (snd row) = m) (Clustering.magnitudeDistribution out)
       /\ (length (Clustering.interClusterDistances out) * 2 = m * (m - 1))%nat
       /\ Forall (fun '(cluster1, cluster2, _) =>
                    1 <= cluster1 /\ cluster1 < cluster2 /\ cluster2 <= m)
                 (Clustering.interClusterDistances out).
Proof.
  intros Hsub.
  destruct (RecordFacts.runAlgorithm_supported subType (arr (Run.heap w) data) w Hsub)
    as (found & w1 & Hrun & _).
  destruct (RecordFacts.performClustering_record _ _ _ _ _ Hrun)
    as (out & w' & Hout & Hcl & Hinter & Hsizes & Hmag & Hspread).
  exists out, w'. split; [exact Hout|]. cbv zeta.
  destruct (RecordFacts.processClusters_ids (Run.heap w1) (fst found)) as [Hids Hsz].
  rewrite <- Hcl in Hids, Hsz.
  assert (Hm : length (Clustering.clusters out) = length (fst found))
    by (rewrite Hcl; apply ClusteringFacts.processClusters_length).
  rewrite <- Hm in Hids.
  destruct (RecordFacts.interCluster_pairs (Clustering.clusters out) 1 Hids) as [Hlen Hpairs].
  rewrite Hinter, Hsizes, Hmag, Hspread.
  split; [exact Hids|]. split; [exact Hsz|].
  split; [rewrite map_map; reflexivity|].
  split; [apply length_map|]. split.
  - apply Forall_forall. intros row Hrow.
    apply list_elem_of_In, in_map_iff in Hrow as ([[range lo] hi] & <- & _).
    simpl. apply length_map.
  - split; [exact Hlen|].
    eapply Forall_impl; [exact Hpairs|]. intros [[a b] d]. simpl. lia.
Qed.

Lemma clustering_record_shape_witness :
  exists out w',
    Clustering.performClustering "DBSCAN" 0%nat
      (Run.mkWorld Examples.empty (Examples.always 0.5)) = Some (Run.Normal out, w')
    /\ let m := length (Clustering.clusters out) in
       map Clustering.id (Clustering.clusters out) = seq 1 m
       /\ Forall (fun c => Clustering.size c = length (Clustering.events c))
                 (Clustering.clusters out)
       /\ map snd (Clustering.clusterSizeDistribution out)
          = map Clustering.size (Clustering.clusters out)
       /\ length (Clustering.clusterSpread out) = m
       /\ Forall (fun row => length (snd row) = m) (Clustering.magnitudeDistribution out)
       /\ (length (Clustering.interClusterDistances out) * 2 = m * (m - 1))%nat
       /\ Forall (fun '(cluster1, cluster2, _) =>
                    1 <= cluster1 /\ cluster1 < cluster2 /\ cluster2 <= m)
                 (Clustering.interClusterDistances out).
Proof.
  apply (clustering_record_shape "DBSCAN" 0%nat
           (Run.mkWorld Examples.empty (Examples.always 0.5))).
  unfold RecordFacts.supported. set_solver.
Defined.

(** X9.  The sizes of the clusters returned.  Under "DBSCAN" every
    cluster of the record has at least one event, no event is in two
    clusters, and all are events of the catalog; under "K-means" and
    "Fuzzy C-means" there are four clusters and their sizes add up to
    the size of the catalog. *)
Theorem cluster_sizes (subType : string) (data : loc) (w : Run.World) :
  subType ∈ RecordFacts.supported ->
  exists out w',
    Clustering.performClustering subType data w = Some (Run.Normal out, w')
    /\ let events := map Clustering.events (Clustering.clusters out) in
       let sizes := map Clustering.size (Clustering.clusters out) in
       (subType = "DBSCAN"%string ->
        Forall (fun size => 1 <= size) sizes
        /\ NoDup (concat events)
        /\ forall e, e ∈ concat events -> e ∈ arr (Run.heap w) data)
       /\ (subType <> "DBSCAN"%string ->
           length sizes = 4%nat /\ list_sum sizes = length (arr (Run.heap w) data)).
Proof.
  intros Hsub.
  destruct (RecordFacts.runAlgorithm_supported subType (arr (Run.heap w) data) w Hsub)
    as (found & w1 & Hrun & Hdb & Hkm).
  destruct (RecordFacts.performClustering_record _ _ _ _ _ Hrun)
    as (out & w' & Hout & Hcl & _).
  exists out, w'. split; [exact Hout|]. cbv zeta.
  rewrite Hcl, ClusteringFacts.processClusters_events.
  assert (Hsizes : map Clustering.size (Clustering.processClusters (Run.heap w1) (fst found))
                   = map (@length loc) (fst found)).
  { destruct (RecordFacts.processClusters_ids (Run.heap w1) (fst found)) as [_ Hsz].
    rewrite <- (ClusteringFacts.processClusters_events (Run.heap w1) (fst found)) at 2.
    rewrite map_map. apply map_ext_in. intros c Hc.
    rewrite Forall_forall in Hsz. apply Hsz. now apply list_elem_of_In. }
  rewrite Hsizes. split.
  - intros Heq. destruct (Hdb Heq) as (Hne & Hnd & Hin).
    split; [|split; assumption].
    apply Forall_forall. intros n Hn.
    apply list_elem_of_In, in_map_iff in Hn as (c & <- & Hc).
    rewrite Forall_forall in Hne. specialize (Hne c ltac:(now apply list_elem_of_In)).
    destruct c; [congruence | simpl; lia].
  - intros Hneq. destruct (Hkm Hneq) as [Hlen Hperm].
    split; [now rewrite length_map|].
    rewrite <- (Permutation_length Hperm). clear.
    induction (fst found) as [|c l IH]; simpl; [reflexivity|].
    rewrite length_app, IH. reflexivity.
Qed.

Lemma cluster_sizes_witness :
  exists out w',
    Clustering.performClustering "K-means" 0%nat
      (Run.mkWorld Examples.line (Examples.always 0.5)) = Some (Run.Normal out, w')
    /\ let events := map Clustering.events (Clustering.clusters out) in
       let sizes := map Clustering.size (Clustering.clusters out) in
       ("K-means"%string = "DBSCAN"%string ->
        Forall (fun size => 1 <= size) sizes
        /\ NoDup (concat events)
        /\ forall e, e ∈ concat events -> e ∈ [0; 1; 2]%nat)
       /\ ("K-means"%string <> "DBSCAN"%string ->
           length sizes = 4%nat /\ list_sum sizes = length [0; 1; 2]%nat).
Proof.
  apply (cluster_sizes "K-means" 0%nat (Run.mkWorld Examples.line (Examples.always 0.5))).
  unfold RecordFacts.supported. set_solver.
Defined.

(** X10.  With a subtype that is none of "DBSCAN", "K-means" and
    "Fuzzy C-means", [performClustering] throws
    [Error("Clustering error: Unsupported clustering algorithm: " + subType)]
    and touches neither the heap nor the random source. *)
Theorem clustering_unsupported (subType : string) (data : loc) (w : Run.World) :
  subType ∉ RecordFacts.supported ->
  Clustering.performClustering subType data w
  = Some (Run.Throw
            (JS.Error ("Clustering error: Unsupported clustering algorithm: " ++ subType)),
          w).
Proof.
  unfold RecordFacts.supported. intros Hnot.
  rewrite ClusteringFacts.performClustering_unfold. unfold Clustering.runAlgorithm.
  rewrite !RecordFacts.eqb_of_neq by (intros ->; apply Hnot; set_solver).
  reflexivity.
Qed.

Lemma clustering_unsupported_witness :
  Clustering.performClustering "OPTICS" 0%nat
    (Run.mkWorld Examples.line (Examples.always 0.5))
  = Some (Run.Throw
            (JS.Error "Clustering error: Unsupported clustering algorithm: OPTICS"),
          Run.mkWorld Examples.line (Examples.always 0.5)).
Proof.
  apply (clustering_unsupported "OPTICS" 0%nat
           (Run.mkWorld Examples.line (Examples.always 0.5))).
  unfold RecordFacts.supported. intros Hin.
  repeat (apply elem_of_cons in Hin as [Hin|Hin]; [discriminate|]). inversion Hin.
Defined.

(** X11.  On a non-empty catalog, with a subtype that is none of the
    four declustering subtypes, [performDeclustering] throws
    [Error("Declustering error: Unsupported declustering algorithm: " + subType)]. *)
Theorem declustering_unsupported (Math_pow : float -> float -> float) (subType : string)
        (data : loc) (w : Run.World) :
  subType ∉ PerformFacts.subTypes ->
  arr (Run.heap w) data <> [] ->
  exists w',
    Declustering.performDeclustering Math_pow subType data w
    = Some (Run.Throw
              (JS.Error ("Declustering error: Unsupported declustering algorithm: "
                         ++ subType)),
            w').
Proof.
  unfold PerformFacts.subTypes. intros Hnot Hne.
  rewrite PerformFacts.performDeclustering_unfold.
  set (sortedData := PerformFacts.sortedDataOf (Run.heap w) data).
  assert (Hperm : Permutation sortedData (arr (Run.heap w) data))
    by apply sortByTime_Permutation.
  replace (length sortedData =? 0)%nat with false.
  2:{ destruct sortedData; [|reflexivity]. apply Permutation_nil in Hperm. congruence. }
  unfold Run.tryCatch, Declustering.analyse, Run.bind, Run.getHeap,
    Declustering.algorithmOf.
  rewrite !RecordFacts.eqb_of_neq by (intros ->; apply Hnot; set_solver).
  eexists. reflexivity.
Qed.

Lemma declustering_unsupported_witness :
  exists w',
    Declustering.performDeclustering Examples.pow "Window Method" 0%nat
      (Run.mkWorld Examples.line (Examples.always 0.5))
    = Some (Run.Throw
              (JS.Error "Declustering error: Unsupported declustering algorithm: Window Method"),
            w').
Proof.
  apply (declustering_unsupported Examples.pow "Window Method" 0%nat
           (Run.mkWorld Examples.line (Examples.always 0.5))).
  - unfold PerformFacts.subTypes. intros Hin.
    repeat (apply elem_of_cons in Hin as [Hin|Hin]; [discriminate|]). inversion Hin.
  - discriminate.
Defined.

End RecordTheorems.

(** ** More on the ordering of binary64 numbers *)

Module NumberFacts.

Ltac compare_cases :=
  repeat match goal with s : bool |- _ => destruct s end;
  simpl; try discriminate; try reflexivity;
  repeat match goal with
    | |- context [Z.compare ?x ?y] => destruct (Z.compare_spec x y); subst
    | H : context [Z.compare ?x ?y] |- _ => destruct (Z.compare_spec x y); subst
    | |- context [Pos.compare_cont Eq ?x ?y] =>
        change (Pos.compare_cont Eq x y) with (Pos.compare x y);
        destruct (Pos.compare_spec x y); subst
    | H : context [Pos.compare_cont Eq ?x ?y] |- _ =>
        change (Pos.compare_cont Eq x y) with (Pos.compare x y) in H;
        destruct (Pos.compare_spec x y); subst
    | |- context [Pos.compare ?x ?y] => destruct (Pos.compare_spec x y); subst
    | H : context [Pos.compare ?x ?y] |- _ => destruct (Pos.compare_spec x y); subst
    end; simpl in *; try discriminate; try reflexivity; try lia.

Lemma SFleb_ltb_trans (a b c : spec_float) :
  SFleb a b = true -> SFltb b c = true -> SFltb a c = true.
Proof.
  unfold SFleb, SFltb.
  destruct a as [sa|sa| |sa ma ea], b as [sb|sb| |sb mb eb], c as [sc|sc| |sc mc ec];
    simpl; try discriminate; try reflexivity; compare_cases.
Qed.

(** If [a <= b] and [b < c] then [a < c]. *)
Lemma leb_ltb_trans (a b c : float) :
  (a <=? b) = true -> (b <? c) = true -> (a <? c) = true.
Proof. rewrite FloatAxioms.leb_spec, !FloatAxioms.ltb_spec. apply SFleb_ltb_trans. Qed.

Lemma nan_spec (a : float) : is_nan a = true -> Prim2SF a = S754_nan.
Proof.
  unfold is_nan. rewrite FloatAxioms.eqb_spec. unfold SFeqb.
  destruct (Prim2SF a) as [s|s| |s m e]; [| |reflexivity|];
    unfold SFcompare; destruct s; try discriminate;
    rewrite Z.compare_refl, Pos.compare_cont_refl; discriminate.
Qed.

(** NaN is below nothing. *)
Lemma ltb_nan (a b : float) : is_nan a = true -> (a <? b) = false.
Proof. intros Hnan. rewrite FloatAxioms.ltb_spec, (nan_spec a Hnan). reflexivity. Qed.

Lemma SFeqb_sym (a b : spec_float) : SFeqb a b = SFeqb b a.
Proof.
  unfold SFeqb.
  destruct a as [sa|sa| |sa ma ea], b as [sb|sb| |sb mb eb];
    simpl; try reflexivity; compare_cases.
Qed.

Lemma SFeqb_trans (a b c : spec_float) :
  SFeqb a b = true -> SFeqb b c = true -> SFeqb a c = true.
Proof.
  unfold SFeqb.
  destruct a as [sa|sa| |sa ma ea], b as [sb|sb| |sb mb eb], c as [sc|sc| |sc mc ec];
    simpl; try discriminate; try reflexivity; compare_cases.
Qed.

Lemma eqb_sym (a b : float) : (a =? b) = (b =? a).
Proof. rewrite !FloatAxioms.eqb_spec. apply SFeqb_sym. Qed.

Lemma eqb_trans (a b c : float) : (a =? b) = true -> (b =? c) = true -> (a =? c) = true.
Proof. rewrite !FloatAxioms.eqb_spec. apply SFeqb_trans. Qed.

Lemma eqb_nan (a b : float) : is_nan a = true -> (a =? b) = false.
Proof. intros Hnan. rewrite FloatAxioms.eqb_spec, (nan_spec a Hnan). reflexivity. Qed.

End NumberFacts.

(** ** The Gutenberg-Richter table *)

Module EdaFacts.

Lemma eqb_not_nan (a b : float) : (a =? b) = true -> is_nan a = false /\ is_nan b = false.
Proof.
  intros Heq. split.
  - destruct (is_nan a) eqn:Hnan; [|reflexivity].
    rewrite (NumberFacts.eqb_nan a b Hnan) in Heq. discriminate.
  - destruct (is_nan b) eqn:Hnan; [|reflexivity].
    rewrite NumberFacts.eqb_sym, (NumberFacts.eqb_nan b a Hnan) in Heq. discriminate.
Qed.

Lemma sameKey_refl (a : float) : EDA.sameKey a a = true.
Proof. unfold EDA.sameKey, is_nan. destruct (a =? a); reflexivity. Qed.

Lemma sameKey_sym (a b : float) : EDA.sameKey a b = EDA.sameKey b a.
Proof. unfold EDA.sameKey. now rewrite NumberFacts.eqb_sym, andb_comm. Qed.

Lemma sameKey_trans (a b c : float) :
  EDA.sameKey a b = true -> EDA.sameKey b c = true -> EDA.sameKey a c = true.
Proof.
  unfold EDA.sameKey. intros Hab Hbc.
  apply orb_true_iff in Hab as [Hab|Hab]; apply orb_true_iff in Hbc as [Hbc|Hbc].
  - now rewrite (NumberFacts.eqb_trans a b c).
  - apply eqb_not_nan in Hab as [_ Hb]. rewrite Hb in Hbc. discriminate.
  - apply eqb_not_nan in Hbc as [Hb _]. rewrite Hb, andb_false_r in Hab. discriminate.
  - apply andb_true_iff in Hab as [-> _]. apply andb_true_iff in Hbc as [_ ->].
    apply orb_true_r.
Qed.

(** Numbers of the same key have the same key as the same numbers. *)
Lemma sameKey_congr (a b c : float) :
  EDA.sameKey a b = true -> EDA.sameKey a c = EDA.sameKey b c.
Proof.
  intros Hab.
  destruct (EDA.sameKey a c) eqn:Hac, (EDA.sameKey b c) eqn:Hbc; try reflexivity.
  - rewrite sameKey_sym in Hab. now rewrite (sameKey_trans b a c Hab Hac) in Hbc.
  - now rewrite (sameKey_trans a b c Hab Hbc) in Hac.
Qed.

Lemma sameKey_congr_r (a b c : float) :
  EDA.sameKey a b = true -> EDA.sameKey c a = EDA.sameKey c b.
Proof. intros Hab. rewrite (sameKey_sym c a), (sameKey_sym c b). now apply sameKey_congr. Qed.

Lemma keyNumber_same (a : float) : EDA.sameKey (EDA.keyNumber a) a = true.
Proof.
  unfold EDA.keyNumber. destruct (a =? 0) eqn:Hzero; [|apply sameKey_refl].
  unfold EDA.sameKey. now rewrite NumberFacts.eqb_sym, Hzero.
Qed.

(** Keys of which no two are the same. *)
Fixpoint distinct (l : list float) : Prop :=
  match l with
  | [] => True
  | key :: rest => Forall (fun key' => EDA.sameKey key key' = false) rest /\ distinct rest
  end.

Lemma distinct_Permutation (l l' : list float) :
  Permutation l l' -> distinct l -> distinct l'.
Proof.
  induction 1 as [|x l l' Hp IH|x y l|l l' l'' _ IH1 _ IH2]; simpl.
  - trivial.
  - intros [Hx Hl]. split; [now rewrite <- Hp | now apply IH].
  - intros (Hy & Hx & Hl). apply Forall_cons in Hy as [Hyx Hy].
    split; [|split; assumption].
    apply Forall_cons. split; [now rewrite sameKey_sym | assumption].
  - auto.
Qed.

Lemma distinct_map (f : float -> float) (l : list float) :
  (forall a, EDA.sameKey (f a) a = true) -> distinct l -> distinct (map f l).
Proof.
  intros Hf. induction l as [|a l IH]; simpl; [trivial|].
  intros [Ha Hl]. split; [|now apply IH].
  apply Forall_forall. intros b' Hb'.
  apply list_elem_of_In, in_map_iff in Hb' as (b & <- & Hb).
  rewrite Forall_forall in Ha. specialize (Ha b ltac:(now apply list_elem_of_In)).
  rewrite (sameKey_congr (f a) a (f b) (Hf a)).
  now rewrite (sameKey_congr_r (f b) b a (Hf b)).
Qed.

Lemma distinct_lookup (l : list float) (i j : nat) (a b : float) :
  distinct l -> l !! i = Some a -> l !! j = Some b -> i <> j -> EDA.sameKey a b = false.
Proof.
  revert i j. induction l as [|x l IH]; intros i j Hd Hi Hj Hne; [discriminate|].
  destruct Hd as [Hx Hl]. rewrite Forall_forall in Hx.
  destruct i as [|i], j as [|j]; simpl in Hi, Hj.
  - congruence.
  - injection Hi as <-. apply Hx. eapply list_elem_of_lookup_2. exact Hj.
  - injection Hj as <-. rewrite sameKey_sym. apply Hx.
    eapply list_elem_of_lookup_2. exact Hi.
  - apply (IH i j); auto.
Qed.

(** *** Counting into [magnitudeCounts] *)

Definition keys (acc : list (float * nat)) : list float := map fst acc.

(** The events of a bin among [bins]. *)
Definition tally (bins : list float) (key : float) : nat :=
  length (List.filter (fun b => EDA.sameKey b key) bins).

Lemma countOf_increment (b key : float) (acc : list (float * nat)) :
  EDA.countOf (EDA.increment b acc) key
  = if EDA.sameKey b key then Some (S (default 0%nat (EDA.countOf acc key)))
    else EDA.countOf acc key.
Proof.
  unfold EDA.countOf. induction acc as [|[k c] acc IH]; simpl.
  - destruct (EDA.sameKey b key); reflexivity.
  - destruct (EDA.sameKey k b) eqn:Hkb; simpl.
    + rewrite <- (sameKey_congr k b key Hkb).
      destruct (EDA.sameKey k key); reflexivity.
    + destruct (EDA.sameKey k key) eqn:Hkk; simpl; [|exact IH].
      destruct (EDA.sameKey b key) eqn:Hbk; [|reflexivity].
      rewrite sameKey_sym in Hbk. rewrite (sameKey_trans k key b Hkk Hbk) in Hkb.
      discriminate.
Qed.

Lemma keys_increment (b : float) (acc : list (float * nat)) :
  keys (EDA.increment b acc)
  = if existsb (fun k => EDA.sameKey k b) (keys acc) then keys acc else keys acc ++ [b].
Proof.
  unfold keys. induction acc as [|[k c] acc IH]; simpl; [reflexivity|].
  destruct (EDA.sameKey k b) eqn:Hkb; simpl; [reflexivity|].
  rewrite IH. now destruct (existsb _ _).
Qed.

Lemma distinct_snoc (l : list float) (b : float) :
  distinct l -> existsb (fun k => EDA.sameKey k b) l = false -> distinct (l ++ [b]).
Proof.
  induction l as [|a l IH]; simpl; intros Hl Hb; [split; [constructor|trivial]|].
  destruct Hl as [Ha Hl]. apply orb_false_iff in Hb as [Hab Hb].
  split; [|now apply IH].
  apply Forall_app. split; [assumption|]. now repeat constructor.
Qed.

Lemma sum_increment (b : float) (acc : list (float * nat)) :
  list_sum (map snd (EDA.increment b acc)) = S (list_sum (map snd acc)).
Proof.
  induction acc as [|[k c] acc IH]; simpl; [reflexivity|].
  destruct (EDA.sameKey k b); simpl; [reflexivity|]. rewrite IH. lia.
Qed.

Lemma positive_increment (b : float) (acc : list (float * nat)) :
  Forall (fun property => 1 <= snd property) acc ->
  Forall (fun property => 1 <= snd property) (EDA.increment b acc).
Proof.
  induction acc as [|[k c] acc IH]; simpl; intros Hacc.
  - repeat constructor.
  - apply Forall_cons in Hacc as [Hc Hacc].
    destruct (EDA.sameKey k b); constructor; simpl in *; auto; lia.
Qed.

(** [bins.reduce((acc, b) => increment b acc, acc)]. *)
Definition countInto (bins : list float) (acc : list (float * nat)) : list (float * nat) :=
  fold_left (fun acc b => EDA.increment b acc) bins acc.

Lemma magnitudeCounts_countInto (h : Heap) (data : list loc) :
  EDA.magnitudeCounts h data
  = countInto (map (fun event => EDA.roundedMag (obj h event)) data) [].
Proof.
  unfold EDA.magnitudeCounts, countInto. generalize (@nil (float * nat)).
  induction data as [|e data IH]; intros acc; simpl; [reflexivity | apply IH].
Qed.

Lemma countInto_spec (bins : list float) :
  let counts := countInto bins [] in
  distinct (keys counts)
  /\ Forall (fun property => 1 <= snd property) counts
  /\ list_sum (map snd counts) = length bins
  /\ forall key, default 0%nat (EDA.countOf counts key) = tally bins key.
Proof.
  cbv zeta.
  assert (Hgen : forall bins acc seen,
    distinct (keys acc) ->
    Forall (fun property => 1 <= snd property) acc ->
    list_sum (map snd acc) = length seen ->
    (forall key, default 0%nat (EDA.countOf acc key) = tally seen key) ->
    distinct (keys (countInto bins acc))
    /\ Forall (fun property => 1 <= snd property) (countInto bins acc)
    /\ list_sum (map snd (countInto bins acc)) = length (seen ++ bins)
    /\ forall key, default 0%nat (EDA.countOf (countInto bins acc) key)
                   = tally (seen ++ bins) key).
  { clear bins. induction bins as [|b bins IH]; intros acc seen Hd Hp Hs Hc.
    - rewrite app_nil_r. simpl. auto.
    - replace (seen ++ b :: bins) with ((seen ++ [b]) ++ bins)
        by (rewrite <- app_assoc; reflexivity).
      apply IH.
      + rewrite keys_increment.
        destruct (existsb _ _) eqn:Hex; [assumption | now apply distinct_snoc].
      + now apply positive_increment.
      + rewrite sum_increment, length_app, Hs. simpl. lia.
      + intros key. rewrite countOf_increment. unfold tally.
        rewrite List.filter_app, length_app. simpl. fold (tally seen key).
        rewrite <- Hc. destruct (EDA.sameKey b key); simpl; lia. }
  apply (Hgen bins [] []); simpl; auto.
Qed.

(** In an object of distinct keys, a key gives its own count. *)
Lemma countOf_own (acc : list (float * nat)) :
  distinct (keys acc) ->
  map (fun key => EDA.countOf acc key) (keys acc) = map (fun property => Some (snd property)) acc.
Proof.
  unfold EDA.countOf.
  induction acc as [|[k c] acc IH]; simpl; intros Hd; [reflexivity|].
  destruct Hd as [Hk Hd]. rewrite sameKey_refl. simpl. f_equal.
  rewrite <- (IH Hd). apply map_ext_in. intros key Hkey.
  rewrite Forall_forall in Hk. now rewrite (Hk key) by now apply list_elem_of_In.
Qed.

Lemma countOf_congr (acc : list (float * nat)) (a b : float) :
  EDA.sameKey a b = true -> EDA.countOf acc a = EDA.countOf acc b.
Proof.
  intros Hab. unfold EDA.countOf. f_equal.
  induction acc as [|[k c] acc IH]; simpl; [reflexivity|].
  now rewrite (sameKey_congr_r a b k Hab), IH.
Qed.

(** *** The sort of the keys *)

Lemma insertNumber_Permutation (a : float) (l : list float) :
  Permutation (EDA.insertNumber a l) (a :: l).
Proof.
  induction l as [|b l IH]; simpl; [reflexivity|].
  destruct (JS.gt (a - b) 0); [|reflexivity].
  rewrite IH. apply perm_swap.
Qed.

Lemma sortNumbers_Permutation (l : list float) : Permutation (EDA.sortNumbers l) l.
Proof.
  unfold EDA.sortNumbers. induction l as [|a l IH]; simpl; [reflexivity|].
  now rewrite insertNumber_Permutation, IH.
Qed.

(** *** The rows *)

(** The count of a row as a number of events. *)
Definition events {N} (r : EDA.Row N) : nat := default 0%nat (EDA.count r).

Lemma number_of_nat (n : nat) : EDA.number (Z.of_nat n) = JS.of_nat n.
Proof.
  unfold EDA.number, JS.of_nat.
  now replace (Z.of_nat n <? 0)%Z with false by (symmetry; apply Z.ltb_ge; lia).
Qed.

Section Rows.
Variable Math_log10 : float -> float.
Variable counts : list (float * nat).

Lemma rowsFrom_spec (magnitudes : list float) (cumulativeCount : nat) :
  (forall mag, mag ∈ magnitudes -> exists n, EDA.countOf counts mag = Some n) ->
  let rows := EDA.rowsFrom Math_log10 counts magnitudes (Some (Z.of_nat cumulativeCount)) in
  list_sum (map (fun mag => default 0%nat (EDA.countOf counts mag)) magnitudes)
  <= cumulativeCount ->
  map EDA.magnitude rows = magnitudes
  /\ map EDA.count rows = map (EDA.countOf counts) magnitudes
  /\ forall i r, rows !! i = Some r ->
       EDA.logN r
       = Math_log10 (JS.of_nat (cumulativeCount - list_sum (map events (take i rows)))).
Proof.
  cbv zeta. revert cumulativeCount.
  induction magnitudes as [|mag rest IH]; intros c Hdef Hle; simpl.
  - split; [reflexivity|]. split; [reflexivity|]. intros i r Hi. discriminate.
  - destruct (Hdef mag ltac:(left)) as [n Hn]. simpl in Hle. rewrite Hn in *. simpl in *.
    replace (Z.of_nat c - Z.of_nat n)%Z with (Z.of_nat (c - n)) by lia.
    destruct (IH (c - n)%nat) as (Hm & Hc & Hlog).
    { intros m Hm. apply Hdef. now right. }
    { lia. }
    split; [now rewrite Hm|]. split; [now rewrite Hc|].
    intros [|i] r Hi; simpl in Hi.
    + injection Hi as <-. simpl. rewrite number_of_nat. now rewrite Nat.sub_0_r.
    + rewrite (Hlog i r Hi). simpl. unfold events at 2. simpl.
      do 2 f_equal. lia.
Qed.

End Rows.

Definition bin (h : Heap) (event : loc) : float := EDA.roundedMag (obj h event).

(** The event is counted in the row. *)
Definition inRow (h : Heap) (r : EDA.Row float) (event : loc) : bool :=
  EDA.sameKey (bin h event) (EDA.magnitude r).

Lemma tally_filter (h : Heap) (data : list loc) (key : float) :
  tally (map (bin h) data) key
  = length (List.filter (fun event => EDA.sameKey (bin h event) key) data).
Proof.
  unfold tally. induction data as [|e data IH]; simpl; [reflexivity|].
  destruct (EDA.sameKey (bin h e) key); simpl; now rewrite IH.
Qed.

Lemma list_sum_Permutation (l l' : list nat) :
  Permutation l l' -> list_sum l = list_sum l'.
Proof. induction 1; simpl; lia. Qed.

Lemma list_sum_take_drop (l : list nat) (i : nat) :
  list_sum l = (list_sum (take i l) + list_sum (drop i l))%nat.
Proof. rewrite <- (take_drop i l) at 1. apply list_sum_app. Qed.

Lemma grData_spec (Math_log10 : float -> float) (h : Heap) (data : list loc) :
  let table := EDA.grData Math_log10 h data in
  distinct (map EDA.magnitude table)
  /\ list_sum (map events table) = length data
  /\ forall i r, table !! i = Some r ->
       EDA.count r = Some (length (List.filter (inRow h r) data))
       /\ 1 <= events r
       /\ EDA.logN r = Math_log10 (JS.of_nat (list_sum (map events (drop i table)))).
Proof.
  cbv zeta. unfold EDA.grData. rewrite magnitudeCounts_countInto.
  set (bins := map (fun event => EDA.roundedMag (obj h event)) data).
  destruct (countInto_spec bins) as (Hd & Hpos & Hsum & Htally).
  set (counts := countInto bins []) in *.
  set (magnitudes := EDA.magnitudesOf counts).
  assert (Hperm : Permutation magnitudes (map EDA.keyNumber (keys counts))).
  { unfold magnitudes, EDA.magnitudesOf, keys. rewrite map_map.
    apply sortNumbers_Permutation. }
  assert (Hown : forall mag, mag ∈ magnitudes ->
            exists n, EDA.countOf counts mag = Some n /\ 1 <= n).
  { intros mag Hmag. rewrite Hperm in Hmag.
    apply list_elem_of_In, in_map_iff in Hmag as (key & <- & Hkey).
    rewrite (countOf_congr counts _ key (keyNumber_same key)).
    pose proof (countOf_own counts Hd) as Hmap.
    apply In_nth_error in Hkey as [i Hi].
    assert (Hi' : nth_error (map (fun k => EDA.countOf counts k) (keys counts)) i
                  = Some (EDA.countOf counts key)) by now apply map_nth_error.
    rewrite Hmap in Hi'. apply nth_error_In, in_map_iff in Hi' as (property & Hp & Hin).
    exists (snd property). split; [now symmetry|].
    rewrite Forall_forall in Hpos. apply Hpos. now apply list_elem_of_In. }
  assert (Htotal : list_sum (map (fun mag => default 0%nat (EDA.countOf counts mag)) magnitudes)
                   = length data).
  { rewrite (list_sum_Permutation _ _ (Permutation_map _ Hperm)), map_map.
    rewrite (map_ext _ (fun key => default 0%nat (EDA.countOf counts key))).
    2:{ intros key. now rewrite (countOf_congr counts _ key (keyNumber_same key)). }
    rewrite <- (map_map (fun key => EDA.countOf counts key) (default 0%nat)).
    rewrite (countOf_own counts Hd), map_map. simpl.
    etransitivity; [exact Hsum|]. unfold bins. apply length_map. }
  destruct (rowsFrom_spec Math_log10 counts magnitudes (length data)) as (Hm & Hc & Hlog).
  { intros mag Hmag. destruct (Hown mag Hmag) as (n & Hn & _). now exists n. }
  { lia. }
  set (table := EDA.rowsFrom Math_log10 counts magnitudes (Some (Z.of_nat (length data)))) in *.
  assert (Hevents : map events table
                    = map (fun mag => default 0%nat (EDA.countOf counts mag)) magnitudes).
  { unfold events. rewrite <- (map_map EDA.count (default 0%nat)), Hc, map_map. reflexivity. }
  split; [|split].
  - rewrite Hm. apply (distinct_Permutation _ _ (Permutation_sym Hperm)).
    apply distinct_map; [apply keyNumber_same | exact Hd].
  - now rewrite Hevents.
  - intros i r Hi.
    assert (Hmag : EDA.magnitude r ∈ magnitudes).
    { rewrite <- Hm. apply list_elem_of_In, in_map. apply list_elem_of_In.
      eapply list_elem_of_lookup_2. exact Hi. }
    assert (Hcount : EDA.count r = EDA.countOf counts (EDA.magnitude r)).
    { assert (Hi' : map EDA.count table !! i = Some (EDA.count r))
        by (rewrite list_lookup_fmap, Hi; reflexivity).
      rewrite Hc, list_lookup_fmap in Hi'.
      assert (Hi'' : map EDA.magnitude table !! i = Some (EDA.magnitude r))
        by (rewrite list_lookup_fmap, Hi; reflexivity).
      rewrite Hm in Hi''. rewrite Hi'' in Hi'. simpl in Hi'. congruence. }
    destruct (Hown _ Hmag) as (n & Hn & Hpos').
    pose proof (Htally (EDA.magnitude r)) as Ht. rewrite Hn in Ht. simpl in Ht.
    unfold bins in Ht. rewrite (tally_filter h data) in Ht.
    split; [|split].
    + rewrite Hcount, Hn. f_equal. exact Ht.
    + unfold events. rewrite Hcount, Hn. exact Hpos'.
    + rewrite (Hlog i r Hi). do 2 f_equal.
      pose proof (list_sum_take_drop (map events table) i) as Hsplit.
      assert (Hall : list_sum (map events table) = length data)
        by (rewrite Hevents; exact Htotal).
      rewrite Hall, firstn_map, skipn_map in Hsplit. lia.
Qed.

(** Every event has its row. *)
Lemma grData_row (Math_log10 : float -> float) (h : Heap) (data : list loc) (event : loc) :
  event ∈ data ->
  exists r, r ∈ EDA.grData Math_log10 h data /\ inRow h r event = true.
Proof.
  intros Hin. unfold EDA.grData. rewrite magnitudeCounts_countInto.
  set (bins := map (fun event => EDA.roundedMag (obj h event)) data).
  destruct (countInto_spec bins) as (Hd & Hpos & Hsum & Htally).
  set (counts := countInto bins []) in *.
  assert (Hfound : exists key, key ∈ keys counts /\ EDA.sameKey key (bin h event) = true).
  { specialize (Htally (bin h event)).
    assert (Hone : 1 <= tally bins (bin h event)).
    { unfold bins. fold (bin h). rewrite tally_filter.
      apply list_elem_of_In, in_split in Hin as (l1 & l2 & ->).
      rewrite List.filter_app, length_app. simpl. rewrite sameKey_refl. simpl. lia. }
    rewrite <- Htally in Hone. unfold EDA.countOf in Hone.
    destruct (find _ counts) as [[key c]|] eqn:Hfind; simpl in Hone; [|lia].
    apply find_some in Hfind as [Hin' Hsame]. exists key. split; [|exact Hsame].
    apply list_elem_of_In. unfold keys. now apply (in_map fst) in Hin'. }
  destruct Hfound as (key & Hkey & Hsame).
  assert (Hperm : Permutation (EDA.magnitudesOf counts) (map EDA.keyNumber (keys counts))).
  { unfold EDA.magnitudesOf, keys. rewrite map_map. apply sortNumbers_Permutation. }
  assert (Hmag : EDA.keyNumber key ∈ EDA.magnitudesOf counts).
  { rewrite Hperm. apply list_elem_of_In, in_map. now apply list_elem_of_In. }
  assert (Hrows : forall magnitudes c mag, mag ∈ magnitudes ->
            exists r, r ∈ EDA.rowsFrom Math_log10 counts magnitudes c
                      /\ EDA.magnitude r = mag).
  { clear. induction magnitudes as [|m rest IH]; intros c mag Hmag; [inversion Hmag|].
    simpl. apply elem_of_cons in Hmag as [->|Hmag].
    - eexists. split; [left|]. reflexivity.
    - destruct (IH (c ← c; n ← EDA.countOf counts m; Some (c - Z.of_nat n)%Z) mag Hmag)
        as (r & Hr & Hm).
      exists r. split; [now right | exact Hm]. }
  destruct (Hrows _ (Some (Z.of_nat (length data))) _ Hmag) as (r & Hr & Hm).
  exists r. split; [exact Hr|]. unfold inRow. rewrite Hm.
  rewrite sameKey_sym.
  apply (sameKey_trans _ key _ (keyNumber_same key) Hsame).
Qed.

End EdaFacts.

Module EdaTheorems.

(** X12.  The table of the "Gutenberg Richter Law" analysis.  Every
    event of the catalog belongs to a row, and no two rows are of the
    same magnitude bin.  The count of a row is the number of events of
    its bin, at least one; the counts of all rows add up to the size of
    the catalog; and [logN] of a row is [Math.log10] of the events in
    this and the later rows, a number that is never zero: that of the
    first row is the size of the catalog. *)
Theorem gutenberg_richter_table (Math_log10 : float -> float) (h : Heap) (data : list loc) :
  let table := EDA.grData Math_log10 h data in
  (forall event, event ∈ data -> exists r, r ∈ table /\ EdaFacts.inRow h r event = true)
  /\ (forall i j r1 r2, table !! i = Some r1 -> table !! j = Some r2 -> i <> j ->
        EDA.sameKey (EDA.magnitude r1) (EDA.magnitude r2) = false)
  /\ (forall i r, table !! i = Some r ->
        EDA.count r = Some (length (List.filter (EdaFacts.inRow h r) data))
        /\ 1 <= EdaFacts.events r
        /\ EDA.logN r
           = Math_log10 (JS.of_nat (list_sum (map EdaFacts.events (drop i table)))))
  /\ list_sum (map EdaFacts.events table) = length data.
Proof.
  cbv zeta. destruct (EdaFacts.grData_spec Math_log10 h data) as (Hd & Hsum & Hrows).
  split; [|split; [|split]].
  - intros event. apply EdaFacts.grData_row.
  - intros i j r1 r2 Hi Hj Hne.
    apply (EdaFacts.distinct_lookup _ i j _ _ Hd); [| |exact Hne];
      rewrite list_lookup_fmap; [rewrite Hi | rewrite Hj]; reflexivity.
  - exact Hrows.
  - exact Hsum.
Qed.

(** X13.  When all the events of the catalog fall into one magnitude
    bin, and on the empty catalog, the analysis reports the default
    [bValue] 1.0: the table has fewer than two rows. *)
Theorem b_value_default (Math_log10 : float -> float) (h : Heap) (data : list loc) :
  (forall e1 e2, e1 ∈ data -> e2 ∈ data ->
     EDA.sameKey (EdaFacts.bin h e1) (EdaFacts.bin h e2) = true) ->
  length (fst (EDA.gutenbergRichter Math_log10 h data)) <= 1
  /\ snd (EDA.gutenbergRichter Math_log10 h data) = 1.
Proof.
  intros Hsame. unfold EDA.gutenbergRichter. cbn [fst snd].
  destruct (EdaFacts.grData_spec Math_log10 h data) as (Hd & _ & Hrows).
  set (table := EDA.grData Math_log10 h data) in *.
  assert (Hevent : forall i r, table !! i = Some r ->
            exists e, e ∈ data /\ EdaFacts.inRow h r e = true).
  { intros i r Hi. destruct (Hrows i r Hi) as (Hcount & Hone & _).
    unfold EdaFacts.events in Hone. rewrite Hcount in Hone. simpl in Hone.
    destruct (List.filter (EdaFacts.inRow h r) data) as [|e l] eqn:Hf; [simpl in Hone; lia|].
    assert (Hin : In e (List.filter (EdaFacts.inRow h r) data)) by (rewrite Hf; now left).
    apply filter_In in Hin as [Hin Hrow]. exists e. split; [now apply list_elem_of_In|].
    exact Hrow. }
  assert (Hlen : length table <= 1).
  { destruct table as [|r1 [|r2 rest]] eqn:Htable; simpl; try lia.
    destruct (Hevent 0%nat r1 eq_refl) as (e1 & He1 & Hr1).
    destruct (Hevent 1%nat r2 eq_refl) as (e2 & He2 & Hr2).
    unfold EdaFacts.inRow in Hr1, Hr2.
    assert (Hkeys : EDA.sameKey (EDA.magnitude r1) (EDA.magnitude r2) = true).
    { rewrite EdaFacts.sameKey_sym in Hr1.
      apply (EdaFacts.sameKey_trans _ _ _ Hr1).
      apply (EdaFacts.sameKey_trans _ _ _ (Hsame e1 e2 He1 He2) Hr2). }
    simpl in Hd. destruct Hd as [Hd _]. apply Forall_cons in Hd as [Hd _]. congruence. }
  split; [exact Hlen|].
  unfold EDA.calculateBValue.
  replace (length table <? 2)%nat with true by (symmetry; apply Nat.ltb_lt; lia).
  reflexivity.
Qed.

Lemma b_value_default_witness :
  length (fst (EDA.gutenbergRichter (fun x => x) Examples.single [0%nat])) <= 1
  /\ snd (EDA.gutenbergRichter (fun x => x) Examples.single [0%nat]) = 1.
Proof.
  apply (b_value_default (fun x => x) Examples.single [0%nat]).
  intros e1 e2 He1 He2.
  apply list_elem_of_singleton in He1 as ->. apply list_elem_of_singleton in He2 as ->.
  reflexivity.
Defined.

(** The scales of colours, from the first [return] to the last. *)
Definition magnitudeScale : list string :=
  ["#1a9850"; "#91cf60"; "#d9ef8b"; "#fee08b"; "#fc8d59"; "#d73027"]%string.
Definition depthScale : list string :=
  ["#ffffcc"; "#a1dab4"; "#41b6c4"; "#2c7fb8"; "#253494"]%string.

(** The place of a colour on a scale. *)
Fixpoint place (scale : list string) (colour : string) : nat :=
  match scale with
  | [] => 0
  | c :: rest => if String.eqb c colour then 0 else S (place rest colour)
  end.

(** Of two comparisons with a bound, the greater number decides. *)
Ltac bands :=
  repeat match goal with
    | Hle : (?a <=? ?b) = true, Hb : (?b <? ?t) = true, Ha : (?a <? ?t) = false |- _ =>
        rewrite (NumberFacts.leb_ltb_trans a b t Hle Hb) in Ha; discriminate
    end.

(** X14.  [getMagnitudeColor] and [getDepthColor] go up their scales
    with the number: of two numbers, the greater never gets an earlier
    colour.  A value that is not a number gets the last colour, that of
    the strongest and of the deepest events. *)
Theorem colours_follow_scale :
  (forall m1 m2, (m1 <=? m2) = true ->
     place magnitudeScale (EDA.getMagnitudeColor m1)
     <= place magnitudeScale (EDA.getMagnitudeColor m2))
  /\ (forall d1 d2, (d1 <=? d2) = true ->
        place depthScale (EDA.getDepthColor d1) <= place depthScale (EDA.getDepthColor d2))
  /\ (forall x, is_nan x = true ->
        EDA.getMagnitudeColor x = "#d73027"%string
        /\ EDA.getDepthColor x = "#253494"%string).
Proof.
  split; [|split].
  - intros m1 m2 Hle. unfold EDA.getMagnitudeColor.
    destruct (m2 <? 2) eqn:H2, (m2 <? 3) eqn:H3, (m2 <? 4) eqn:H4, (m2 <? 5) eqn:H5,
      (m2 <? 6) eqn:H6;
      destruct (m1 <? 2) eqn:G2, (m1 <? 3) eqn:G3, (m1 <? 4) eqn:G4, (m1 <? 5) eqn:G5,
        (m1 <? 6) eqn:G6;
      try (vm_compute; lia); bands.
  - intros d1 d2 Hle. unfold EDA.getDepthColor.
    destruct (d2 <? 10) eqn:H2, (d2 <? 30) eqn:H3, (d2 <? 70) eqn:H4, (d2 <? 150) eqn:H5;
      destruct (d1 <? 10) eqn:G2, (d1 <? 30) eqn:G3, (d1 <? 70) eqn:G4, (d1 <? 150) eqn:G5;
      try (vm_compute; lia); bands.
  - intros x Hnan. unfold EDA.getMagnitudeColor, EDA.getDepthColor.
    now rewrite !(NumberFacts.ltb_nan x _ Hnan).
Qed.

Local Open Scope R_scope.

(** X15.  [calculateBValue] recovers the slope on binary64 numbers,
    within a tolerance: on a table of 2 to 64 rows whose magnitudes and
    [logN] are finite, at most 16 in absolute value and on a line
    [logN = a - b * magnitude], where the variation
    [D = n * sum x^2 - (sum x)^2] of the magnitudes [x] is at least
    [2^-23], it returns a finite number within [(1 + |b|) / (2^23 D)]
    of [b]. *)
Theorem b_value_round_trip (a b : R) (table : list (EDA.Row float)) :
  (2 <= length table <= 64)%nat ->
  (forall r, r ∈ table ->
     Approx.fin (EDA.magnitude r) /\ Approx.fin (EDA.logN r)
     /\ Rabs (Approx.FR (EDA.magnitude r)) <= 16 /\ Rabs (Approx.FR (EDA.logN r)) <= 16
     /\ Approx.FR (EDA.logN r) = a - b * Approx.FR (EDA.magnitude r)) ->
  / 2 ^ 23 <= OmoriFacts.variation (map (fun r => Approx.FR (EDA.magnitude r)) table) ->
  Approx.approx
    (EDA.calculateBValue Omori.floatArith table) b
    ((1 + Rabs b)
     / (2 ^ 23 * OmoriFacts.variation (map (fun r => Approx.FR (EDA.magnitude r)) table))).
Proof.
  intros [Hlen2 Hlen] Hrows Hspread. unfold EDA.calculateBValue.
  assert (Hlt : (length table <? 2)%nat = false) by (apply Nat.ltb_ge; lia).
  rewrite Hlt. cbv zeta. rewrite !length_map.
  cbn [Omori.floatArith Omori.sub Omori.mul Omori.div Omori.opp Omori.ofNat].
  change (Omori.mkArith float 0%float PrimFloat.add PrimFloat.sub PrimFloat.mul
            PrimFloat.div PrimFloat.opp JS.of_nat 0.5%float) with Omori.floatArith.
  assert (Hx : forall r, r ∈ table ->
            Approx.approx (EDA.magnitude r) (Approx.FR (EDA.magnitude r)) (/ 2 ^ 47)
            /\ Rabs (Approx.FR (EDA.magnitude r)) <= 16).
  { intros r Hr. destruct (Hrows r Hr) as (Hf & _ & Hb & _). split; [|exact Hb].
    eapply Approx.approx_weaken; [now apply Approx.approx_exact | lra]. }
  assert (Hy : forall r, r ∈ table ->
            Approx.approx (EDA.logN r) (Approx.FR (EDA.logN r)) (/ 2 ^ 47)
            /\ Rabs (Approx.FR (EDA.logN r)) <= 16).
  { intros r Hr. destruct (Hrows r Hr) as (_ & Hf & _ & Hb & _). split; [|exact Hb].
    eapply Approx.approx_weaken; [now apply Approx.approx_exact | lra]. }
  destruct (OmoriFacts.numerator_approx EDA.magnitude EDA.logN _ _ table Hlen Hx Hy)
    as [HN HNb].
  destruct (OmoriFacts.denominator_approx EDA.magnitude _ table Hlen Hx) as [HD HDb].
  cbv zeta in HN, HNb, HD, HDb.
  set (D := OmoriFacts.variation (map (fun r => Approx.FR (EDA.magnitude r)) table)) in *.
  destruct (OmoriFacts.line_sums
              (fun r => Approx.FR (EDA.magnitude r)) (fun r => Approx.FR (EDA.logN r))
              a b table ltac:(intros r Hr; apply (Hrows r Hr))) as [Hsy Hsxy].
  set (N := INR (length table)
            * OmoriFacts.total
                (map (fun r => Approx.FR (EDA.magnitude r) * Approx.FR (EDA.logN r)) table)
            - OmoriFacts.total (map (fun r => Approx.FR (EDA.magnitude r)) table)
              * OmoriFacts.total (map (fun r => Approx.FR (EDA.logN r)) table)) in *.
  assert (HNb' : N = - b * D).
  { unfold N, D, OmoriFacts.variation. rewrite Hsy, Hsxy, length_map, map_map. ring. }
  pose proof (Approx.approx_div _ _ _ _ HN HD Hspread HDb HNb) as Hdiv.
  apply Approx.approx_opp in Hdiv.
  replace (- (N / D)) with b in Hdiv by (rewrite HNb'; field; lra).
  replace (Rabs (N / D)) with (Rabs b) in Hdiv; [exact Hdiv|].
  replace (N / D) with (- b) by (rewrite HNb'; field; lra).
  now rewrite Rabs_Ropp.
Qed.

Lemma b_value_round_trip_witness :
  let table := [EDA.mkRow 2%float (Some 10%nat) 3%float;
                EDA.mkRow 3%float (Some 5%nat) 2%float;
                EDA.mkRow 4%float (Some 1%nat) 1%float] in
  Approx.approx
    (EDA.calculateBValue Omori.floatArith table) 1
    ((1 + Rabs 1)
     / (2 ^ 23 * OmoriFacts.variation (map (fun r => Approx.FR (EDA.magnitude r)) table))).
Proof.
  apply (b_value_round_trip 5 1).
  - simpl. lia.
  - intros r Hr.
    repeat (apply elem_of_cons in Hr as [->|Hr]); [| | |inversion Hr];
      cbn [EDA.magnitude EDA.logN];
      rewrite ?OmoriFacts.FR_1, ?OmoriFacts.FR_2, ?OmoriFacts.FR_3,
        ?OmoriFacts.FR_4;
      repeat split; try reflexivity; try (rewrite Rabs_pos_eq; lra); lra.
  - cbn [map EDA.magnitude].
    rewrite OmoriFacts.FR_2, OmoriFacts.FR_3, OmoriFacts.FR_4.
    unfold OmoriFacts.variation. simpl. lra.
Defined.

End EdaTheorems.

(** ** The mainshock highlight *)

Module HighlightFacts.

Lemma SFltb_asym (a b : spec_float) : SFltb a b = true -> SFltb b a = false.
Proof.
  unfold SFltb.
  destruct a as [sa|sa| |sa ma ea], b as [sb|sb| |sb mb eb];
    simpl; try discriminate; try reflexivity; NumberFacts.compare_cases.
Qed.

(** Of [a < b] and [b < a] at most one holds. *)
Lemma ltb_asym (a b : float) : (a <? b) = true -> (b <? a) = false.
Proof. rewrite !FloatAxioms.ltb_spec. apply SFltb_asym. Qed.

Lemma insertPoint_Permutation (a : Highlight.Point) (l : list Highlight.Point) :
  Permutation (Highlight.insertPoint a l) (a :: l).
Proof.
  induction l as [|b l IH]; simpl; [reflexivity|].
  destruct (JS.gt _ 0); [|reflexivity].
  rewrite IH. apply perm_swap.
Qed.

Lemma sortPoints_Permutation (l : list Highlight.Point) :
  Permutation (Highlight.sortPoints l) l.
Proof.
  unfold Highlight.sortPoints. induction l as [|a l IH]; simpl; [reflexivity|].
  now rewrite insertPoint_Permutation, IH.
Qed.

End HighlightFacts.

Module HighlightTheorems.

(** What a row of [data] says of its event, [mainshock] being the
    mainshock. *)
Definition flags (h : Heap) (mainshock event : loc) (r : Highlight.Row) : Prop :=
  Highlight.fields r = obj h event
  /\ (Highlight.isMainshock r = true <-> event = mainshock)
  /\ Highlight.isAftershock r && Highlight.isForeshock r = false
  /\ (Highlight.isMainshock r = true ->
      Highlight.isAftershock r = false /\ Highlight.isForeshock r = false).

(** X16.  The "Mainshock Highlight" analysis of a catalog that is not
    empty.  The mainshock is an event of the catalog that no event
    exceeds in magnitude.  There is one row for each event, in the
    order of the catalog, with the fields of its event; the row of the
    mainshock, and no other, is flagged [isMainshock]; no row is flagged
    both [isAftershock] and [isForeshock], and the mainshock is flagged
    neither.  [magnitudeTimeData] holds the rows whose time is not
    before the mainshock's. *)
Theorem mainshock_highlight (calculateDistance : float -> float -> float -> float -> float)
        (h : Heap) (data : list loc) :
  data <> [] ->
  exists mainshock rows points,
    Highlight.mainshockHighlight calculateDistance h data = (rows, Some mainshock, points)
    /\ mainshock ∈ data
    /\ (forall event, event ∈ data ->
          JS.gt (magnitude (obj h event)) (magnitude (obj h mainshock)) = false)
    /\ Forall2 (flags h mainshock) data rows
    /\ Permutation points
         (map (fun r => (time (Highlight.fields r), magnitude (Highlight.fields r),
                         Highlight.timeSinceMainshock r, Highlight.isMainshock r))
              (List.filter (fun r => JS.ge (time (Highlight.fields r))
                                           (time (obj h mainshock))) rows)).
Proof.
  intros Hne. destruct data as [|first rest]; [congruence|].
  unfold Highlight.mainshockHighlight, Highlight.mainshockOf.
  set (data := first :: rest). set (mainshock := largestFrom h first data).
  eexists mainshock, _, _. split; [reflexivity|].
  split; [|split; [|split]].
  - destruct (largestFrom_elem h first data) as [Heq|Hin]; [|exact Hin].
    fold mainshock in Heq. rewrite Heq. now left.
  - apply (largestFrom_max h first data).
  - apply Forall2_fmap_r, Forall_Forall2_diag, Forall_forall. intros event _.
    unfold flags, Highlight.highlight.
    cbn [Highlight.fields Highlight.isMainshock Highlight.isAftershock
         Highlight.isForeshock].
    split; [reflexivity|]. split; [apply Nat.eqb_eq|]. split.
    + unfold JS.gt.
      destruct (time (obj h mainshock) <? time (obj h event)) eqn:Hlater; [|reflexivity].
      rewrite (HighlightFacts.ltb_asym _ _ Hlater). cbn [andb].
      now destruct (_ <? 100).
    + intros Heq. apply Nat.eqb_eq in Heq. subst event.
      unfold JS.gt. rewrite ltb_irrefl. split; reflexivity.
  - unfold Highlight.magnitudeTimeData. apply HighlightFacts.sortPoints_Permutation.
Qed.

Lemma mainshock_highlight_witness :
  exists mainshock rows points,
    Highlight.mainshockHighlight (fun _ _ _ _ => 0) Examples.line [0; 1; 2]%nat
    = (rows, Some mainshock, points)
    /\ mainshock ∈ [0; 1; 2]%nat
    /\ (forall event, event ∈ [0; 1; 2]%nat ->
          JS.gt (magnitude (obj Examples.line event))
                (magnitude (obj Examples.line mainshock)) = false)
    /\ Forall2 (flags Examples.line mainshock) [0; 1; 2]%nat rows
    /\ Permutation points
         (map (fun r => (time (Highlight.fields r), magnitude (Highlight.fields r),
                         Highlight.timeSinceMainshock r, Highlight.isMainshock r))
              (List.filter (fun r => JS.ge (time (Highlight.fields r))
                                           (time (obj Examples.line mainshock))) rows)).
Proof.
  apply (mainshock_highlight (fun _ _ _ _ => 0) Examples.line [0; 1; 2]%nat).
  discriminate.
Defined.

End HighlightTheorems.

(** ** Magnitude prediction *)

Module PredictionFacts.

Definition supported : list string :=
  [ "Linear Regression Prediction"; "SVM Prediction"; "Naive Bayes Prediction";
    "Random Forest Prediction"; "LSTM" ]%string.

Definition UndefinedMapError : JS.Exception :=
  JS.TypeError "Cannot read properties of undefined (reading 'map')".

(** [l.map((x, i) => f(x, i))]. *)
Lemma indexed_lookup {A} (l : list A) (s j : nat) (x : A) :
  l !! j = Some x -> combine l (seq s (length l)) !! j = Some (x, (s + j)%nat).
Proof.
  revert s j. induction l as [|a l IH]; intros s j Hj; [discriminate|].
  destruct j as [|j]; simpl in *.
  - injection Hj as ->. now rewrite Nat.add_0_r.
  - rewrite (IH (S s) j Hj). do 2 f_equal. lia.
Qed.

Lemma at_lookup (l : list float) (j : nat) (x : float) :
  l !! j = Some x -> Prediction.at_ l j = x.
Proof. intros Hj. unfold Prediction.at_. now rewrite nth_lookup, Hj. Qed.

Section Predict.
Variable getHours : float -> float.
Variable Math_pow : float -> float -> float.

Lemma linearRegression_length (xTrain : list (list float)) (yTrain : list float)
      (xTest : list (list float)) :
  xTrain <> [] ->
  exists l, Prediction.linearRegression Math_pow xTrain yTrain xTest = inr l
            /\ length l = length xTest.
Proof.
  intros Hne. destruct xTrain as [|first rest]; [congruence|].
  eexists. split; [reflexivity|]. apply length_map.
Qed.

(** What [predict] returns for each subtype. *)
Lemma predict_spec (subType : string) (xTrain : list (list float)) (yTrain : list float)
      (xTest : list (list float)) :
  subType ∈ supported ->
  match xTrain with
  | [] => Prediction.predict Math_pow subType xTrain yTrain xTest = inl UndefinedMapError
  | _ :: _ =>
    exists predictions algorithmName,
      Prediction.predict Math_pow subType xTrain yTrain xTest
      = inr (predictions, algorithmName)
      /\ length predictions = length xTest
  end.
Proof.
  unfold supported. intros Hin.
  destruct xTrain as [|first rest].
  - repeat (apply elem_of_cons in Hin as [->|Hin]); [reflexivity ..|inversion Hin].
  - destruct (linearRegression_length (first :: rest) yTrain xTest ltac:(discriminate))
      as (l & Hl & Hlen).
    repeat (apply elem_of_cons in Hin as [->|Hin]); [| | | | |inversion Hin];
      unfold Prediction.predict; cbn [String.eqb Ascii.eqb Bool.eqb andb]; rewrite Hl;
      eexists _, _; (split; [reflexivity|]); rewrite ?length_map; exact Hlen.
Qed.

Lemma predict_unsupported (subType : string) (xTrain : list (list float))
      (yTrain : list float) (xTest : list (list float)) :
  subType ∉ supported ->
  Prediction.predict Math_pow subType xTrain yTrain xTest
  = inl (JS.Error ("Unsupported prediction algorithm: " ++ subType)).
Proof.
  unfold supported. intros Hnot. unfold Prediction.predict.
  rewrite !RecordFacts.eqb_of_neq by (intros ->; apply Hnot; set_solver).
  reflexivity.
Qed.

(** The row of the [j]-th testing event. *)
Lemma predictionResults_lookup (h : Heap) (testingData : list loc) (i j : nat)
      (predictions errors : list float) (rmse : float) (event : loc) :
  testingData !! j = Some event ->
  Prediction.predictionResults h testingData i predictions errors rmse !! j
  = Some (PredictionResult.mkPrediction (i + j + 1)
            (time (obj h event)) (magnitude (obj h event))
            (Prediction.at_ predictions (i + j)) (Prediction.at_ errors (i + j))
            (Prediction.at_ predictions (i + j) - 1.96 * (rmse / 2))
            (Prediction.at_ predictions (i + j) + 1.96 * (rmse / 2))
            (depth (obj h event)) (latitude (obj h event)) (longitude (obj h event))).
Proof.
  revert i j. induction testingData as [|e rest IH]; intros i j Hj; [discriminate|].
  destruct j as [|j]; simpl in *.
  - injection Hj as ->. now rewrite !Nat.add_0_r.
  - rewrite (IH (S i) j Hj). now replace (S i + j)%nat with (i + S j)%nat by lia.
Qed.

Lemma predictionResults_length (h : Heap) (testingData : list loc) (i : nat)
      (predictions errors : list float) (rmse : float) :
  length (Prediction.predictionResults h testingData i predictions errors rmse)
  = length testingData.
Proof.
  revert i. induction testingData as [|e rest IH]; intros i; simpl; [reflexivity|].
  now rewrite IH.
Qed.

Lemma predictionResults_ids (h : Heap) (testingData : list loc) (i : nat)
      (predictions errors : list float) (rmse : float) :
  map PredictionResult.id (Prediction.predictionResults h testingData i predictions errors rmse)
  = seq (i + 1) (length testingData).
Proof.
  revert i. induction testingData as [|e rest IH]; intros i; simpl; [reflexivity|].
  rewrite IH. now replace (S i + 1)%nat with (S (i + 1)) by lia.
Qed.

(** The copy, the sort of the copy, the split and the features. *)
Lemma performMagnitudePrediction_unfold (subType : string) (data : loc) (w : Run.World) :
  let sortedData := PerformFacts.sortedDataOf (Run.heap w) data in
  let h := Run.heap (PerformFacts.sortedWorld w sortedData) in
  let splitIndex := Prediction.splitIndex (length sortedData) in
  let trainingData := take splitIndex sortedData in
  let testingData := drop splitIndex sortedData in
  let xTrain := map (fun event => Prediction.extractFeatures getHours (obj h event))
                    trainingData in
  let yTrain := map (fun event => magnitude (obj h event)) trainingData in
  let xTest := map (fun event => Prediction.extractFeatures getHours (obj h event))
                   testingData in
  forall r,
    Prediction.predict Math_pow subType xTrain yTrain xTest = r ->
    match r with
    | inl e =>
      Prediction.performMagnitudePrediction getHours Math_pow subType data w
      = Some (Run.Throw e, PerformFacts.sortedWorld w sortedData)
    | inr (predictions, algorithmName) =>
      exists out,
        Prediction.performMagnitudePrediction getHours Math_pow subType data w
        = Some (Run.Normal out, PerformFacts.sortedWorld w sortedData)
        /\ PredictionResult.algorithm out = algorithmName
        /\ PredictionResult.hyperparameters out = Prediction.hyperparametersOf algorithmName
        /\ PredictionResult.predictions out
           = Prediction.predictionResults h testingData 0 predictions
               (map (fun pi => fst pi - Prediction.at_ (map (fun event => magnitude (obj h event))
                                                           testingData) (snd pi))
                    (combine predictions (seq 0 (length predictions))))
               (PredictionResult.rmse (PredictionResult.metrics out))
    end.
Proof.
  cbv zeta. intros r Hr.
  destruct w as [[objs0 arrs0] g].
  unfold Prediction.performMagnitudePrediction, Run.bind, Run.getHeap, Run.allocArr,
    Run.storeArr, alloc_arr, store_arr, PerformFacts.sortedWorld, PerformFacts.sortedDataOf
    in *.
  cbn [Run.heap Run.rng objs arrs] in *.
  rewrite !arr_alloc, insert_last, arr_alloc.
  rewrite Hr. destruct r as [e|[predictions algorithmName]]; [reflexivity|].
  eexists. split; [reflexivity|]. repeat split.
Qed.

End Predict.

End PredictionFacts.

Module PredictionTheorems.

(** X17.  With a subtype that is none of the five prediction subtypes,
    [performMagnitudePrediction] throws
    [Error("Unsupported prediction algorithm: " + subType)] on every
    catalog, and the caller's heap is as before. *)
Theorem prediction_unsupported (getHours : float -> float)
        (Math_pow : float -> float -> float) (subType : string) (data : loc)
        (w : Run.World) :
  subType ∉ PredictionFacts.supported ->
  exists w',
    Prediction.performMagnitudePrediction getHours Math_pow subType data w
    = Some (Run.Throw (JS.Error ("Unsupported prediction algorithm: " ++ subType)), w')
    /\ FrameFacts.unchanged (Run.heap w) (Run.heap w').
Proof.
  intros Hnot.
  pose proof (PredictionFacts.performMagnitudePrediction_unfold getHours Math_pow
                subType data w _ eq_refl) as Hrun.
  cbv zeta in Hrun. rewrite (PredictionFacts.predict_unsupported Math_pow _ _ _ _ Hnot) in Hrun.
  eexists. split; [exact Hrun|].
  split; [auto|]. intros a Ha. simpl. now apply lookup_app_l.
Qed.

Lemma prediction_unsupported_witness :
  exists w',
    Prediction.performMagnitudePrediction (fun _ => 0) Examples.pow "ARIMA" 0%nat
      (Run.mkWorld Examples.line (Examples.always 0.5))
    = Some (Run.Throw (JS.Error "Unsupported prediction algorithm: ARIMA"), w')
    /\ FrameFacts.unchanged Examples.line (Run.heap w').
Proof.
  apply (prediction_unsupported (fun _ => 0) Examples.pow "ARIMA" 0%nat
           (Run.mkWorld Examples.line (Examples.always 0.5))).
  unfold PredictionFacts.supported. intros Hin.
  repeat (apply elem_of_cons in Hin as [Hin|Hin]; [discriminate|]). inversion Hin.
Defined.

(** X18.  On a catalog of fewer than two events every supported
    prediction subtype ends in a [TypeError], and no record is
    returned: the training set, the first [Math.floor(0.7 * length)]
    events, is empty and [linearRegression] reads [xTrain[0].map]. *)
Theorem prediction_needs_two_events (getHours : float -> float)
        (Math_pow : float -> float -> float) (subType : string) (data : loc)
        (w : Run.World) :
  subType ∈ PredictionFacts.supported ->
  length (arr (Run.heap w) data) <= 1 ->
  exists w',
    Prediction.performMagnitudePrediction getHours Math_pow subType data w
    = Some (Run.Throw (JS.TypeError "Cannot read properties of undefined (reading 'map')"),
            w').
Proof.
  intros Hsub Hlen.
  pose proof (PredictionFacts.performMagnitudePrediction_unfold getHours Math_pow
                subType data w _ eq_refl) as Hrun.
  cbv zeta in Hrun.
  set (sortedData := PerformFacts.sortedDataOf (Run.heap w) data) in *.
  assert (Hperm : Permutation sortedData (arr (Run.heap w) data))
    by apply sortByTime_Permutation.
  assert (Hsplit : Prediction.splitIndex (length sortedData) = 0%nat).
  { rewrite (Permutation_length Hperm).
    destruct (length (arr (Run.heap w) data)) as [|[|n]]; [reflexivity | reflexivity | lia]. }
  rewrite Hsplit in Hrun. change (take 0%nat sortedData) with (@nil loc) in Hrun.
  cbn [map] in Hrun.
  pose proof (PredictionFacts.predict_spec Math_pow subType [] []
                (map (fun event =>
                        Prediction.extractFeatures getHours
                          (obj (Run.heap (PerformFacts.sortedWorld w sortedData)) event))
                     (drop 0 sortedData)) Hsub) as Hpredict.
  cbv beta iota in Hpredict. rewrite Hpredict in Hrun.
  eexists. exact Hrun.
Qed.

Lemma prediction_needs_two_events_witness :
  exists w',
    Prediction.performMagnitudePrediction (fun _ => 0) Examples.pow "LSTM" 0%nat
      (Run.mkWorld Examples.single (Examples.always 0.5))
    = Some (Run.Throw (JS.TypeError "Cannot read properties of undefined (reading 'map')"),
            w').
Proof.
  apply (prediction_needs_two_events (fun _ => 0) Examples.pow "LSTM" 0%nat
           (Run.mkWorld Examples.single (Examples.always 0.5))).
  - unfold PredictionFacts.supported. set_solver.
  - simpl. lia.
Defined.

(** What a row of [predictions] says of its testing event. *)
Definition describes (h : Heap) (rmse : float) (event : loc)
           (p : PredictionResult.Prediction) : Prop :=
  PredictionResult.time p = time (obj h event)
  /\ PredictionResult.actual p = magnitude (obj h event)
  /\ PredictionResult.depth p = depth (obj h event)
  /\ PredictionResult.latitude p = latitude (obj h event)
  /\ PredictionResult.longitude p = longitude (obj h event)
  /\ PredictionResult.error p = PredictionResult.predicted p - PredictionResult.actual p
  /\ PredictionResult.lowerBound p = PredictionResult.predicted p - 1.96 * (rmse / 2)
  /\ PredictionResult.upperBound p = PredictionResult.predicted p + 1.96 * (rmse / 2).

(** X19.  When the training set is not empty, every supported subtype
    returns a record and leaves the caller's heap as it was.  The
    training and the testing events together are the catalog; there is
    one prediction for each testing event, in their order and numbered
    from 1, with the time, magnitude, depth and position of its event,
    [error = predicted - actual], and bounds at [1.96 * (rmse / 2)] on
    both sides of the predicted magnitude. *)
Theorem prediction_record (getHours : float -> float)
        (Math_pow : float -> float -> float) (subType : string) (data : loc)
        (w : Run.World) :
  subType ∈ PredictionFacts.supported ->
  1 <= Prediction.splitIndex (length (arr (Run.heap w) data)) ->
  exists out w' trainingData testingData,
    Prediction.performMagnitudePrediction getHours Math_pow subType data w
    = Some (Run.Normal out, w')
    /\ FrameFacts.unchanged (Run.heap w) (Run.heap w')
    /\ Permutation (trainingData ++ testingData) (arr (Run.heap w) data)
    /\ length trainingData
       = Nat.min (Prediction.splitIndex (length (arr (Run.heap w) data)))
                 (length (arr (Run.heap w) data))
    /\ map PredictionResult.id (PredictionResult.predictions out)
       = seq 1 (length testingData)
    /\ Forall2 (describes (Run.heap w)
                  (PredictionResult.rmse (PredictionResult.metrics out)))
               testingData (PredictionResult.predictions out).
Proof.
  intros Hsub Hsplit.
  pose proof (PredictionFacts.performMagnitudePrediction_unfold getHours Math_pow
                subType data w _ eq_refl) as Hrun.
  cbv zeta in Hrun.
  set (sortedData := PerformFacts.sortedDataOf (Run.heap w) data) in *.
  assert (Hperm : Permutation sortedData (arr (Run.heap w) data))
    by apply sortByTime_Permutation.
  rewrite <- (Permutation_length Hperm) in *.
  set (k := Prediction.splitIndex (length sortedData)) in *.
  set (h := Run.heap (PerformFacts.sortedWorld w sortedData)) in *.
  assert (Hne : sortedData <> []).
  { intros Heq. unfold k in Hsplit. rewrite Heq in Hsplit. vm_compute in Hsplit. lia. }
  pose proof (PredictionFacts.predict_spec Math_pow subType
                (map (fun event => Prediction.extractFeatures getHours (obj h event))
                     (take k sortedData))
                (map (fun event => magnitude (obj h event)) (take k sortedData))
                (map (fun event => Prediction.extractFeatures getHours (obj h event))
                     (drop k sortedData)) Hsub) as Hpredict.
  destruct (take k sortedData) as [|first rest] eqn:Htake.
  { destruct sortedData; [congruence|]. destruct k; [lia | discriminate]. }
  cbn [map] in Hpredict, Hrun.
  destruct Hpredict as (predictions & algorithmName & Hpredict & Hlen).
  rewrite Hpredict in Hrun. destruct Hrun as (out & Hrun & _ & _ & Hrows).
  rewrite length_map in Hlen.
  exists out, (PerformFacts.sortedWorld w sortedData), (first :: rest), (drop k sortedData).
  split; [exact Hrun|]. split.
  { split; [auto|]. intros a Ha. simpl. now apply lookup_app_l. }
  split; [now rewrite <- Htake, take_drop|].
  split; [rewrite <- Htake; apply length_take|].
  rewrite Hrows. split; [apply PredictionFacts.predictionResults_ids|].
  apply Forall2_same_length_lookup_2.
  { now rewrite PredictionFacts.predictionResults_length. }
  intros j event p Hj Hp.
  rewrite (PredictionFacts.predictionResults_lookup _ _ _ _ _ _ _ _ Hj) in Hp.
  injection Hp as <-. simpl Nat.add.
  destruct (lookup_lt_is_Some_2 predictions j) as [x Hx].
  { rewrite Hlen. eapply lookup_lt_Some. exact Hj. }
  assert (Herr : Prediction.at_
                   (map (fun pi => fst pi - Prediction.at_
                                              (map (fun event => magnitude (obj h event))
                                                   (drop k sortedData)) (snd pi))
                        (combine predictions (seq 0 (length predictions)))) j
                 = x - magnitude (obj h event)).
  { apply PredictionFacts.at_lookup.
    rewrite list_lookup_fmap, (PredictionFacts.indexed_lookup _ 0 j x Hx). simpl.
    f_equal. f_equal. apply PredictionFacts.at_lookup.
    now rewrite list_lookup_fmap, Hj. }
  unfold describes. cbn [PredictionResult.time PredictionResult.actual
    PredictionResult.depth PredictionResult.latitude PredictionResult.longitude
    PredictionResult.error PredictionResult.predicted PredictionResult.lowerBound
    PredictionResult.upperBound].
  rewrite Herr, (PredictionFacts.at_lookup _ _ _ Hx).
  repeat split.
Qed.

Lemma prediction_record_witness :
  exists out w' trainingData testingData,
    Prediction.performMagnitudePrediction (fun _ => 0) Examples.pow
      "Linear Regression Prediction" 0%nat (Run.mkWorld Examples.line (Examples.always 0.5))
    = Some (Run.Normal out, w')
    /\ FrameFacts.unchanged Examples.line (Run.heap w')
    /\ Permutation (trainingData ++ testingData) [0; 1; 2]%nat
    /\ length trainingData = Nat.min (Prediction.splitIndex 3) 3
    /\ map PredictionResult.id (PredictionResult.predictions out)
       = seq 1 (length testingData)
    /\ Forall2 (describes Examples.line
                  (PredictionResult.rmse (PredictionResult.metrics out)))
               testingData (PredictionResult.predictions out).
Proof.
  apply (prediction_record (fun _ => 0) Examples.pow "Linear Regression Prediction" 0%nat
           (Run.mkWorld Examples.line (Examples.always 0.5))).
  - unfold PredictionFacts.supported. set_solver.
  - vm_compute. lia.
Defined.

End PredictionTheorems.

(** ** DBSCAN: how the members of a cluster hang together *)

Module ReachFacts.
Section Dbscan.
Variable h : Heap.
Variable points : list loc.
Variable eps : float.
Variable minPts : nat.

Abbreviation getNeighbors := (DBSCAN.getNeighbors h points eps).
Abbreviation expand := (DBSCAN.expand h points eps minPts).
Abbreviation scan := (DBSCAN.scan h points eps minPts).

(** [e] is a neighbour of a member of [before] that has at least
    [minPts] neighbours. *)
Definition reached (before : list loc) (e : loc) : Prop :=
  exists c, c ∈ before /\ minPts <= length (getNeighbors c) /\ e ∈ getNeighbors c.

(** Every member but the first is reached from the members before it. *)
Definition linked (cluster : list loc) : Prop :=
  forall before e after, cluster = before ++ e :: after -> before <> [] -> reached before e.

Lemma reached_app (before more : list loc) (e : loc) :
  reached before e -> reached (before ++ more) e.
Proof.
  intros (c & Hc & Hcore & He). exists c. split; [|split; assumption].
  apply elem_of_app. now left.
Qed.

Lemma linked_snoc (cluster : list loc) (e : loc) :
  linked cluster -> reached cluster e -> linked (cluster ++ [e]).
Proof.
  intros Hl Hr before x after Heq Hne.
  destruct after as [|y after _] using rev_ind.
  - apply app_inj_tail in Heq as [-> ->]. exact Hr.
  - rewrite app_comm_cons, app_assoc in Heq. apply app_inj_tail in Heq as [Heq _].
    now apply (Hl before x after).
Qed.

Lemma linked_singleton (point : loc) : linked [point].
Proof.
  intros before e after Heq Hne.
  destruct before as [|b before]; [congruence|].
  destruct before; simpl in Heq; congruence.
Qed.

Lemma expand_linked (fuel : nat) (visited cluster queue v c : list loc) :
  expand fuel visited cluster queue = Some (v, c) ->
  linked cluster ->
  (forall q, q ∈ queue -> reached cluster q) ->
  linked c.
Proof.
  revert visited cluster queue.
  induction fuel as [|fuel IH]; intros visited cluster queue Hrun Hl Hq; [discriminate|].
  simpl in Hrun. destruct queue as [|current rest].
  - now inversion Hrun; subst.
  - destruct (has visited current).
    + apply (IH _ _ _ Hrun Hl). intros q Hin. apply Hq. now right.
    + apply (IH _ _ _ Hrun).
      * apply linked_snoc; [exact Hl|]. apply Hq. now left.
      * intros q Hin.
        destruct (minPts <=? length (getNeighbors current))%nat eqn:Hcore.
        -- apply elem_of_app in Hin as [Hin|Hin].
           ++ apply reached_app. apply Hq. now right.
           ++ apply elem_of_filter_bool in Hin as [Hin _].
              exists current. split; [apply elem_of_app; right; now left|].
              split; [now apply Nat.leb_le | exact Hin].
        -- apply reached_app. apply Hq. now right.
Qed.

Lemma scan_linked (todo : list loc) (st st' : DBSCAN.State) :
  scan todo st = Some st' ->
  Forall linked (DBSCAN.clusters st) -> Forall linked (DBSCAN.clusters st').
Proof.
  revert st. induction todo as [|point todo IH]; intros st Hrun Hl; cbn [DBSCAN.scan] in Hrun.
  - now inversion Hrun; subst.
  - destruct (has (DBSCAN.visited st) point); [now apply (IH st)|].
    destruct (length (getNeighbors point) <? minPts)%nat eqn:Hfew.
    + apply (IH _ Hrun). exact Hl.
    + destruct (expand _ _ _ _) as [[visited2 cluster]|] eqn:Hexpand; [|discriminate].
      apply (IH _ Hrun). simpl. apply Forall_app. split; [exact Hl|].
      constructor; [|constructor].
      apply (expand_linked _ _ _ _ _ _ Hexpand); [apply linked_singleton|].
      intros q Hq. exists point. split; [now left|]. split; [|exact Hq].
      apply Nat.ltb_ge in Hfew. exact Hfew.
Qed.

End Dbscan.
End ReachFacts.

Module ReachTheorems.

(** X20.  The clusters of [dbscan] hang together: every member of a
    cluster but its first is within [eps] of a member that comes before
    it in the cluster and has at least [minPts] events within [eps]. *)
Theorem clusters_are_connected (h : Heap) (points : list loc) (eps : float) (minPts : nat) :
  exists clusters noise,
    DBSCAN.dbscan h points eps minPts = Some (clusters, noise)
    /\ Forall
         (fun cluster =>
            forall before e after,
              cluster = before ++ e :: after -> before <> [] ->
              exists c,
                c ∈ before
                /\ minPts <= length (DBSCAN.getNeighbors h points eps c)
                /\ (distance h c e <=? eps) = true)
         clusters.
Proof.
  destruct (DbscanFacts.dbscan_spec h points eps minPts)
    as (clusters & noise & Hrun & _).
  exists clusters, noise. split; [exact Hrun|].
  unfold DBSCAN.dbscan in Hrun.
  destruct (DBSCAN.scan h points eps minPts points (DBSCAN.mkState [] [] []))
    as [st|] eqn:Hscan; [|discriminate].
  inversion Hrun; subst.
  pose proof (ReachFacts.scan_linked h points eps minPts _ _ _ Hscan) as Hlinked.
  specialize (Hlinked ltac:(constructor)).
  eapply Forall_impl; [exact Hlinked|].
  intros cluster Hl before e after Heq Hne.
  destruct (Hl before e after Heq Hne) as (c & Hc & Hcore & He).
  exists c. split; [exact Hc|]. split; [exact Hcore|].
  unfold DBSCAN.getNeighbors in He. apply elem_of_filter_bool in He. tauto.
Qed.

End ReachTheorems.

(** ** The distributions of the declustering record *)

Module HistogramFacts.

Lemma SFltb_leb_false (x a b : spec_float) :
  SFltb x a = true -> SFleb a b = true -> SFleb b x = false.
Proof.
  unfold SFltb, SFleb.
  destruct x as [sx|sx| |sx mx ex], a as [sa|sa| |sa ma ea], b as [sb|sb| |sb mb eb];
    simpl; try discriminate; try reflexivity; NumberFacts.compare_cases.
Qed.

(** If [x < a] and [a <= b] then [x] is not at or above [b]. *)
Lemma ltb_leb_false (x a b : float) :
  (x <? a) = true -> (a <=? b) = true -> (b <=? x) = false.
Proof. rewrite FloatAxioms.ltb_spec, !FloatAxioms.leb_spec. apply SFltb_leb_false. Qed.

Lemma SFleb_trans (a b c : spec_float) :
  SFleb a b = true -> SFleb b c = true -> SFleb a c = true.
Proof.
  unfold SFleb.
  destruct a as [sa|sa| |sa ma ea], b as [sb|sb| |sb mb eb], c as [sc|sc| |sc mc ec];
    simpl; try discriminate; try reflexivity; NumberFacts.compare_cases.
Qed.

Lemma leb_trans (a b c : float) :
  (a <=? b) = true -> (b <=? c) = true -> (a <=? c) = true.
Proof. rewrite !FloatAxioms.leb_spec. apply SFleb_trans. Qed.

Lemma SFleb_total (a x b : spec_float) :
  SFleb a x = true -> b <> S754_nan -> SFltb x b = false -> SFleb b x = true.
Proof.
  unfold SFltb, SFleb.
  destruct a as [sa|sa| |sa ma ea], x as [sx|sx| |sx mx ex], b as [sb|sb| |sb mb eb];
    simpl; try discriminate; try reflexivity; try congruence; NumberFacts.compare_cases.
Qed.

Lemma not_nan_spec (b : float) : is_nan b = false -> Prim2SF b <> S754_nan.
Proof.
  unfold is_nan. rewrite FloatAxioms.eqb_spec. intros Hb Heq. rewrite Heq in Hb. discriminate.
Qed.

(** A number that is above something is at or above every number that
    it is not below. *)
Lemma leb_total (a x b : float) :
  (a <=? x) = true -> is_nan b = false -> (x <? b) = false -> (b <=? x) = true.
Proof.
  rewrite !FloatAxioms.leb_spec, FloatAxioms.ltb_spec. intros Ha Hb.
  apply SFleb_total with (a := Prim2SF a); [exact Ha | now apply not_nan_spec].
Qed.

(** *** Numbers that are not negative *)

(** Zero, positive, or not a number. *)
Definition unsigned (x : spec_float) : Prop :=
  match x with
  | S754_finite true _ _ | S754_infinity true => False
  | _ => True
  end.

Lemma round_unsigned (mx ex : Z) (lx : SpecFloat.location) :
  unsigned (binary_round_aux prec emax false mx ex lx).
Proof.
  unfold binary_round_aux.
  destruct (shr_fexp prec emax mx ex lx) as [mrs' e'].
  destruct (shr_fexp prec emax _ e' loc_Exact) as [mrs'' e''].
  destruct (shr_m mrs''); simpl; [trivial| |trivial].
  destruct (e'' <=? emax - prec)%Z; simpl; trivial.
Qed.

Lemma sqrt_unsigned (x : float) : unsigned (Prim2SF (PrimFloat.sqrt x)).
Proof.
  rewrite FloatAxioms.sqrt_spec. unfold SF64sqrt, SFsqrt.
  destruct (Prim2SF x) as [s|s| |s m e]; simpl; trivial.
  - now destruct s.
  - destruct s; simpl; [trivial|].
    destruct (SFsqrt_core_binary prec emax (Z.pos m) e) as [[mz ez] lz].
    apply round_unsigned.
Qed.

Lemma mul_unsigned (x y : float) :
  unsigned (Prim2SF x) -> unsigned (Prim2SF y) -> unsigned (Prim2SF (x * y)).
Proof.
  rewrite FloatAxioms.mul_spec. unfold SF64mul, SFmul.
  destruct (Prim2SF x) as [sx|sx| |sx mx ex], (Prim2SF y) as [sy|sy| |sy my ey];
    repeat match goal with s : bool |- _ => destruct s end;
    simpl; intros Hx Hy; try tauto.
  apply round_unsigned.
Qed.

(** An unsigned number is a NaN or is not below zero. *)
Lemma unsigned_leb (x : float) :
  unsigned (Prim2SF x) -> Prim2SF x <> S754_nan -> (0 <=? x) = true.
Proof.
  rewrite FloatAxioms.leb_spec. unfold SFleb.
  change (Prim2SF 0) with (S754_zero false).
  destruct (Prim2SF x) as [s|s| |s m e]; simpl; try congruence; try reflexivity;
    destruct s; simpl; tauto.
Qed.

Lemma ltb_not_nan (x y : float) : (x <? y) = true -> Prim2SF x <> S754_nan.
Proof.
  rewrite FloatAxioms.ltb_spec. intros Hlt Heq. rewrite Heq in Hlt. discriminate.
Qed.

(** The nearest other event is at a distance that is a number and is
    not negative (infinite when there is no other event). *)
Lemma nearestKm_leb (h : Heap) (sortedData : list loc) (i : nat) (event : loc) :
  (0 <=? Declustering.nearestKm h sortedData i event) = true.
Proof.
  unfold Declustering.nearestKm.
  generalize (combine (seq 0 (length sortedData)) sortedData).
  assert (Hstart : (0 <=? infinity) = true) by reflexivity.
  revert Hstart. generalize infinity.
  intros minDistance Hmin l. revert minDistance Hmin.
  induction l as [|[j other] l IH]; intros minDistance Hmin; simpl; [exact Hmin|].
  apply IH. destruct (Nat.eqb i j); [exact Hmin|].
  destruct (distance h event other * 111 <? minDistance) eqn:Hlt; [|exact Hmin].
  apply unsigned_leb; [|exact (ltb_not_nan _ _ Hlt)].
  apply mul_unsigned; [apply sqrt_unsigned | exact I].
Qed.

(** *** Ranges *)

(** The ranges that hold [x]. *)
Definition hits (x : float) (ranges : list Declustering.Range) : nat :=
  length (List.filter (Declustering.inRange x) ranges).

(** Ranges in ascending order, of which only the last may be open. *)
Fixpoint ascending (ranges : list Declustering.Range) : bool :=
  match ranges with
  | [] => true
  | (_, min, max) :: rest =>
    (min <=? max)
    && forallb (fun r => negb (max =? infinity) && (max <=? snd (fst r))) rest
    && ascending rest
  end.

(** Ranges that go from [from] to infinity without a gap. *)
Fixpoint tiles (from : float) (ranges : list Declustering.Range) : Prop :=
  match ranges with
  | [] => False
  | (_, min, max) :: rest =>
    min = from /\ is_nan max = false /\ ((max =? infinity) = true \/ tiles max rest)
  end.

Lemma hits_once (x : float) (ranges : list Declustering.Range) :
  ascending ranges = true -> hits x ranges <= 1.
Proof.
  unfold hits. induction ranges as [|[[label min] max] rest IH]; simpl; [lia|].
  intros Hasc. apply andb_true_iff in Hasc as [Hasc Hrest].
  apply andb_true_iff in Hasc as [_ Hlater]. specialize (IH Hrest).
  destruct (JS.ge x min && ((max =? infinity) || (x <? max))) eqn:Hin; [|exact IH].
  simpl. apply andb_true_iff in Hin as [_ Hmax].
  assert (Hnone : List.filter (Declustering.inRange x) rest = []).
  { rewrite forallb_forall in Hlater. clear IH Hrest.
    induction rest as [|[[label' min'] max'] rest IH]; [reflexivity|].
    pose proof (Hlater _ (or_introl eq_refl)) as Hr. simpl in Hr.
    apply andb_true_iff in Hr as [Hopen Hle]. apply negb_true_iff in Hopen.
    rewrite Hopen in Hmax. simpl in Hmax.
    simpl. unfold JS.ge. rewrite (ltb_leb_false x max min' Hmax Hle). simpl.
    apply IH. intros r Hr. apply Hlater. now right. }
  rewrite Hnone. simpl. lia.
Qed.

Lemma hits_tiles (x from : float) (ranges : list Declustering.Range) :
  tiles from ranges -> (from <=? x) = true -> 1 <= hits x ranges.
Proof.
  unfold hits. revert from.
  induction ranges as [|[[label min] max] rest IH]; intros from Htiles Hfrom;
    simpl in *; [tauto|].
  destruct Htiles as (-> & Hnan & Hnext). unfold JS.ge. rewrite Hfrom. simpl.
  destruct (max =? infinity) eqn:Hopen; simpl; [lia|].
  destruct (x <? max) eqn:Hlt; simpl; [lia|].
  destruct Hnext as [Hnext|Hnext]; [discriminate|].
  apply (IH max Hnext). exact (leb_total from x max Hfrom Hnan Hlt).
Qed.

Lemma hits_below (x : float) (label : string) (min max : float)
      (rest : list Declustering.Range) :
  ascending ((label, min, max) :: rest) = true -> (min <=? x) = false ->
  hits x ((label, min, max) :: rest) = 0%nat.
Proof.
  unfold hits. simpl. intros Hasc Hmin.
  apply andb_true_iff in Hasc as [Hasc _]. apply andb_true_iff in Hasc as [Hle Hlater].
  unfold JS.ge at 1. rewrite Hmin. simpl.
  rewrite forallb_forall in Hlater.
  induction rest as [|[[label' min'] max'] rest IH]; [reflexivity|].
  pose proof (Hlater _ (or_introl eq_refl)) as Hr. simpl in Hr.
  apply andb_true_iff in Hr as [_ Hle'].
  simpl. unfold JS.ge.
  destruct (min' <=? x) eqn:Hx.
  - rewrite (leb_trans min min' x (leb_trans min max min' Hle Hle') Hx) in Hmin.
    discriminate.
  - simpl. apply IH. intros r Hr. apply Hlater. now right.
Qed.

(** Counting by rows is counting by events. *)
Lemma sum_hits {A} (val : A -> float) (l : list A) (ranges : list Declustering.Range) :
  list_sum (map (fun r => length (List.filter (fun a => Declustering.inRange (val a) r) l))
                ranges)
  = list_sum (map (fun a => hits (val a) ranges) l).
Proof.
  induction l as [|a l IH]; simpl.
  - induction ranges; simpl; [reflexivity | assumption].
  - rewrite <- IH. unfold hits. clear IH.
    induction ranges as [|r ranges IH]; simpl; [reflexivity|].
    destruct (Declustering.inRange (val a) r); simpl; rewrite IH; lia.
Qed.

Lemma sum_at_most {A} (f : A -> nat) (l : list A) :
  (forall a, f a <= 1) -> list_sum (map f l) <= length l.
Proof.
  intros Hf. induction l as [|a l IH]; simpl; [lia|]. specialize (Hf a). lia.
Qed.

Lemma sum_indicator {A} (f : A -> nat) (p : A -> bool) (l : list A) :
  (forall a, f a = if p a then 1%nat else 0%nat) ->
  list_sum (map f l) = length (List.filter p l).
Proof.
  intros Hf. induction l as [|a l IH]; simpl; [reflexivity|].
  rewrite Hf, IH. destruct (p a); reflexivity.
Qed.

Lemma binBy_before (h : Heap) (f : Event -> float) (ranges : list Declustering.Range)
      (before after : list loc) :
  list_sum (map (fun row => snd (fst row)) (Declustering.binBy h f ranges before after))
  = list_sum (map (fun e => hits (f (obj h e)) ranges) before).
Proof.
  unfold Declustering.binBy, Declustering.countBy. rewrite map_map. cbn [fst snd].
  apply (sum_hits (fun e => f (obj h e))).
Qed.

Lemma binBy_after (h : Heap) (f : Event -> float) (ranges : list Declustering.Range)
      (before after : list loc) :
  list_sum (map snd (Declustering.binBy h f ranges before after))
  = list_sum (map (fun e => hits (f (obj h e)) ranges) after).
Proof.
  unfold Declustering.binBy, Declustering.countBy. rewrite map_map. cbn [fst snd].
  apply (sum_hits (fun e => f (obj h e))).
Qed.

Lemma depth_hits (x : float) :
  hits x Declustering.depthRanges = if 0 <=? x then 1%nat else 0%nat.
Proof.
  destruct (0 <=? x) eqn:Hx.
  - apply Nat.le_antisymm; [now apply hits_once|].
    apply (hits_tiles x 0); [|exact Hx].
    simpl. repeat (split; [reflexivity|]; split; [reflexivity|]; try (now left); right).
  - now apply hits_below.
Qed.

Lemma distance_hits (x : float) :
  (0 <=? x) = true -> hits x Declustering.distanceRanges = 1%nat.
Proof.
  intros Hx. apply Nat.le_antisymm; [now apply hits_once|].
  apply (hits_tiles x 0); [|exact Hx].
  simpl. repeat (split; [reflexivity|]; split; [reflexivity|]; try (now left); right).
Qed.

Lemma nnd_sum (h : Heap) (sortedData : list loc) :
  list_sum (map snd (Declustering.nnd h sortedData)) = length sortedData.
Proof.
  unfold Declustering.nnd. rewrite map_map. cbn [snd].
  set (indexed := combine (seq 0 (length sortedData)) sortedData).
  rewrite (map_ext _
             (fun r => length (List.filter
                                 (fun a => Declustering.inRange
                                             (Declustering.nearestKm h sortedData (fst a) (snd a)) r)
                                 indexed))).
  2:{ intros r. f_equal. apply List.filter_ext. now intros [i event]. }
  rewrite (sum_hits (fun a => Declustering.nearestKm h sortedData (fst a) (snd a))).
  rewrite (sum_indicator _ (fun _ => true)).
  - rewrite List.forallb_filter_id by (apply forallb_forall; reflexivity).
    unfold indexed. rewrite length_combine, length_seq. lia.
  - intros a. apply distance_hits, nearestKm_leb.
Qed.

Section Declustering.
Variable Math_pow : float -> float -> float.

Lemma analyse_distances (subType algorithm : string) (sortedData ms afs : list loc)
      (w : Run.World) :
  Declustering.algorithmOf subType = Some algorithm ->
  Declustering.decluster Math_pow (Run.heap w) sortedData algorithm = Some (inr (ms, afs)) ->
  exists out w',
    Declustering.analyse Math_pow subType sortedData w = Some (Run.Normal out, w')
    /\ Declustering.mainshocks out
       = Declustering.ensureMainshock (Run.heap w) sortedData ms
    /\ Declustering.magnitudeDistribution out
       = Declustering.binBy (Run.heap w) magnitude Declustering.magnitudeRanges
           sortedData (Declustering.mainshocks out)
    /\ Declustering.depthDistribution out
       = Declustering.binBy (Run.heap w) depth Declustering.depthRanges
           sortedData (Declustering.mainshocks out)
    /\ Declustering.nndDistribution out = Declustering.nnd (Run.heap w) sortedData.
Proof.
  intros Halg Hrun. unfold Declustering.analyse, Run.bind, Run.getHeap, Run.liftOption.
  rewrite Halg. cbn [Run.heap]. rewrite Hrun. unfold Run.random, Run.ret.
  cbn. eexists _, _. split; [reflexivity|]. cbn. repeat split; reflexivity.
Qed.

End Declustering.

End HistogramFacts.

Module HistogramTheorems.

(** The magnitude is in one of the ranges of [magnitudeDistribution]. *)
Definition covered (x : float) : bool :=
  existsb (Declustering.inRange x) Declustering.magnitudeRanges.

Lemma SFleb_ltb_false (m a x : spec_float) :
  SFleb m a = true -> SFleb a x = true -> SFltb x m = false.
Proof.
  unfold SFltb, SFleb.
  destruct m as [sm|sm| |sm mm em], a as [sa|sa| |sa ma ea], x as [sx|sx| |sx mx ex];
    simpl; try discriminate; try reflexivity; NumberFacts.compare_cases.
Qed.

(** If [m <= a] and [a <= x] then [x] is not below [m]. *)
Lemma leb_ltb_false (m a x : float) :
  (m <=? a) = true -> (a <=? x) = true -> (x <? m) = false.
Proof. rewrite !FloatAxioms.leb_spec, FloatAxioms.ltb_spec. apply SFleb_ltb_false. Qed.

(** A magnitude between two ranges. *)
Lemma between_ranges (a b x : float) :
  (a <=? x) = true -> (x <? b) = true ->
  forallb (fun r => let '(_, min, max) := r in
                    ((max <=? a) && negb (max =? infinity)) || (b <=? min))
          Declustering.magnitudeRanges = true ->
  covered x = false.
Proof.
  intros Hlo Hhi Hall. unfold covered.
  induction Declustering.magnitudeRanges as [|[[label min] max] rest IH]; [reflexivity|].
  simpl in Hall. apply andb_true_iff in Hall as [Hr Hall].
  simpl. rewrite (IH Hall), orb_false_r.
  apply orb_true_iff in Hr as [Hr|Hr].
  - apply andb_true_iff in Hr as [Hle Hopen]. apply negb_true_iff in Hopen.
    rewrite Hopen, (leb_ltb_false max a x Hle Hlo). apply andb_false_r.
  - unfold JS.ge. now rewrite (HistogramFacts.ltb_leb_false x b min Hhi Hr).
Qed.

Lemma covered_hits (x : float) :
  HistogramFacts.hits x Declustering.magnitudeRanges = if covered x then 1%nat else 0%nat.
Proof.
  pose proof (HistogramFacts.hits_once x Declustering.magnitudeRanges eq_refl) as Hle.
  unfold covered, HistogramFacts.hits in *.
  induction Declustering.magnitudeRanges as [|r rest IH]; [reflexivity|].
  simpl in *. destruct (Declustering.inRange x r); simpl in *.
  - lia.
  - apply IH. exact Hle.
Qed.

(** X21.  The distributions of the declustering record, for the four
    subtypes and a catalog that is not empty.  No event is counted in
    two rows.  The rows of [nndDistribution] add up to the size of the
    catalog: every event is in exactly one of them.  Those of
    [depthDistribution] add up to the events whose depth is a number
    that is not negative.  Those of [magnitudeDistribution] add up to
    the events whose magnitude is in one of its ranges, which leave out
    the magnitudes from 2.9 to 3, from 3.9 to 4, from 4.9 to 5 and
    from 5.9 to 6. *)
Theorem distributions_count_once (Math_pow : float -> float -> float) (subType : string)
        (data : loc) (w : Run.World) :
  subType ∈ PerformFacts.subTypes ->
  arr (Run.heap w) data <> [] ->
  exists out w',
    Declustering.performDeclustering Math_pow subType data w = Some (Run.Normal out, w')
    /\ let h := Run.heap w in
       let catalog := arr (Run.heap w) data in
       let before := fun row : string * nat * nat => snd (fst row) in
       let count := fun (p : Event -> bool) l => length (List.filter (fun e => p (obj h e)) l) in
       list_sum (map snd (Declustering.nndDistribution out)) = length catalog
       /\ list_sum (map before (Declustering.depthDistribution out))
          = count (fun e => 0 <=? depth e) catalog
       /\ list_sum (map snd (Declustering.depthDistribution out))
          = count (fun e => 0 <=? depth e) (Declustering.mainshocks out)
       /\ list_sum (map before (Declustering.magnitudeDistribution out))
          = count (fun e => covered (magnitude e)) catalog
       /\ list_sum (map snd (Declustering.magnitudeDistribution out))
          = count (fun e => covered (magnitude e)) (Declustering.mainshocks out)
       /\ forall x,
            ((2.9 <=? x) && (x <? 3)) || ((3.9 <=? x) && (x <? 4))
            || ((4.9 <=? x) && (x <? 5)) || ((5.9 <=? x) && (x <? 6)) = true ->
            covered x = false.
Proof.
  intros Hsub Hne.
  rewrite PerformFacts.performDeclustering_unfold.
  set (sortedData := PerformFacts.sortedDataOf (Run.heap w) data).
  assert (Hperm : Permutation sortedData (arr (Run.heap w) data))
    by apply sortByTime_Permutation.
  replace (length sortedData =? 0)%nat with false.
  2:{ destruct sortedData; [|reflexivity]. apply Permutation_nil in Hperm. congruence. }
  destruct (PerformFacts.algorithmOf_subTypes subType Hsub) as (algorithm & Halg & Hstrat).
  set (w1 := PerformFacts.sortedWorld w sortedData).
  destruct (DeclusterFacts.decluster_spec Math_pow (Run.heap w1) sortedData algorithm Hstrat)
    as (ms & afs & Hrun & _).
  destruct (HistogramFacts.analyse_distances Math_pow subType algorithm sortedData ms afs w1
              Halg Hrun)
    as (out & w' & Hout & _ & Hmd & Hdd & Hnnd).
  unfold Run.tryCatch. rewrite Hout. exists out, w'. split; [reflexivity|].
  cbv zeta. rewrite Hnnd, Hdd, Hmd.
  rewrite HistogramFacts.nnd_sum, !HistogramFacts.binBy_before, !HistogramFacts.binBy_after.
  split; [apply (Permutation_length Hperm)|].
  rewrite !(HistogramFacts.sum_indicator _ (fun e => 0 <=? depth (obj (Run.heap w) e)))
    by (intros e; apply HistogramFacts.depth_hits).
  rewrite !(HistogramFacts.sum_indicator _ (fun e => covered (magnitude (obj (Run.heap w) e))))
    by (intros e; apply covered_hits).
  split; [apply RecordFacts.filter_length_Permutation, Hperm|].
  split; [reflexivity|].
  split; [apply RecordFacts.filter_length_Permutation, Hperm|].
  split; [reflexivity|].
  intros x Hx.
  repeat (apply orb_true_iff in Hx as [Hx|Hx]);
    apply andb_true_iff in Hx as [Hlo Hhi];
    exact (between_ranges _ _ x Hlo Hhi eq_refl).
Qed.

Lemma distributions_count_once_witness :
  exists out w',
    Declustering.performDeclustering Examples.pow "Reasenberg Algorithm" 0%nat
      (Run.mkWorld Examples.line (Examples.always 0.5)) = Some (Run.Normal out, w')
    /\ let h := Examples.line in
       let catalog := [0; 1; 2]%nat in
       let before := fun row : string * nat * nat => snd (fst row) in
       let count := fun (p : Event -> bool) l => length (List.filter (fun e => p (obj h e)) l) in
       list_sum (map snd (Declustering.nndDistribution out)) = length catalog
       /\ list_sum (map before (Declustering.depthDistribution out))
          = count (fun e => 0 <=? depth e) catalog
       /\ list_sum (map snd (Declustering.depthDistribution out))
          = count (fun e => 0 <=? depth e) (Declustering.mainshocks out)
       /\ list_sum (map before (Declustering.magnitudeDistribution out))
          = count (fun e => covered (magnitude e)) catalog
       /\ list_sum (map snd (Declustering.magnitudeDistribution out))
          = count (fun e => covered (magnitude e)) (Declustering.mainshocks out)
       /\ forall x,
            ((2.9 <=? x) && (x <? 3)) || ((3.9 <=? x) && (x <? 4))
            || ((4.9 <=? x) && (x <? 5)) || ((5.9 <=? x) && (x <? 6)) = true ->
            covered x = false.
Proof.
  apply (distributions_count_once Examples.pow "Reasenberg Algorithm" 0%nat
           (Run.mkWorld Examples.line (Examples.always 0.5))).
  - unfold PerformFacts.subTypes. set_solver.
  - discriminate.
Defined.

End HistogramTheorems.
